(** * Knowledge graph of energy events: the graph store, the metrics, the
    embedding search and the ingestion run of [src/src/App.jsx].

    The component keeps its state in React hooks ([nodesMap], [edges], the
    [embeddingsRef] ref and a handful of UI fields).  Here every handler is a
    computation in a small state-and-exception monad over that state: a
    throw keeps the state reached so far, as in the source.  The two HTTP
    helpers ([getEmbedding], [gptPlainText]) consult an injected provider and
    leave a record of the request in a log, so that "no call was made" is a
    statement about the log.  A handler runs to its end: two handlers
    interleaved at an [await] are outside the model.

    Objects used as maps are finite maps ([gmap]); the keys of the program
    are of the form "kind:id" and meet no property of [Object.prototype].
    The embedding table is a list of entries, because the search reads its
    keys in the order [Object.keys] gives.  The input records follow the
    schema of the three text areas: string properties, each possibly absent,
    and a numeric severity.

    JavaScript numbers appear through the interface [Number]: the code is
    embedded once and read at two arithmetics,
    - [Binary64]: IEEE 754 double precision, what the engine computes;
    - [Exact]: the real numbers, the data model of the specification. *)

From Stdlib Require Import Floats.PrimFloat Numbers.Cyclic.Int63.Uint63.
From Stdlib Require Import Ascii String Reals Lra.
From stdpp Require Import gmap strings list sorting.

(** ** Numbers *)

Class Number (num : Type) := {
  nzero : num;                        (* the literal 0 *)
  c0_5 : num;                         (* the literal 0.5 *)
  c0_3 : num;                         (* the literal 0.3 *)
  nadd : num → num → num;
  nsub : num → num → num;
  nmul : num → num → num;
  ndiv : num → num → num;
  nsqrt : num → num;                  (* Math.sqrt *)
  of_Z : Z → num;                     (* a count or a length, as a number *)
  falsy : num → bool;                 (* !x : x is 0 or NaN *)
  negative : num → bool;              (* x < 0 *)
  (* what both arithmetics agree on *)
  falsy_nzero : falsy nzero = true;
  nmul_nzero : nmul nzero nzero = nzero;
  nadd_nzero : nadd nzero nzero = nzero;
  nsqrt_nzero : nsqrt nzero = nzero;
}.

(** IEEE 754 binary64, the arithmetic of the engine.  [of_Z] is used on
    lengths and counts only (non-negative, far below 2^53). *)
#[export] Instance Binary64 : Number float := {|
  nzero := 0%float;
  c0_5 := 0x1p-1%float;
  c0_3 := 0x1.3333333333333p-2%float;
  nadd := PrimFloat.add;
  nsub := PrimFloat.sub;
  nmul := PrimFloat.mul;
  ndiv := PrimFloat.div;
  nsqrt := PrimFloat.sqrt;
  of_Z := λ z, PrimFloat.of_uint63 (Uint63.of_Z z);
  falsy := λ x, PrimFloat.eqb x 0%float || negb (PrimFloat.eqb x x);
  negative := λ x, PrimFloat.ltb x 0%float;
  falsy_nzero := eq_refl;
  nmul_nzero := eq_refl;
  nadd_nzero := eq_refl;
  nsqrt_nzero := eq_refl;
|}.

(** Exact arithmetic on the reals. *)
#[export] Instance R_eq_dec : EqDecision R := Req_dec_T.
#[export] Instance R_lt_dec : RelDecision Rlt := Rlt_dec.

#[export] Instance Exact : Number R := {|
  nzero := 0%R;
  c0_5 := 0.5%R;
  c0_3 := 0.3%R;
  nadd := Rplus;
  nsub := Rminus;
  nmul := Rmult;
  ndiv := Rdiv;
  nsqrt := sqrt;
  of_Z := IZR;
  falsy := λ x, bool_decide (x = 0%R);
  negative := λ x, bool_decide (x < 0)%R;
  falsy_nzero := bool_decide_eq_true_2 (0%R = 0%R) eq_refl;
  nmul_nzero := Rmult_0_l 0%R;
  nadd_nzero := Rplus_0_l 0%R;
  nsqrt_nzero := sqrt_0;
|}.

(** ** Math helpers (App.jsx, lines 59-77) *)

Section VectorMath.
Context {num : Type} `{Number num}.

(** [dot]: the loop runs over the common prefix of the two arrays. *)
Definition dot (a b : list num) : num :=
  fold_left (λ s p, nadd s (nmul p.1 p.2)) (zip a b) nzero.

Definition norm (a : list num) : num :=
  nsqrt (fold_left (λ s x, nadd s (nmul x x)) a nzero).

Definition cosineSim (a b : list num) : num :=
  let na := norm a in
  let nb := norm b in
  if falsy na || falsy nb then nzero
  else ndiv (dot a b) (nmul na nb).

End VectorMath.

(** ** JavaScript strings

    A string of the program is held as its UTF-8 encoding.  [trim] strips
    the white space of the language, which is more than the ASCII one.
    [String.prototype.toLowerCase] follows the case tables of Unicode: it is
    a function of the engine, taken from the environment ([Env] below). *)

(** The code points [String.prototype.trim] strips (WhiteSpace and
    LineTerminator of ECMAScript): TAB, LF, VT, FF, CR, SP, NBSP, the other
    space separators of Unicode, LS, PS and ZWNBSP, each in UTF-8. *)
Definition white_space : list string :=
  string_of_list_ascii <$>
  [ ["009"]; ["010"]; ["011"]; ["012"]; ["013"]; ["032"];
    ["194"; "160"];                                   (* U+00A0 *)
    ["225"; "154"; "128"];                            (* U+1680 *)
    ["226"; "128"; "128"]; ["226"; "128"; "129"];     (* U+2000, U+2001 *)
    ["226"; "128"; "130"]; ["226"; "128"; "131"];     (* U+2002, U+2003 *)
    ["226"; "128"; "132"]; ["226"; "128"; "133"];     (* U+2004, U+2005 *)
    ["226"; "128"; "134"]; ["226"; "128"; "135"];     (* U+2006, U+2007 *)
    ["226"; "128"; "136"]; ["226"; "128"; "137"];     (* U+2008, U+2009 *)
    ["226"; "128"; "138"];                            (* U+200A *)
    ["226"; "128"; "168"]; ["226"; "128"; "169"];     (* U+2028, U+2029 *)
    ["226"; "128"; "175"];                            (* U+202F *)
    ["226"; "129"; "159"];                            (* U+205F *)
    ["227"; "128"; "128"];                            (* U+3000 *)
    ["239"; "187"; "191"] ]%char.                     (* U+FEFF *)

(** [s] without its prefix [p], when it starts with [p]. *)
Fixpoint without_prefix (p s : string) : option string :=
  match p, s with
  | EmptyString, _ => Some s
  | String a p', String b s' =>
      if Ascii.eqb a b then without_prefix p' s' else None
  | String _ _, EmptyString => None
  end.

(** [s] without the one pattern of [pats] it starts with, if any. *)
Definition strip_one (pats : list string) (s : string) : option string :=
  foldr (λ p rest,
           match without_prefix p s with
           | Some r => Some r
           | None => rest
           end) None pats.

(** [s] without the patterns it starts with, one after the other; the
    length of [s] is fuel enough. *)
Fixpoint strip_all (pats : list string) (fuel : nat) (s : string) : string :=
  match fuel with
  | O => s
  | S n =>
      match strip_one pats s with
      | Some r => strip_all pats n r
      | None => s
      end
  end.

Definition trimStart (s : string) : string :=
  strip_all white_space (String.length s) s.

(** From the end: the same on the reversed string, with the patterns
    reversed. *)
Definition trimEnd (s : string) : string :=
  String.rev
    (strip_all (String.rev <$> white_space) (String.length s) (String.rev s)).

Definition trim (s : string) : string := trimEnd (trimStart s).

(** [s.replace(/\n/g, " ")] *)
Fixpoint replace_newlines (s : string) : string :=
  match s with
  | String c r =>
      String (if bool_decide (c = "010"%char) then " "%char else c)
             (replace_newlines r)
  | EmptyString => EmptyString
  end.

(** [toLowerCase] on ASCII text, where it changes the letters A to Z and
    nothing else: what the engine computes on the strings of the scenarios. *)
Definition lower_ascii (c : ascii) : ascii :=
  let n := nat_of_ascii c in
  if (65 <=? n)%nat && (n <=? 90)%nat then ascii_of_nat (n + 32) else c.

Fixpoint lowerCaseAscii (s : string) : string :=
  match s with
  | String c r => String (lower_ascii c) (lowerCaseAscii r)
  | EmptyString => EmptyString
  end.

(** [hay.includes(needle)] *)
Fixpoint includes (needle hay : string) : bool :=
  String.prefix needle hay ||
  match hay with
  | String _ r => includes needle r
  | EmptyString => false
  end.

(** [arr.join(sep)] *)
Fixpoint join (sep : string) (l : list string) : string :=
  match l with
  | [] => ""
  | [x] => x
  | x :: r => x +:+ sep +:+ join sep r
  end.

(** A property that may be absent: [None] is [undefined]. *)
Definition field := option string.

(** Truthiness of a string-valued property: [undefined] and [""] are falsy. *)
Definition truthy (f : field) : bool :=
  match f with
  | Some s => negb (String.eqb s "")
  | None => false
  end.

(** [f || dflt] *)
Definition or_else (f : field) (dflt : string) : string :=
  match f with
  | Some s => if String.eqb s "" then dflt else s
  | None => dflt
  end.

(** A property inside a template literal. *)
Definition tmpl (f : field) : string := default "undefined" f.

Definition nl : string := String "010"%char "".

(** ** Data model *)

(** A property value of a node object. *)
Inductive value (num : Type) : Type :=
  | VUndef
  | VStr (s : string)
  | VNum (x : num).
Arguments VUndef {num}.
Arguments VStr {num} s.
Arguments VNum {num} x.

Definition of_field {num} (f : field) : value num :=
  match f with
  | Some s => VStr s
  | None => VUndef
  end.

(** The input records, as the three text areas hold them once parsed. *)
Record paper := {
  paper_id : field;
  paper_title : field;
  paper_summary : field;
  paper_published : field;
}.

Record event (num : Type) := {
  event_external_id : field;
  event_name : field;
  event_description : field;
  event_start_time : field;
  event_end_time : field;
  event_region : field;
  event_asset_type : field;
  event_severity : option num;
}.
Arguments event_external_id {num} e.
Arguments event_name {num} e.
Arguments event_description {num} e.
Arguments event_start_time {num} e.
Arguments event_end_time {num} e.
Arguments event_region {num} e.
Arguments event_asset_type {num} e.
Arguments event_severity {num} e.

Record policy := {
  policy_external_id : field;
  policy_name : field;
  policy_description : field;
  policy_jurisdiction : field;
  policy_start_date : field;
  policy_end_date : field;
  policy_category : field;
}.

Record edge := { source : string; target : string; relation : string }.

Record metric (num : Type) := {
  degree_centrality : num;
  risk_score : num;
}.
Arguments degree_centrality {num} m.
Arguments risk_score {num} m.

(** A request sent to a provider. *)
Inductive call :=
  | CallEmbedding (input : string)
  | CallGpt (prompt : string).

(** The state of the component.  [embeddingsRef] keeps the keys in the order
    [Object.keys] lists them (first insertion; no key of the program is an
    array index).  The three JSON boxes are held parsed: [None] is a text
    [JSON.parse] rejects, [Some l] a text that parses to the array of
    records [l].  [calls] is the log of provider requests. *)
Record AppState (num : Type) := {
  nodesMap : gmap string (gmap string (value num));
  edges : list edge;
  embeddingsRef : list (string * list num);
  error : string;
  loadingIngest : bool;
  selectedNodeId : option string;
  selectedNodeSummary : string;
  ragQuery : string;
  ragAnswer : string;
  ragContexts : list (gmap string (value num));
  loadingRag : bool;
  papersJson : option (list paper);
  eventsJson : option (list (event num));
  policiesJson : option (list policy);
  calls : list call;
}.
Arguments nodesMap {num} a.
Arguments edges {num} a.
Arguments embeddingsRef {num} a.
Arguments error {num} a.
Arguments loadingIngest {num} a.
Arguments selectedNodeId {num} a.
Arguments selectedNodeSummary {num} a.
Arguments ragQuery {num} a.
Arguments ragAnswer {num} a.
Arguments ragContexts {num} a.
Arguments loadingRag {num} a.
Arguments papersJson {num} a.
Arguments eventsJson {num} a.
Arguments policiesJson {num} a.
Arguments calls {num} a.

(** What the component takes from outside: the API key of the build, the two
    HTTP endpoints (an error text on a response that is not ok), and three
    functions of the engine: the conversions between numbers and strings,
    and [String.prototype.toLowerCase]. *)
Record Env (num : Type) := {
  OPENAI_API_KEY : field;
  fetchEmbedding : string → string + list num;
  fetchResponse : string → string + string;
  numberToString : num → string;
  stringToNumber : string → num;
  toLowerCase : string → string;
}.
Arguments OPENAI_API_KEY {num} e.
Arguments fetchEmbedding {num} e _.
Arguments fetchResponse {num} e _.
Arguments numberToString {num} e _.
Arguments stringToNumber {num} e _.
Arguments toLowerCase {num} e _.

(** ** Handlers as computations: state kept on a throw *)

Inductive outcome (A : Type) : Type :=
  | Return (a : A)
  | Throw (message : string).
Arguments Return {A} a.
Arguments Throw {A} message.

Definition M (S A : Type) : Type := S → outcome A * S.

#[export] Instance M_ret {S} : MRet (M S) := λ A a s, (Return a, s).
#[export] Instance M_bind {S} : MBind (M S) := λ A B f m s,
  match m s with
  | (Return a, s') => f a s'
  | (Throw e, s') => (Throw e, s')
  end.

Definition gets {S A} (f : S → A) : M S A := λ s, (Return (f s), s).
Definition modify {S} (f : S → S) : M S unit := λ s, (Return tt, f s).
Definition throw {S A} (message : string) : M S A := λ s, (Throw message, s).

(** [try { m } catch (err) { h(err.message) }] *)
Definition try_catch {S A} (m : M S A) (h : string → M S A) : M S A := λ s,
  match m s with
  | (Return a, s') => (Return a, s')
  | (Throw e, s') => h e s'
  end.

(** [try { m } finally { f }] *)
Definition try_finally {S A} (m : M S A) (f : M S unit) : M S A := λ s,
  let '(r, s') := m s in
  match f s' with
  | (Return _, s'') => (r, s'')
  | (Throw e, s'') => (Throw e, s'')
  end.

(** [for (const x of l) { body(x) }] *)
Fixpoint for_of {S A} (l : list A) (body : A → M S unit) : M S unit :=
  match l with
  | [] => mret tt
  | x :: r => body x ;; for_of r body
  end.

(** The state a computation ends in. *)
Definition exec {S A} (m : M S A) (s : S) : S := (m s).2.

(** ** The component (App.jsx, lines 81-486) *)

Section App.
Context {num : Type} `{Number num} (env : Env num).

Abbreviation obj := (gmap string (value num)).
Abbreviation state := (AppState num).

(** *** State setters of the hooks *)

Definition setNodesMap (f : gmap string obj → gmap string obj) : M state unit :=
  modify (λ s, {|
    nodesMap := f (nodesMap s); edges := edges s;
    embeddingsRef := embeddingsRef s; error := error s;
    loadingIngest := loadingIngest s; selectedNodeId := selectedNodeId s;
    selectedNodeSummary := selectedNodeSummary s; ragQuery := ragQuery s;
    ragAnswer := ragAnswer s; ragContexts := ragContexts s;
    loadingRag := loadingRag s; papersJson := papersJson s;
    eventsJson := eventsJson s; policiesJson := policiesJson s;
    calls := calls s |}).

Definition setEdges (f : list edge → list edge) : M state unit :=
  modify (λ s, {|
    nodesMap := nodesMap s; edges := f (edges s);
    embeddingsRef := embeddingsRef s; error := error s;
    loadingIngest := loadingIngest s; selectedNodeId := selectedNodeId s;
    selectedNodeSummary := selectedNodeSummary s; ragQuery := ragQuery s;
    ragAnswer := ragAnswer s; ragContexts := ragContexts s;
    loadingRag := loadingRag s; papersJson := papersJson s;
    eventsJson := eventsJson s; policiesJson := policiesJson s;
    calls := calls s |}).

(** Assignment through [embeddingsRef.current]. *)
Definition setEmbeddings
    (f : list (string * list num) → list (string * list num)) : M state unit :=
  modify (λ s, {|
    nodesMap := nodesMap s; edges := edges s;
    embeddingsRef := f (embeddingsRef s); error := error s;
    loadingIngest := loadingIngest s; selectedNodeId := selectedNodeId s;
    selectedNodeSummary := selectedNodeSummary s; ragQuery := ragQuery s;
    ragAnswer := ragAnswer s; ragContexts := ragContexts s;
    loadingRag := loadingRag s; papersJson := papersJson s;
    eventsJson := eventsJson s; policiesJson := policiesJson s;
    calls := calls s |}).

Definition setError (v : string) : M state unit :=
  modify (λ s, {|
    nodesMap := nodesMap s; edges := edges s;
    embeddingsRef := embeddingsRef s; error := v;
    loadingIngest := loadingIngest s; selectedNodeId := selectedNodeId s;
    selectedNodeSummary := selectedNodeSummary s; ragQuery := ragQuery s;
    ragAnswer := ragAnswer s; ragContexts := ragContexts s;
    loadingRag := loadingRag s; papersJson := papersJson s;
    eventsJson := eventsJson s; policiesJson := policiesJson s;
    calls := calls s |}).

Definition setLoadingIngest (v : bool) : M state unit :=
  modify (λ s, {|
    nodesMap := nodesMap s; edges := edges s;
    embeddingsRef := embeddingsRef s; error := error s;
    loadingIngest := v; selectedNodeId := selectedNodeId s;
    selectedNodeSummary := selectedNodeSummary s; ragQuery := ragQuery s;
    ragAnswer := ragAnswer s; ragContexts := ragContexts s;
    loadingRag := loadingRag s; papersJson := papersJson s;
    eventsJson := eventsJson s; policiesJson := policiesJson s;
    calls := calls s |}).

Definition setSelectedNodeId (v : option string) : M state unit :=
  modify (λ s, {|
    nodesMap := nodesMap s; edges := edges s;
    embeddingsRef := embeddingsRef s; error := error s;
    loadingIngest := loadingIngest s; selectedNodeId := v;
    selectedNodeSummary := selectedNodeSummary s; ragQuery := ragQuery s;
    ragAnswer := ragAnswer s; ragContexts := ragContexts s;
    loadingRag := loadingRag s; papersJson := papersJson s;
    eventsJson := eventsJson s; policiesJson := policiesJson s;
    calls := calls s |}).

Definition setSelectedNodeSummary (v : string) : M state unit :=
  modify (λ s, {|
    nodesMap := nodesMap s; edges := edges s;
    embeddingsRef := embeddingsRef s; error := error s;
    loadingIngest := loadingIngest s; selectedNodeId := selectedNodeId s;
    selectedNodeSummary := v; ragQuery := ragQuery s;
    ragAnswer := ragAnswer s; ragContexts := ragContexts s;
    loadingRag := loadingRag s; papersJson := papersJson s;
    eventsJson := eventsJson s; policiesJson := policiesJson s;
    calls := calls s |}).

Definition setRagAnswer (v : string) : M state unit :=
  modify (λ s, {|
    nodesMap := nodesMap s; edges := edges s;
    embeddingsRef := embeddingsRef s; error := error s;
    loadingIngest := loadingIngest s; selectedNodeId := selectedNodeId s;
    selectedNodeSummary := selectedNodeSummary s; ragQuery := ragQuery s;
    ragAnswer := v; ragContexts := ragContexts s;
    loadingRag := loadingRag s; papersJson := papersJson s;
    eventsJson := eventsJson s; policiesJson := policiesJson s;
    calls := calls s |}).

Definition setRagContexts (v : list obj) : M state unit :=
  modify (λ s, {|
    nodesMap := nodesMap s; edges := edges s;
    embeddingsRef := embeddingsRef s; error := error s;
    loadingIngest := loadingIngest s; selectedNodeId := selectedNodeId s;
    selectedNodeSummary := selectedNodeSummary s; ragQuery := ragQuery s;
    ragAnswer := ragAnswer s; ragContexts := v;
    loadingRag := loadingRag s; papersJson := papersJson s;
    eventsJson := eventsJson s; policiesJson := policiesJson s;
    calls := calls s |}).

Definition setLoadingRag (v : bool) : M state unit :=
  modify (λ s, {|
    nodesMap := nodesMap s; edges := edges s;
    embeddingsRef := embeddingsRef s; error := error s;
    loadingIngest := loadingIngest s; selectedNodeId := selectedNodeId s;
    selectedNodeSummary := selectedNodeSummary s; ragQuery := ragQuery s;
    ragAnswer := ragAnswer s; ragContexts := ragContexts s;
    loadingRag := v; papersJson := papersJson s;
    eventsJson := eventsJson s; policiesJson := policiesJson s;
    calls := calls s |}).

(** A request leaves the component: it is appended to the log. *)
Definition request (c : call) : M state unit :=
  modify (λ s, {|
    nodesMap := nodesMap s; edges := edges s;
    embeddingsRef := embeddingsRef s; error := error s;
    loadingIngest := loadingIngest s; selectedNodeId := selectedNodeId s;
    selectedNodeSummary := selectedNodeSummary s; ragQuery := ragQuery s;
    ragAnswer := ragAnswer s; ragContexts := ragContexts s;
    loadingRag := loadingRag s; papersJson := papersJson s;
    eventsJson := eventsJson s; policiesJson := policiesJson s;
    calls := calls s ++ [c] |}).

(** *** OpenAI helpers (lines 8-55) *)

(** [(text || "").replace(/\n/g, " ").trim() || "empty"] *)
Definition cleanInput (text : string) : string :=
  let t := trim (replace_newlines text) in
  if String.eqb t "" then "empty" else t.

Definition getEmbedding (text : string) : M state (list num) :=
  let clean := cleanInput text in
  request (CallEmbedding clean) ;;
  match fetchEmbedding env clean with
  | inr embedding => mret embedding
  | inl errText => throw ("Embedding error: " +:+ errText)
  end.

Definition gptPlainText (prompt : string) : M state string :=
  request (CallGpt prompt) ;;
  match fetchResponse env prompt with
  | inr output_text => mret (trim output_text)
  | inl errText => throw ("GPT error: " +:+ errText)
  end.

(** *** Graph helpers (lines 157-180) *)

(** [obj[k] = v] on an object whose key order matters. *)
Fixpoint assign {V} (k : string) (v : V) (o : list (string * V))
    : list (string * V) :=
  match o with
  | [] => [(k, v)]
  | (k', v') :: r =>
      if decide (k' = k) then (k, v) :: r else (k', v') :: assign k v r
  end.

(** [{ ...existing, id, ...attrs }]: the later spread wins. *)
Definition merged (existing : obj) (id : string) (attrs : obj) : obj :=
  attrs ∪ <["id" := VStr id]> existing.

Definition addNode (id : string) (attrs : obj) (embedding : option (list num))
    : M state unit :=
  setNodesMap (λ prev,
    let existing := default ∅ (prev !! id) in
    let updated := merged existing id attrs in
    <[id := updated]> prev) ;;
  match embedding with
  | Some emb => setEmbeddings (assign id emb)
  | None => mret tt
  end.

Definition addEdge (source target relation : string) : M state unit :=
  setEdges (λ prev, prev ++ [{| source := source; target := target;
                               relation := relation |}]).

Definition resetGraph : M state unit :=
  setNodesMap (λ _, ∅) ;;
  setEdges (λ _, []) ;;
  setEmbeddings (λ _, []) ;;
  setSelectedNodeId None ;;
  setSelectedNodeSummary "" ;;
  setRagAnswer "" ;;
  setRagContexts [].

(** *** Ingestion (lines 184-304) *)

Definition missing_key_message : string :=
  "VITE_OPENAI_API_KEY is missing. Add it in a .env file at project root.".

(** [JSON.parse(text)] inside its own [try]: a rejected text throws [message]. *)
Definition parse {A} (json : option A) (message : string) : M state A :=
  match json with
  | Some v => mret v
  | None => throw message
  end.

(** [e.severity ?? 0.5] *)
Definition severity_or_default (sev : option num) : num := default c0_5 sev.

(** The text embedded for a paper (line 217). *)
Definition paperText (p : paper) : string :=
  tmpl (paper_title p) +:+ " - " +:+ tmpl (paper_summary p).

(** Body of the loop over the papers (lines 216-229). *)
Definition ingestPaper (p : paper) : M state unit :=
  let text := paperText p in
  emb ← getEmbedding text;
  addNode ("paper:" +:+ tmpl (paper_id p))
    (<["type" := VStr "Paper"]>
     (<["title" := of_field (paper_title p)]>
     (<["summary" := of_field (paper_summary p)]>
     (<["published" := of_field (paper_published p)]> ∅))))
    (Some emb).

(** The text embedded for an event (lines 233-235). *)
Definition eventText (e : event num) : string :=
  tmpl (event_name e) +:+ ". " +:+ tmpl (event_description e) +:+
  ". Region: " +:+ or_else (event_region e) "unknown" +:+
  ". Asset: " +:+ or_else (event_asset_type e) "unknown" +:+ ".".

(** Body of the loop over the events (lines 232-257). *)
Definition ingestEvent (e : event num) : M state unit :=
  let text := eventText e in
  emb ← getEmbedding text;
  let nodeId := "event:" +:+ tmpl (event_external_id e) in
  addNode nodeId
    (<["type" := VStr "Event"]>
     (<["title" := of_field (event_name e)]>
     (<["summary" := of_field (event_description e)]>
     (<["start_time" := of_field (event_start_time e)]>
     (<["end_time" := of_field (event_end_time e)]>
     (<["region" := of_field (event_region e)]>
     (<["asset_type" := of_field (event_asset_type e)]>
     (<["severity" := VNum (severity_or_default (event_severity e))]> ∅))))))))
    (Some emb) ;;
  if truthy (event_region e) then
    let locId := "location:" +:+ tmpl (event_region e) in
    addNode locId
      (<["type" := VStr "Location"]>
       (<["name" := of_field (event_region e)]> ∅)) None ;;
    addEdge nodeId locId "OCCURS_IN"
  else mret tt.

(** The text embedded for a policy (lines 261-263). *)
Definition policyText (p : policy) : string :=
  tmpl (policy_name p) +:+ ". " +:+ tmpl (policy_description p) +:+
  ". Jurisdiction: " +:+ or_else (policy_jurisdiction p) "unknown" +:+ ".".

(** Body of the loop over the policies (lines 260-284). *)
Definition ingestPolicy (p : policy) : M state unit :=
  let text := policyText p in
  emb ← getEmbedding text;
  let nodeId := "policy:" +:+ tmpl (policy_external_id p) in
  addNode nodeId
    (<["type" := VStr "Policy"]>
     (<["title" := of_field (policy_name p)]>
     (<["summary" := of_field (policy_description p)]>
     (<["jurisdiction" := of_field (policy_jurisdiction p)]>
     (<["start_date" := of_field (policy_start_date p)]>
     (<["end_date" := of_field (policy_end_date p)]>
     (<["category" := of_field (policy_category p)]> ∅)))))))
    (Some emb) ;;
  if truthy (policy_jurisdiction p) then
    let locId := "location:" +:+ tmpl (policy_jurisdiction p) in
    addNode locId
      (<["type" := VStr "Location"]>
       (<["name" := of_field (policy_jurisdiction p)]> ∅)) None ;;
    addEdge nodeId locId "APPLIES_TO"
  else mret tt.

(** The keyword test of the last loop (lines 291-293). *)
Definition mentions (p : paper) (e : event num) : bool :=
  let lowerTitle := toLowerCase env (or_else (paper_title p) "") in
  let lowerDesc := toLowerCase env (or_else (event_description e) "") in
  includes "blackout" lowerTitle && includes "outage" lowerDesc.

(** Body of the inner keyword loop (lines 289-296). *)
Definition linkPaperEvent (p : paper) (e : event num) : M state unit :=
  let pid := "paper:" +:+ tmpl (paper_id p) in
  let eid := "event:" +:+ tmpl (event_external_id e) in
  if mentions p e then addEdge pid eid "MENTIONS_EVENT" else mret tt.

(** The last loop (lines 287-297). *)
Definition deriveLinks (papers : list paper) (events : list (event num))
    : M state unit :=
  for_of papers (λ p, for_of events (linkPaperEvent p)).

(** The statements of the [try] block after [resetGraph()] (lines 196-297). *)
Definition ingestSteps : M state unit :=
  papers ← (s ← gets papersJson; parse s "Papers JSON is invalid.");
  events ← (s ← gets eventsJson; parse s "Events JSON is invalid.");
  policies ← (s ← gets policiesJson; parse s "Policies JSON is invalid.");
  for_of papers ingestPaper ;;
  for_of events ingestEvent ;;
  for_of policies ingestPolicy ;;
  deriveLinks papers events.

(** The [try] block (lines 194-297). *)
Definition ingestBody : M state unit := resetGraph ;; ingestSteps.

(** [err.message || "Ingestion failed."] *)
Definition ingestFailure (message : string) : string :=
  if String.eqb message "" then "Ingestion failed." else message.

Definition ingestAll : M state unit :=
  if negb (truthy (OPENAI_API_KEY env)) then setError missing_key_message
  else
    setError "" ;;
    setLoadingIngest true ;;
    try_finally
      (try_catch ingestBody (λ message, setError (ingestFailure message)))
      (setLoadingIngest false).

(** *** Metrics (lines 308-328) *)

(** [if (deg[id] != null) deg[id] += 1] *)
Definition bump (id : string) (deg : gmap string nat) : gmap string nat :=
  match deg !! id with
  | Some d => <[id := S d]> deg
  | None => deg
  end.

(** The table [deg] once the two [forEach] loops have run. *)
Definition degrees (nodesMap : gmap string obj) (edges : list edge)
    : gmap string nat :=
  fold_left (λ deg e, bump (target e) (bump (source e) deg)) edges
            ((λ _, 0%nat) <$> nodesMap).

(** [node.type === "Event"] *)
Definition is_event (node : obj) : bool :=
  match node !! "type" with
  | Some (VStr t) => String.eqb t "Event"
  | _ => false
  end.

(** [node.type === "Event" ? node.severity ?? 0.5 : 0.3], as the number the
    multiplication then reads. *)
Definition baseRisk (node : obj) : num :=
  if is_event node then
    match node !! "severity" with
    | Some (VNum x) => x
    | Some (VStr t) => stringToNumber env t
    | Some VUndef | None => c0_5
    end
  else c0_3.

(** [Math.max(ids.length - 1, 1)] *)
Definition normaliser (nodesMap : gmap string obj) : Z :=
  Z.max (Z.of_nat (size nodesMap) - 1) 1.

Definition metrics (nodesMap : gmap string obj) (edges : list edge)
    : gmap string (metric num) :=
  let deg := degrees nodesMap edges in
  let N := of_Z (normaliser nodesMap) in
  map_imap (λ id node,
    let degreeC := ndiv (of_Z (Z.of_nat (default 0%nat (deg !! id)))) N in
    let risk := nadd (nmul c0_5 (baseRisk node)) (nmul c0_5 degreeC) in
    Some {| degree_centrality := degreeC; risk_score := risk |}) nodesMap.

(** *** RAG QA (lines 425-486) *)

(** The comparator handed to [sort]: [(a, b) => b.score - a.score]. *)
Definition comparator (a b : string * num) : num := nsub b.2 a.2.

(** [Array.prototype.sort] is stable; for a consistent comparator its result
    is the one insertion computes: an element goes behind those the comparator
    puts strictly before it, and ahead of the rest of what followed it.  When
    the comparator is not consistent on the scores (a score that is NaN), the
    language leaves the order to the engine: what is stated about the order
    of the result is stated for consistent comparators only. *)
Fixpoint insert_scored (x : string * num) (l : list (string * num))
    : list (string * num) :=
  match l with
  | [] => [x]
  | y :: r =>
      if negative (comparator y x) then y :: insert_scored x r else x :: l
  end.

Fixpoint sort_scored (l : list (string * num)) : list (string * num) :=
  match l with
  | [] => []
  | x :: r => insert_scored x (sort_scored r)
  end.

(** Lines 429-432: one [{ id, score }] per key, in the order of the keys. *)
Definition scored (qEmb : list num) (current : list (string * list num))
    : list (string * num) :=
  (λ iv, (iv.1, cosineSim qEmb iv.2)) <$> current.

(** Lines 433-435: sort, keep the first [topK]. *)
Definition ranked (qEmb : list num) (current : list (string * list num))
    (topK : nat) : list (string * num) :=
  take topK (sort_scored (scored qEmb current)).

(** Lines 435-439: entries whose node is gone are skipped. *)
Definition resolved (nodesMap : gmap string obj) (top : list (string * num))
    : list obj :=
  omap (λ s, (λ n, <["similarity" := VNum s.2]> n) <$> nodesMap !! s.1) top.

Definition searchGraph (query : string) (topK : nat) : M state (list obj) :=
  ids ← gets (λ s, (embeddingsRef s).*1);
  match ids with
  | [] => mret []
  | _ =>
      qEmb ← getEmbedding query;
      current ← gets embeddingsRef;
      nodes ← gets nodesMap;
      mret (resolved nodes (ranked qEmb current topK))
  end.

(** A property read, [undefined] when absent. *)
Definition prop (o : obj) (k : string) : value num := default VUndef (o !! k).

Definition truthy_value (v : value num) : bool :=
  match v with
  | VUndef => false
  | VStr t => negb (String.eqb t "")
  | VNum x => negb (falsy x)
  end.

(** [a || b] *)
Definition or_value (a b : value num) : value num :=
  if truthy_value a then a else b.

(** A value inside a template literal. *)
Definition to_str (v : value num) : string :=
  match v with
  | VUndef => "undefined"
  | VStr t => t
  | VNum x => numberToString env x
  end.

(** One line of the context block (lines 458-463). *)
Definition contextLine (c : obj) : string :=
  "[" +:+ to_str (prop c "id") +:+ "] type=" +:+ to_str (prop c "type") +:+
  ", title=" +:+ to_str (prop c "title") +:+
  ", time=" +:+
    to_str (or_value (prop c "start_time")
             (or_value (prop c "published")
               (or_value (prop c "start_date") (VStr "")))) +:+
  ", region=" +:+
    to_str (or_value (prop c "region")
             (or_value (prop c "jurisdiction") (VStr ""))) +:+
  ", summary=" +:+ to_str (prop c "summary").

Definition ragPrompt (question : string) (contexts : list obj) : string :=
  "User question:" +:+ nl +:+ question +:+ nl +:+ nl +:+
  "Relevant graph context (nodes and events):" +:+ nl +:+
  join nl (contextLine <$> contexts) +:+ nl +:+ nl +:+
  "Using only this context and your own energy-domain knowledge, do the following: " +:+
  "1. Give a concise answer (3–6 sentences). " +:+
  "2. Describe which nodes are high-risk and why, focusing on outages, cascading risks, and policy gaps. " +:+
  "3. Describe the rough timeline of key events in simple language. " +:+
  "Keep the answer in plain text paragraphs, no bullet points, no markdown.".

(** The statements of the [try] block of [submitRagQuery] (lines 452-479). *)
Definition ragBody (question : string) : M state unit :=
  setLoadingRag true ;;
  setRagAnswer "" ;;
  setRagContexts [] ;;
  contexts ← searchGraph question 8;
  text ← gptPlainText (ragPrompt question contexts);
  setRagAnswer text ;;
  setRagContexts contexts.

Definition submitRagQuery : M state unit :=
  if negb (truthy (OPENAI_API_KEY env)) then setError missing_key_message
  else
    question ← gets ragQuery;
    if String.eqb (trim question) "" then mret tt
    else
      try_finally
        (try_catch (ragBody question)
           (λ _, setRagAnswer "Failed to run RAG over the graph."))
        (setLoadingRag false).

(** The state in which the statements after [resetGraph()] start: error
    cleared, spinner on, graph and selection reset (lines 191-194). *)
Definition prepared (s : state) : state :=
  exec (setError "" ;; setLoadingIngest true ;; resetGraph) s.

(** *** The three loops as one sequence of records

    The records in the order the run reaches them: papers, then events, then
    policies. *)

Inductive record :=
  | RPaper (p : paper)
  | REvent (e : event num)
  | RPolicy (p : policy).

Definition records (papers : list paper) (events : list (event num))
    (policies : list policy) : list record :=
  (RPaper <$> papers) ++ (REvent <$> events) ++ (RPolicy <$> policies).

Definition ingestRecord (r : record) : M state unit :=
  match r with
  | RPaper p => ingestPaper p
  | REvent e => ingestEvent e
  | RPolicy p => ingestPolicy p
  end.

Definition recordText (r : record) : string :=
  match r with
  | RPaper p => paperText p
  | REvent e => eventText e
  | RPolicy p => policyText p
  end.

(** The key under which a record is stored. *)
Definition recordId (r : record) : string :=
  match r with
  | RPaper p => "paper:" +:+ tmpl (paper_id p)
  | REvent e => "event:" +:+ tmpl (event_external_id e)
  | RPolicy p => "policy:" +:+ tmpl (policy_external_id p)
  end.

(** The provider answers the request for this record with a vector. *)
Definition embeds_ok (r : record) : Prop :=
  ∃ embedding, fetchEmbedding env (cleanInput (recordText r)) = inr embedding.

End App.

(** ** Quantities the specification names *)

(** The degree of [id] in the words of the specification: the relationships
    in which [id] is the source, plus those in which it is the target (a
    self-loop is in both counts). *)
Definition degree_spec (id : string) (edges : list edge) : nat :=
  length (filter (λ e, source e = id) edges) +
  length (filter (λ e, target e = id) edges).

(** Sum of the table [deg] over all its keys. *)
Definition total_degree (deg : gmap string nat) : nat :=
  map_fold (λ _ d acc, d + acc) 0 deg.

(** Endpoints of [edges] that are keys of [ids], counted with multiplicity. *)
Definition registered_endpoints {V} (ids : gmap string V) (edges : list edge)
    : nat :=
  length (filter (λ e, is_Some (ids !! source e)) edges) +
  length (filter (λ e, is_Some (ids !! target e)) edges).

(** Every relationship joins two registered entities. *)
Definition endpoints_registered {V} (ids : gmap string V) (edges : list edge)
    : Prop :=
  Forall (λ e, is_Some (ids !! source e) ∧ is_Some (ids !! target e)) edges.

(** Each record of the store carries its own key in its [id] property; this
    holds of the empty store and [addNode] keeps it, as long as the attribute
    object has no [id] of its own (none in the program has). *)
Definition store_wf {num} (nodesMap : gmap string (gmap string (value num)))
    : Prop :=
  ∀ id node, nodesMap !! id = Some node → node !! "id" = Some (VStr id).

(** The comparator puts [a] strictly before [b]. *)
Definition precedes {num} `{Number num} (a b : string * num) : Prop :=
  negative (comparator a b) = true.

(** The comparator is consistent on the entries of [l] (ECMAScript, 23.1.3.30):
    it never puts two entries each strictly before the other, and "not
    strictly after" is transitive. *)
Definition consistent_on {num} `{Number num} (l : list (string * num)) : Prop :=
  (∀ a b, a ∈ l → b ∈ l → precedes a b → ¬ precedes b a) ∧
  (∀ a b c, a ∈ l → b ∈ l → c ∈ l →
            ¬ precedes a b → ¬ precedes b c → ¬ precedes a c).

(** A tie of the comparator: neither entry is strictly before the other. *)
Definition tiedb {num} `{Number num} (a b : string * num) : bool :=
  negb (negative (comparator a b)) && negb (negative (comparator b a)).

(** [consistent_on], decided by going through the pairs and triples. *)
Definition consistentb {num} `{Number num} (l : list (string * num)) : bool :=
  forallb (λ a, forallb (λ b,
    implb (negative (comparator a b)) (negb (negative (comparator b a))) &&
    forallb (λ c,
      implb (negb (negative (comparator a b)) && negb (negative (comparator b c)))
            (negb (negative (comparator a c)))) l) l) l.

(** Non-increasing score, in exact arithmetic. *)
Definition desc (a b : string * R) : Prop := (b.2 <= a.2)%R.

(** ** Relations between states *)

(** Two states that differ at most in the question box, the RAG spinner and
    the request log. *)
Definition same_graph_state {num} (s s' : AppState num) : Prop :=
  nodesMap s = nodesMap s' ∧ edges s = edges s' ∧
  embeddingsRef s = embeddingsRef s' ∧ error s = error s' ∧
  loadingIngest s = loadingIngest s' ∧
  selectedNodeId s = selectedNodeId s' ∧
  selectedNodeSummary s = selectedNodeSummary s' ∧
  ragAnswer s = ragAnswer s' ∧ ragContexts s = ragContexts s' ∧
  papersJson s = papersJson s' ∧ eventsJson s = eventsJson s' ∧
  policiesJson s = policiesJson s'.

(** A computation that cannot tell two such states apart: same outcome, and
    final states that again differ at most in those three fields. *)
Definition respects {num A} (m : M (AppState num) A) : Prop :=
  ∀ s s', same_graph_state s s' →
    (m s).1 = (m s').1 ∧ same_graph_state (m s).2 (m s').2.

(** The three JSON boxes hold the same records. *)
Definition same_inputs {num} (s s' : AppState num) : Prop :=
  papersJson s = papersJson s' ∧ eventsJson s = eventsJson s' ∧
  policiesJson s = policiesJson s'.

(** Every relationship of the state joins two entities of the state. *)
Definition wired {num} (s : AppState num) : Prop :=
  endpoints_registered (nodesMap s) (edges s).

(** No entity of [s] is missing in [s']. *)
Definition keys_grow {num} (s s' : AppState num) : Prop :=
  ∀ k, is_Some (nodesMap s !! k) → is_Some (nodesMap s' !! k).

(** A computation whose final state is always [P]-related to its initial
    state. *)
Definition stable {S A} (P : S → S → Prop) (m : M S A) : Prop :=
  ∀ s, P s (m s).2.

(** ** Scenarios *)

(** Exact arithmetic: an event of severity 0.9 and the location of its
    region. *)
Definition exact_env : Env R := {|
  OPENAI_API_KEY := Some "sk-demo";
  fetchEmbedding := λ _, inr [1%R; 0%R];
  fetchResponse := λ _, inr "ok";
  numberToString := λ _, "";
  stringToNumber := λ _, 0%R;
  toLowerCase := lowerCaseAscii;
|}.

Definition exact_event : gmap string (value R) :=
  <["id" := VStr "event:e1"]>
   (<["type" := VStr "Event"]> (<["severity" := VNum 0.9%R]> ∅)).

Definition exact_location : gmap string (value R) :=
  <["id" := VStr "location:X"]> (<["type" := VStr "Location"]> ∅).

Definition exact_nodes : gmap string (gmap string (value R)) :=
  <["event:e1" := exact_event]> (<["location:X" := exact_location]> ∅).

(** The link of the event to its location. *)
Definition occurs_in : edge :=
  {| source := "event:e1"; target := "location:X"; relation := "OCCURS_IN" |}.

(** A relationship whose target is not an entity of the scenario. *)
Definition dangling : edge :=
  {| source := "event:e1"; target := "location:Y"; relation := "OCCURS_IN" |}.

(** Binary64: a provider that refuses a text mentioning "quota" and tells a
    storm from the rest.  The two conversions between numbers and strings
    are never reached in these scenarios. *)
Definition demo_fetchEmbedding (text : string) : string + list float :=
  if includes "quota" text then inl "quota exceeded"
  else if includes "storm" text then inr [0; 1]%float
  else inr [1; 0]%float.

Definition demo_env : Env float := {|
  OPENAI_API_KEY := Some "sk-demo";
  fetchEmbedding := demo_fetchEmbedding;
  fetchResponse := λ _, inr "An answer.";
  numberToString := λ _, "0";
  stringToNumber := λ _, 0%float;
  toLowerCase := lowerCaseAscii;
|}.


Definition demo_paper : paper := {|
  paper_id := Some "arxiv_demo_1";
  paper_title := Some "Blackout cascades in power grids";
  paper_summary := Some "How disturbances propagate.";
  paper_published := Some "2021-03-15T00:00:00Z";
|}.

(** Severity 0.9. *)
Definition demo_event : event float := {|
  event_external_id := Some "event_demo_1";
  event_name := Some "2021 monsoon storm blackout";
  event_description := Some "Widespread outages in the coastal region.";
  event_start_time := Some "2021-07-12T02:00:00Z";
  event_end_time := Some "2021-07-12T10:00:00Z";
  event_region := Some "X";
  event_asset_type := Some "Transmission";
  event_severity := Some 0x1.ccccccccccccdp-1%float;
|}.

(** An event whose text the provider refuses. *)
Definition demo_event_refused : event float := {|
  event_external_id := Some "event_demo_2";
  event_name := Some "quota test";
  event_description := Some "Outage at a substation.";
  event_start_time := None;
  event_end_time := None;
  event_region := Some "Y";
  event_asset_type := None;
  event_severity := None;
|}.

Definition demo_policy : policy := {|
  policy_external_id := Some "policy_demo_1";
  policy_name := Some "Solar rooftop subsidy phase II";
  policy_description := Some "Capital subsidy for residential rooftop PV.";
  policy_jurisdiction := Some "India";
  policy_start_date := Some "2020-01-01";
  policy_end_date := Some "2025-12-31";
  policy_category := Some "Subsidy";
|}.

(** Binary64: a provider whose vectors are finite but large.  The question
    embeds to [2^511], of norm [2^511]; the stored vector [2^600] has a square
    that overflows, so its norm and its dot product with the question are
    both infinite. *)
Definition overflow_env : Env float := {|
  OPENAI_API_KEY := Some "sk-demo";
  fetchEmbedding := λ _, inr [0x1p511]%float;
  fetchResponse := λ _, inr "An answer.";
  numberToString := λ _, "0";
  stringToNumber := λ _, 0%float;
  toLowerCase := lowerCaseAscii;
|}.

(** The same provider, with a question that embeds to the unit vector. *)
Definition unit_env : Env float := {|
  OPENAI_API_KEY := Some "sk-demo";
  fetchEmbedding := λ _, inr [1]%float;
  fetchResponse := λ _, inr "An answer.";
  numberToString := λ _, "0";
  stringToNumber := λ _, 0%float;
  toLowerCase := lowerCaseAscii;
|}.

Definition overflow_state : AppState float := {|
  nodesMap :=
    {[ "paper:a" := {[ "id" := VStr "paper:a"; "type" := VStr "Paper" ]};
       "paper:b" := {[ "id" := VStr "paper:b"; "type" := VStr "Paper" ]};
       "paper:c" := {[ "id" := VStr "paper:c"; "type" := VStr "Paper" ]} ]};
  edges := [];
  embeddingsRef :=
    [("paper:a", [-1]%float); ("paper:b", [0x1p600]%float);
     ("paper:c", [1]%float)];
  error := ""; loadingIngest := false;
  selectedNodeId := None; selectedNodeSummary := "";
  ragQuery := "any question"; ragAnswer := ""; ragContexts := [];
  loadingRag := false;
  papersJson := None; eventsJson := None; policiesJson := None; calls := [];
|}.

(** The component as mounted, with the given boxes and question. *)
Definition mounted (papers : list paper) (events : list (event float))
    (policies : list policy) (question : string) : AppState float := {|
  nodesMap := ∅; edges := []; embeddingsRef := []; error := "";
  loadingIngest := false; selectedNodeId := None; selectedNodeSummary := "";
  ragQuery := question; ragAnswer := ""; ragContexts := [];
  loadingRag := false;
  papersJson := Some papers; eventsJson := Some events;
  policiesJson := Some policies; calls := [];
|}.

Definition demo_mounted : AppState float :=
  mounted [demo_paper] [demo_event] [demo_policy] "any question".

(** A state with the boxes and question of [demo_mounted] and a graph, a
    selection and an answer from an earlier run on other records. *)
Definition demo_dirty : AppState float := {|
  nodesMap :=
    {[ "event:e1" := {[ "id" := VStr "event:e1"; "type" := VStr "Event" ]};
       "location:X" :=
         {[ "id" := VStr "location:X"; "type" := VStr "Location" ]} ]};
  edges := [occurs_in]; embeddingsRef := [("event:e1", [1; 1]%float)];
  error := ""; loadingIngest := false;
  selectedNodeId := Some "event:e1"; selectedNodeSummary := "A summary.";
  ragQuery := "any question"; ragAnswer := "An old answer.";
  ragContexts := []; loadingRag := false;
  papersJson := Some [demo_paper]; eventsJson := Some [demo_event];
  policiesJson := Some [demo_policy]; calls := [];
|}.

(** The boxes of the fail-fast scenario: the provider refuses the second of
    the two events. *)
Definition demo_refused_mounted : AppState float :=
  mounted [demo_paper] [demo_event; demo_event_refused] [demo_policy]
          "any question".

(** ** What a run of the ingestion builds

    The loops of [ingestAll], read as functions on the graph: what one record
    contributes, and the records a run gets through before a request is
    refused. *)

Section RunModel.
Context {num : Type} `{Number num} (env : Env num).

(** The update [addNode] hands to [setNodesMap] (lines 158-162). *)
Definition upsert (id : string) (attrs : gmap string (value num))
    (prev : gmap string (gmap string (value num)))
    : gmap string (gmap string (value num)) :=
  <[id := merged (default ∅ (prev !! id)) id attrs]> prev.

(** The attribute object of the record's [addNode] call
    (lines 221-226, 240-249, 268-276). *)
Definition recordAttrs (r : record (num:=num)) : gmap string (value num) :=
  match r with
  | RPaper p =>
      <["type" := VStr "Paper"]>
      (<["title" := of_field (paper_title p)]>
      (<["summary" := of_field (paper_summary p)]>
      (<["published" := of_field (paper_published p)]> ∅)))
  | REvent e =>
      <["type" := VStr "Event"]>
      (<["title" := of_field (event_name e)]>
      (<["summary" := of_field (event_description e)]>
      (<["start_time" := of_field (event_start_time e)]>
      (<["end_time" := of_field (event_end_time e)]>
      (<["region" := of_field (event_region e)]>
      (<["asset_type" := of_field (event_asset_type e)]>
      (<["severity" := VNum (severity_or_default (event_severity e))]> ∅)))))))
  | RPolicy p =>
      <["type" := VStr "Policy"]>
      (<["title" := of_field (policy_name p)]>
      (<["summary" := of_field (policy_description p)]>
      (<["jurisdiction" := of_field (policy_jurisdiction p)]>
      (<["start_date" := of_field (policy_start_date p)]>
      (<["end_date" := of_field (policy_end_date p)]>
      (<["category" := of_field (policy_category p)]> ∅))))))
  end.

(** The region of an event, the jurisdiction of a policy. *)
Definition recordPlace (r : record (num:=num)) : field :=
  match r with
  | RPaper _ => None
  | REvent e => event_region e
  | RPolicy p => policy_jurisdiction p
  end.

Definition recordRelation (r : record (num:=num)) : string :=
  match r with
  | RPaper _ => ""
  | REvent _ => "OCCURS_IN"
  | RPolicy _ => "APPLIES_TO"
  end.

Definition locationId (place : field) : string := "location:" +:+ tmpl place.

Definition locationAttrs (place : field) : gmap string (value num) :=
  <["type" := VStr "Location"]> (<["name" := of_field place]> ∅).

(** The link of a record to its location, when it names a place. *)
Definition placeLink (r : record (num:=num)) : option edge :=
  if truthy (recordPlace r) then
    Some {| source := recordId r; target := locationId (recordPlace r);
            relation := recordRelation r |}
  else None.

(** The entities after the record: its own, then that of its place. *)
Definition nodeStep (nodes : gmap string (gmap string (value num)))
    (r : record (num:=num)) : gmap string (gmap string (value num)) :=
  let nodes1 := upsert (recordId r) (recordAttrs r) nodes in
  if truthy (recordPlace r) then
    upsert (locationId (recordPlace r)) (locationAttrs (recordPlace r)) nodes1
  else nodes1.

(** The provider answers the request of the record. *)
Definition answered (r : record (num:=num)) : bool :=
  match fetchEmbedding env (cleanInput (recordText r)) with
  | inr _ => true
  | inl _ => false
  end.

(** The vector it answers with. *)
Definition embeddingOf (r : record (num:=num)) : list num :=
  match fetchEmbedding env (cleanInput (recordText r)) with
  | inr embedding => embedding
  | inl _ => []
  end.

Definition embeddingStep (index : list (string * list num))
    (r : record (num:=num)) : list (string * list num) :=
  assign (recordId r) (embeddingOf r) index.

(** The records a run gets through: those before the first refusal. *)
Fixpoint reached (l : list (record (num:=num))) : list (record (num:=num)) :=
  match l with
  | [] => []
  | r :: rest => if answered r then r :: reached rest else []
  end.

(** The requests of a run: one per record reached, and the refused one. *)
Fixpoint requested (l : list (record (num:=num))) : list call :=
  match l with
  | [] => []
  | r :: rest =>
      CallEmbedding (cleanInput (recordText r)) ::
      (if answered r then requested rest else [])
  end.

(** The outcome of the three loops. *)
Fixpoint loopOutcome (l : list (record (num:=num))) : outcome unit :=
  match l with
  | [] => Return tt
  | r :: rest =>
      match fetchEmbedding env (cleanInput (recordText r)) with
      | inr _ => loopOutcome rest
      | inl errText => Throw ("Embedding error: " +:+ errText)
      end
  end.

(** The links of the keyword loop, in the order of the loop. *)
Definition derivedLinks (papers : list paper) (events : list (event num))
    : list edge :=
  p ← papers; e ← events;
  if mentions env p e then
    [{| source := "paper:" +:+ tmpl (paper_id p);
        target := "event:" +:+ tmpl (event_external_id e);
        relation := "MENTIONS_EVENT" |}]
  else [].

End RunModel.

(** The two states agree on everything but the graph and the request log. *)
Definition same_panels {num} (s s' : AppState num) : Prop :=
  error s = error s' ∧ loadingIngest s = loadingIngest s' ∧
  selectedNodeId s = selectedNodeId s' ∧
  selectedNodeSummary s = selectedNodeSummary s' ∧
  ragQuery s = ragQuery s' ∧ ragAnswer s = ragAnswer s' ∧
  ragContexts s = ragContexts s' ∧ loadingRag s = loadingRag s' ∧
  papersJson s = papersJson s' ∧ eventsJson s = eventsJson s' ∧
  policiesJson s = policiesJson s'.

(** ** Kinds of entities

    The kind an entity key announces: the keys of the program are
    ["paper:..."], ["event:..."], ["policy:..."] and ["location:..."]. *)
Definition kind (id : string) : option string :=
  if String.prefix "paper:" id then Some "Paper"
  else if String.prefix "event:" id then Some "Event"
  else if String.prefix "policy:" id then Some "Policy"
  else if String.prefix "location:" id then Some "Location"
  else None.

(** Every entity carries its key in [id] and, in [type], the kind its key
    announces. *)
Definition typed_store {num} (nodes : gmap string (gmap string (value num)))
    : Prop :=
  ∀ id node, nodes !! id = Some node →
    node !! "id" = Some (VStr id) ∧
    ∃ k, kind id = Some k ∧ node !! "type" = Some (VStr k).

(** The key of a paper, an event or a policy. *)
Definition embeddable (id : string) : Prop :=
  kind id = Some "Paper" ∨ kind id = Some "Event" ∨ kind id = Some "Policy".

(** The embedding table has one entry per key, and every key is that of a
    paper, an event or a policy of the store. *)
Definition index_ok {num} (nodes : gmap string (gmap string (value num)))
    (index : list (string * list num)) : Prop :=
  NoDup index.*1 ∧
  ∀ k, k ∈ index.*1 → is_Some (nodes !! k) ∧ embeddable k.

(** The state [demo_dirty] after the events box has been edited into a text
    that does not parse. *)
Definition demo_rejected_box : AppState float := {|
  nodesMap := nodesMap demo_dirty; edges := edges demo_dirty;
  embeddingsRef := embeddingsRef demo_dirty;
  error := ""; loadingIngest := false;
  selectedNodeId := Some "event:e1"; selectedNodeSummary := "A summary.";
  ragQuery := "any question"; ragAnswer := "An old answer.";
  ragContexts := []; loadingRag := false;
  papersJson := Some [demo_paper]; eventsJson := None;
  policiesJson := Some [demo_policy]; calls := [];
|}.

(** The two states agree on the graph, the boxes, the question and the
    inspector: on everything but the answer panel, the error message and the
    request log. *)
Definition same_but_answer {num} (s s' : AppState num) : Prop :=
  nodesMap s = nodesMap s' ∧ edges s = edges s' ∧
  embeddingsRef s = embeddingsRef s' ∧
  loadingIngest s = loadingIngest s' ∧
  selectedNodeId s = selectedNodeId s' ∧
  selectedNodeSummary s = selectedNodeSummary s' ∧
  ragQuery s = ragQuery s' ∧
  papersJson s = papersJson s' ∧ eventsJson s = eventsJson s' ∧
  policiesJson s = policiesJson s'.

(** A build with a key whose text generation endpoint refuses every
    request. *)
Definition demo_env_no_answer : Env float := {|
  OPENAI_API_KEY := Some "sk-demo";
  fetchEmbedding := demo_fetchEmbedding;
  fetchResponse := λ _, inl "503";
  numberToString := λ _, "0";
  stringToNumber := λ _, 0%float;
  toLowerCase := lowerCaseAscii;
|}.

(** ** Node inspector (App.jsx, lines 91 and 373-421)

    The inspector has a spinner of its own, [loadingSummary]: its handlers
    run on the state of the component together with that hook. *)

Record UiState (num : Type) := {
  appState : AppState num;
  loadingSummary : bool;
}.
Arguments appState {num} u.
Arguments loadingSummary {num} u.

Section Inspector.
Context {num : Type} `{Number num} (env : Env num).

(** A computation on the state of the component, run inside the wider one. *)
Definition on_app {A} (m : M (AppState num) A) : M (UiState num) A := λ u,
  let '(r, s') := m (appState u) in
  (r, {| appState := s'; loadingSummary := loadingSummary u |}).

Definition setLoadingSummary (v : bool) : M (UiState num) unit :=
  modify (λ u, {| appState := appState u; loadingSummary := v |}).

(** [a ?? b] *)
Definition nullish_or (a b : value num) : value num :=
  match a with
  | VUndef => b
  | _ => a
  end.

(** Lines 383-387: the other end of every relationship that touches
    [nodeId], for the ends that are entities of the store. *)
Definition neighbours (nodes : gmap string (gmap string (value num)))
    (es : list edge) (nodeId : string) : list (gmap string (value num)) :=
  omap (λ id, nodes !! id)
    ((λ e, if decide (source e = nodeId) then target e else source e) <$>
     filter (λ e, source e = nodeId ∨ target e = nodeId) es).

(** One line of the neighbour block (lines 390-395). *)
Definition neighbourLine (n : gmap string (value num)) : string :=
  "id=" +:+ to_str env (prop n "id") +:+
  ", type=" +:+ to_str env (prop n "type") +:+
  ", title=" +:+ to_str env (or_value (prop n "title") (prop n "name")) +:+
  ", summary=" +:+ to_str env (prop n "summary").

Definition summaryPrompt (node : gmap string (value num))
    (near : list (gmap string (value num))) : string :=
  "Summarize this energy knowledge graph node for an analyst." +:+ nl +:+ nl +:+
  "Node id: " +:+ to_str env (prop node "id") +:+ nl +:+
  "Type: " +:+ to_str env (prop node "type") +:+ nl +:+
  "Title: " +:+
    to_str env (or_value (prop node "title") (prop node "name")) +:+ nl +:+
  "Summary: " +:+ to_str env (prop node "summary") +:+ nl +:+
  "Region/jurisdiction: " +:+
    to_str env (or_value (prop node "region")
                  (or_value (prop node "jurisdiction") (VStr ""))) +:+ nl +:+
  "Severity (if event): " +:+
    to_str env (nullish_or (prop node "severity") (VStr "")) +:+ nl +:+ nl +:+
  "Neighbouring nodes:" +:+ nl +:+
  join nl (neighbourLine <$> near) +:+
  nl +:+ nl +:+
  "Explain in plain text: 1) what this node represents, 2) why it might be important or high-risk, " +:+
  "3) how it connects to surrounding events or policies. Keep it short, 2–3 paragraphs, no markdown.".

Definition summaryFailure : string := "Failed to generate node summary.".

Definition fetchNodeSummary (nodeId : string) : M (UiState num) unit :=
  nodes ← gets (λ u, nodesMap (appState u));
  match nodes !! nodeId with
  | None => mret tt
  | Some node =>
      es ← gets (λ u, edges (appState u));
      let prompt := summaryPrompt node (neighbours nodes es nodeId) in
      try_finally
        (try_catch
           (setLoadingSummary true ;;
            text ← on_app (gptPlainText env prompt);
            on_app (setSelectedNodeSummary text))
           (λ _, on_app (setSelectedNodeSummary summaryFailure)))
        (setLoadingSummary false)
  end.

(** [node] is the [id] of the object the canvas hands over, [None] for a
    click that hits no node. *)
Definition handleNodeClick (node : option string) : M (UiState num) unit :=
  match node with
  | None => mret tt
  | Some id =>
      on_app (setSelectedNodeId (Some id)) ;;
      on_app (setSelectedNodeSummary "") ;;
      fetchNodeSummary id
  end.

End Inspector.

(** The two states agree on everything but the inspector (selection and
    summary) and the request log. *)
Definition same_but_inspector {num} (s s' : AppState num) : Prop :=
  nodesMap s = nodesMap s' ∧ edges s = edges s' ∧
  embeddingsRef s = embeddingsRef s' ∧ error s = error s' ∧
  loadingIngest s = loadingIngest s' ∧
  ragQuery s = ragQuery s' ∧ ragAnswer s = ragAnswer s' ∧
  ragContexts s = ragContexts s' ∧ loadingRag s = loadingRag s' ∧
  papersJson s = papersJson s' ∧ eventsJson s = eventsJson s' ∧
  policiesJson s = policiesJson s'.

(** ** Graph data (App.jsx, lines 354-369) *)

(** A node as the force graph receives it. *)
Record graphNode (num : Type) := {
  gn_id : value num;
  gn_type : value num;
  gn_title : value num;
  gn_region : value num;
  gn_severity : value num;
  gn_risk : value num;
  gn_raw : gmap string (value num);
}.
Arguments gn_id {num} g.
Arguments gn_type {num} g.
Arguments gn_title {num} g.
Arguments gn_region {num} g.
Arguments gn_severity {num} g.
Arguments gn_risk {num} g.
Arguments gn_raw {num} g.

Section GraphData.
Context {num : Type} `{Number num} (env : Env num).

(** The callback of [Object.values(nodesMap).map] (lines 355-367);
    [metrics[n.id]] reads the table at the string of [n.id]. *)
Definition toGraphNode (metrics : gmap string (metric num))
    (n : gmap string (value num)) : graphNode num :=
  let metric := metrics !! to_str env (prop n "id") in
  let risk :=
    match metric with
    | Some m => VNum (risk_score m)
    | None => nullish_or (prop n "severity") (VNum c0_3)
    end in
  {| gn_id := prop n "id";
     gn_type := prop n "type";
     gn_title := or_value (prop n "title") (or_value (prop n "name") (prop n "id"));
     gn_region :=
       or_value (prop n "region") (or_value (prop n "jurisdiction") (VStr ""));
     gn_severity := prop n "severity";
     gn_risk := risk;
     gn_raw := n |}.

End GraphData.

(** * Properties *)

(** ** Vector math *)

Section VectorMathFacts.
Context {num : Type} `{Number num}.

Lemma sum_squares_zeros (n : nat) :
  fold_left (λ s x, nadd s (nmul x x)) (replicate n nzero) nzero = nzero.
Proof.
  induction n as [|n IH]; simpl; [done|].
  by rewrite nmul_nzero, nadd_nzero.
Qed.

(** The zero vector has norm 0 in both arithmetics. *)
Lemma norm_zero_vector (n : nat) : norm (replicate n nzero) = nzero.
Proof. unfold norm. rewrite sum_squares_zeros. apply nsqrt_nzero. Qed.

Lemma cosineSim_norm_zero (a b : list num) :
  norm a = nzero ∨ norm b = nzero → cosineSim a b = nzero.
Proof.
  intros Hz. unfold cosineSim.
  destruct Hz as [-> | ->]; rewrite falsy_nzero; [done|].
  by rewrite orb_true_r.
Qed.

End VectorMathFacts.

(** In exact arithmetic the sum of squares grows with the accumulator. *)
Lemma sum_squares_acc (v : list R) (acc : R) :
  fold_left (λ s x, s + x * x)%R v acc
  = (acc + fold_left (λ s x, s + x * x) v 0)%R.
Proof.
  revert acc. induction v as [|x v IH]; intros acc; simpl; [lra|].
  rewrite IH, (IH (0 + x * x)%R). lra.
Qed.

Lemma sum_squares_nonneg (v : list R) :
  (0 <= fold_left (λ s x, s + x * x) v 0)%R.
Proof.
  induction v as [|x v IH]; simpl; [lra|].
  rewrite sum_squares_acc. pose proof (Rle_0_sqr x) as Hx.
  unfold Rsqr in Hx. lra.
Qed.

Lemma sum_squares_pos (v : list R) :
  Exists (λ x, x ≠ 0%R) v → (0 < fold_left (λ s x, s + x * x) v 0)%R.
Proof.
  induction 1 as [x v Hx | x v _ IH]; simpl; rewrite sum_squares_acc.
  - pose proof (sum_squares_nonneg v). pose proof (Rsqr_pos_lt x Hx) as Hp.
    unfold Rsqr in Hp. lra.
  - pose proof (Rle_0_sqr x) as Hx. unfold Rsqr in Hx. lra.
Qed.

Lemma dot_self_acc (v : list R) (acc : R) :
  fold_left (λ s p, s + p.1 * p.2)%R (zip v v) acc
  = fold_left (λ s x, s + x * x)%R v acc.
Proof. revert acc. induction v as [|x v IH]; intros acc; simpl; [done|apply IH]. Qed.

Lemma cosineSim_self_exact (v : list R) :
  Exists (λ x, x ≠ 0%R) v → cosineSim v v = 1%R.
Proof.
  intros Hv. pose proof (sum_squares_pos v Hv) as Hpos.
  unfold cosineSim, norm, dot; simpl.
  rewrite dot_self_acc.
  set (s := fold_left _ v 0%R) in *.
  pose proof (sqrt_lt_R0 s Hpos) as Hsq.
  rewrite bool_decide_eq_false_2 by lra. simpl.
  rewrite sqrt_sqrt by lra. field. lra.
Qed.

(** C9 (as amended).  With exact arithmetic, [cosineSim v v] is 1 for every
    vector that has a nonzero entry.  With either arithmetic (exact or
    binary64), [cosineSim] is exactly 0 as soon as one of the two norms, as
    [norm] computes them, is 0, and the zero vector of any length is such an
    argument. *)
Theorem cosineSim_spec :
  (∀ v : list R, Exists (λ x, x ≠ 0%R) v → cosineSim v v = 1%R) ∧
  (∀ (num : Type) (N : Number num) (a b : list num),
      norm a = nzero ∨ norm b = nzero → cosineSim a b = nzero) ∧
  (∀ (num : Type) (N : Number num) (n : nat) (b : list num),
      norm (replicate n nzero) = nzero ∧
      cosineSim (replicate n nzero) b = nzero ∧
      cosineSim b (replicate n nzero) = nzero).
Proof.
  split; [exact cosineSim_self_exact|].
  split; [intros; by apply cosineSim_norm_zero|].
  intros num N n b. pose proof (norm_zero_vector (num:=num) n) as Hn.
  split; [done|]. split; apply cosineSim_norm_zero; auto.
Qed.

(** C9 on concrete vectors: [3;4] against itself over the reals, and the zero
    vector against [1;2] in binary64. *)
Lemma cosineSim_spec_witness :
  cosineSim [3; 4]%R [3; 4]%R = 1%R ∧
  cosineSim [0; 0]%float [1; 2]%float = 0%float.
Proof.
  split.
  - apply (proj1 cosineSim_spec). apply Exists_cons_hd. lra.
  - apply (proj1 (proj2 cosineSim_spec) float Binary64). left. reflexivity.
Defined.

(** C9 as stated fails in the arithmetic of the engine, in three ways.  For
    [v = [1, 1]] the product of the two norms is 2.0000000000000004 and the
    quotient is 0.99999999999999978.  For [v = [2^-600]] the square
    underflows to 0, the norm is 0 and the result is exactly 0.  For
    [v = [2^600]] the square overflows, the norm and the dot product are
    infinite and the result is NaN. *)
Lemma cosineSim_self_binary64_not_one :
  cosineSim [1; 1]%float [1; 1]%float = 0x1.ffffffffffffep-1%float ∧
  cosineSim [1; 1]%float [1; 1]%float ≠ 1%float ∧
  cosineSim [0x1p-600]%float [0x1p-600]%float = 0%float ∧
  cosineSim [0x1p600]%float [0x1p600]%float = nan.
Proof.
  split; [reflexivity|]. split; [vm_compute; discriminate|].
  split; reflexivity.
Qed.

(** ** Metrics *)

Section DegreeFacts.

Lemma bump_lookup (id j : string) (deg : gmap string nat) :
  bump id deg !! j
  = (if decide (id = j) then S <$> deg !! j else deg !! j).
Proof.
  unfold bump. destruct (deg !! id) as [d|] eqn:Hd.
  - destruct (decide (id = j)) as [->|Hne].
    + by rewrite lookup_insert_eq, Hd.
    + by rewrite lookup_insert_ne.
  - destruct (decide (id = j)) as [<-|Hne]; [by rewrite Hd | done].
Qed.

Lemma bump_total_Some (id : string) (deg : gmap string nat) :
  is_Some (deg !! id) → total_degree (bump id deg) = S (total_degree deg).
Proof.
  intros [d Hd]. unfold bump, total_degree. rewrite Hd.
  rewrite (map_fold_delete_L _ _ id d deg); [|intros; lia|done].
  rewrite <-insert_delete_eq.
  rewrite map_fold_insert_L; [lia|intros; lia|apply lookup_delete_eq].
Qed.

Lemma bump_total_None (id : string) (deg : gmap string nat) :
  deg !! id = None → total_degree (bump id deg) = total_degree deg.
Proof. intros Hd. unfold bump. by rewrite Hd. Qed.

Lemma bump_is_Some (id j : string) (deg : gmap string nat) :
  is_Some (bump id deg !! j) ↔ is_Some (deg !! j).
Proof.
  rewrite bump_lookup. destruct (decide (id = j)); [|done].
  by rewrite fmap_is_Some.
Qed.

(** One pass of the loop over the relationships, from any table. *)
Lemma degrees_loop_lookup (edges : list edge) (deg : gmap string nat) (id : string) :
  fold_left (λ deg e, bump (target e) (bump (source e) deg)) edges deg !! id
  = (λ d, d + degree_spec id edges) <$> deg !! id.
Proof.
  revert deg. induction edges as [|e edges IH]; intros deg; simpl.
  - destruct (deg !! id); simpl; [f_equal; unfold degree_spec; simpl; lia|done].
  - rewrite IH, !bump_lookup. unfold degree_spec. rewrite !filter_cons.
    destruct (decide (source e = id)), (decide (target e = id));
      destruct (deg !! id); simpl; try done; f_equal; lia.
Qed.

Lemma degrees_loop_total (edges : list edge) (deg : gmap string nat) :
  total_degree
    (fold_left (λ deg e, bump (target e) (bump (source e) deg)) edges deg)
  = total_degree deg + registered_endpoints deg edges.
Proof.
  revert deg. induction edges as [|e edges IH]; intros deg; simpl.
  - unfold registered_endpoints. simpl. lia.
  - rewrite IH. unfold registered_endpoints. rewrite !filter_cons.
    assert (Hsame : ∀ (P : edge → string),
      filter (λ e0, is_Some (bump (target e) (bump (source e) deg) !! P e0)) edges
      = filter (λ e0, is_Some (deg !! P e0)) edges).
    { intros P. apply list_filter_iff. intros x. by rewrite !bump_is_Some. }
    rewrite (Hsame source), (Hsame target).
    destruct (decide (is_Some (deg !! source e))) as [Hs|Hs];
      destruct (decide (is_Some (deg !! target e))) as [Ht|Ht]; simpl.
    + rewrite !bump_total_Some by (by rewrite ?bump_is_Some). lia.
    + rewrite bump_total_None, bump_total_Some; [lia|done|].
      apply eq_None_not_Some. by rewrite bump_is_Some.
    + rewrite bump_total_Some, bump_total_None; [lia| |].
      * by apply eq_None_not_Some.
      * by rewrite bump_is_Some.
    + rewrite !bump_total_None; [lia| |].
      * by apply eq_None_not_Some.
      * apply eq_None_not_Some. by rewrite bump_is_Some.
Qed.

Lemma total_degree_zeros {V} (m : gmap string V) :
  total_degree ((λ _, 0) <$> m) = 0.
Proof.
  unfold total_degree. rewrite map_fold_fmap.
  induction m as [|i x m Hi IH] using map_ind; [done|].
  rewrite map_fold_insert_L; [done|intros; simpl; lia|done].
Qed.

Lemma registered_endpoints_le {V} (ids : gmap string V) (edges : list edge) :
  registered_endpoints ids edges ≤ 2 * length edges.
Proof.
  unfold registered_endpoints.
  pose proof (length_filter (λ e, is_Some (ids !! source e)) edges).
  pose proof (length_filter (λ e, is_Some (ids !! target e)) edges). lia.
Qed.

Lemma registered_endpoints_all {V} (ids : gmap string V) (edges : list edge) :
  endpoints_registered ids edges →
  registered_endpoints ids edges = 2 * length edges.
Proof.
  unfold endpoints_registered, registered_endpoints.
  induction 1 as [|e edges [Hs Ht] _ IH]; [done|].
  rewrite !filter_cons. rewrite !decide_True by done. simpl in *. lia.
Qed.

Lemma registered_endpoints_fmap {V W} (f : V → W) (ids : gmap string V)
    (edges : list edge) :
  registered_endpoints (f <$> ids) edges = registered_endpoints ids edges.
Proof.
  unfold registered_endpoints. f_equal; f_equal; apply list_filter_iff;
    intros e; by rewrite lookup_fmap, fmap_is_Some.
Qed.

End DegreeFacts.

Section MetricsFacts.
Context {num : Type} `{Number num} (env : Env num).
Implicit Types (nodesMap : gmap string (gmap string (value num))).
Implicit Types (edges : list edge).

Lemma degrees_lookup nodesMap edges (id : string) :
  degrees nodesMap edges !! id
  = (λ _, degree_spec id edges) <$> nodesMap !! id.
Proof.
  unfold degrees. rewrite degrees_loop_lookup, lookup_fmap.
  by destruct (nodesMap !! id).
Qed.

Lemma degrees_total nodesMap edges :
  total_degree (degrees nodesMap edges) = registered_endpoints nodesMap edges.
Proof.
  unfold degrees.
  by rewrite degrees_loop_total, total_degree_zeros, registered_endpoints_fmap.
Qed.

Lemma normaliser_ge_1 nodesMap : (1 ≤ normaliser nodesMap)%Z.
Proof. unfold normaliser. lia. Qed.

Lemma metrics_lookup nodesMap edges (id : string) :
  metrics env nodesMap edges !! id
  = (λ node,
       let degreeC :=
         ndiv (of_Z (Z.of_nat (degree_spec id edges)))
              (of_Z (normaliser nodesMap)) in
       {| degree_centrality := degreeC;
          risk_score :=
            nadd (nmul c0_5 (baseRisk env node)) (nmul c0_5 degreeC) |})
    <$> nodesMap !! id.
Proof.
  unfold metrics. rewrite map_lookup_imap.
  destruct (nodesMap !! id) as [node|] eqn:Hnode; [|done]. simpl.
  by rewrite degrees_lookup, Hnode.
Qed.

End MetricsFacts.

(** C7.  In both arithmetics: for an entity [id] of the store, the table
    [deg] holds the number of relationships with [id] as source plus the
    number with [id] as target (one more self-loop adds 2), and the
    centrality is that degree divided by [max(N - 1, 1)], an integer that is
    at least 1.  In exact arithmetic the divisor is therefore not 0. *)
Theorem degree_centrality_spec :
  (∀ (num : Type) (N : Number num) (env : Env num)
     (nodesMap : gmap string (gmap string (value num))) (edges : list edge)
     (id : string) (node : gmap string (value num)),
     nodesMap !! id = Some node →
     degrees nodesMap edges !! id = Some (degree_spec id edges) ∧
     (∀ r, degrees nodesMap
             (edges ++ [{| source := id; target := id; relation := r |}]) !! id
           = Some (degree_spec id edges + 2)) ∧
     degree_centrality <$> metrics env nodesMap edges !! id
     = Some (ndiv (of_Z (Z.of_nat (degree_spec id edges)))
                  (of_Z (Z.max (Z.of_nat (size nodesMap) - 1) 1))) ∧
     (1 ≤ Z.max (Z.of_nat (size nodesMap) - 1) 1)%Z) ∧
  (∀ nodesMap : gmap string (gmap string (value R)),
     of_Z (Z.max (Z.of_nat (size nodesMap) - 1) 1) ≠ 0%R).
Proof.
  split.
  - intros num N env nodesMap edges id node Hnode. split; [|split; [|split]].
    + by rewrite degrees_lookup, Hnode.
    + intros r. rewrite degrees_lookup, Hnode. simpl. f_equal.
      unfold degree_spec. rewrite !filter_app, !length_app, !filter_cons.
      simpl. rewrite !decide_True by done. simpl. lia.
    + by rewrite metrics_lookup, Hnode.
    + lia.
  - intros nodesMap. simpl. apply not_0_IZR. lia.
Qed.

(** C7 on the scenario with the link listed twice: degree 2, centrality
    2/1. *)
Lemma degree_centrality_spec_witness :
  degrees exact_nodes [occurs_in; occurs_in] !! "event:e1" = Some 2%nat ∧
  degree_centrality
    <$> metrics exact_env exact_nodes [occurs_in; occurs_in] !! "event:e1"
  = Some (2 / 1)%R.
Proof.
  destruct (proj1 degree_centrality_spec R Exact exact_env exact_nodes
              [occurs_in; occurs_in] "event:e1" exact_event eq_refl)
    as (Hdeg & _ & Hcen & _).
  split; [exact Hdeg | exact Hcen].
Defined.






(** ** The graph store *)

Section GraphFacts.
Context {num : Type} `{Number num} (env : Env num).
Implicit Types (s : AppState num) (attrs node : gmap string (value num)).

Lemma addNode_run (id : string) attrs (embedding : option (list num)) s :
  ∃ s', addNode id attrs embedding s = (Return tt, s') ∧
    nodesMap s'
    = <[id := merged (default ∅ (nodesMap s !! id)) id attrs]> (nodesMap s) ∧
    edges s' = edges s ∧
    embeddingsRef s'
    = match embedding with
      | Some emb => assign id emb (embeddingsRef s)
      | None => embeddingsRef s
      end ∧
    calls s' = calls s.
Proof. destruct embedding; eexists; (split; [reflexivity|]); simpl; auto. Qed.

Lemma merged_lookup_attr (existing : gmap string (value num)) id attrs f v :
  attrs !! f = Some v → merged existing id attrs !! f = Some v.
Proof. intros Hf. unfold merged. by apply lookup_union_Some_l. Qed.

Lemma merged_lookup_other (existing : gmap string (value num)) id attrs f :
  attrs !! f = None →
  merged existing id attrs !! f = <["id" := VStr id]> existing !! f.
Proof. intros Hf. unfold merged. by rewrite lookup_union_r. Qed.

Lemma store_wf_empty : store_wf (num:=num) ∅.
Proof. intros id node Hl. by rewrite lookup_empty in Hl. Qed.

Lemma store_wf_addNode (id : string) attrs embedding s :
  attrs !! "id" = None →
  store_wf (nodesMap s) → store_wf (nodesMap (exec (addNode id attrs embedding) s)).
Proof.
  intros Hid Hwf. destruct (addNode_run id attrs embedding s) as (s' & Hrun & Hn & _).
  unfold exec. rewrite Hrun. simpl. rewrite Hn. intros j node.
  destruct (decide (id = j)) as [<-|Hne].
  - rewrite lookup_insert_eq. intros [= <-].
    by rewrite merged_lookup_other, lookup_insert_eq.
  - rewrite lookup_insert_ne by done. apply Hwf.
Qed.

(** C8 (as amended).  [addNode] returns normally and leaves one record under
    [id]: the previous record of [id] (the empty one if there was none)
    overwritten by [attrs], property by property.  Every property of [attrs]
    is in the record with its new value; every property other than [id] that
    [attrs] does not have keeps its old value; the property [id], when
    [attrs] does not have it, is written with the key, which is its old
    value in every well-formed store; all other records, and the
    relationships, are untouched, and the store has one entity more exactly
    when [id] was not in it. *)
Theorem addNode_merges (id : string) attrs (embedding : option (list num)) s :
  let s' := exec (addNode id attrs embedding) s in
  let existing := default ∅ (nodesMap s !! id) in
  addNode id attrs embedding s = (Return tt, s') ∧
  ∃ updated,
    nodesMap s' !! id = Some updated ∧
    (∀ f v, attrs !! f = Some v → updated !! f = Some v) ∧
    (∀ f, attrs !! f = None → f ≠ "id" → updated !! f = existing !! f) ∧
    (attrs !! "id" = None → updated !! "id" = Some (VStr id)) ∧
    (store_wf (nodesMap s) → is_Some (nodesMap s !! id) →
     ∀ f, attrs !! f = None → updated !! f = existing !! f) ∧
    (∀ j, j ≠ id → nodesMap s' !! j = nodesMap s !! j) ∧
    dom (nodesMap s') = {[id]} ∪ dom (nodesMap s) ∧
    size (nodesMap s')
    = match nodesMap s !! id with
      | Some _ => size (nodesMap s)
      | None => S (size (nodesMap s))
      end ∧
    edges s' = edges s.
Proof.
  intros s' existing.
  destruct (addNode_run id attrs embedding s) as (s1 & Hrun & Hn & He & _).
  assert (s' = s1) as -> by (unfold s', exec; by rewrite Hrun).
  split; [done|]. exists (merged existing id attrs).
  rewrite Hn. split; [apply lookup_insert_eq|].
  split; [intros f v; apply merged_lookup_attr|].
  split.
  { intros f Hf Hne. rewrite merged_lookup_other by done.
    by rewrite lookup_insert_ne. }
  split.
  { intros Hf. by rewrite merged_lookup_other, lookup_insert_eq. }
  split.
  { intros Hwf [node Hnode] f Hf. rewrite merged_lookup_other by done.
    destruct (decide (f = "id")) as [->|Hne]; [|by rewrite lookup_insert_ne].
    rewrite lookup_insert_eq. unfold existing. rewrite Hnode. simpl.
    symmetry. by apply Hwf. }
  split; [intros j Hj; by rewrite lookup_insert_ne|].
  split; [apply dom_insert_L|].
  split; [|done].
  rewrite map_size_insert. by destruct (nodesMap s !! id).
Qed.

End GraphFacts.

(** C8 as stated fails for the property [id].  An upsert whose attribute
    object carries an [id] of its own leaves that value in the record; the
    next upsert under the same key, whose attribute object has no [id],
    replaces it by the key, although [id] was set before and is not in the
    new attribute object.  The other property of the record is kept. *)
Lemma addNode_rewrites_id :
  let first : gmap string (value float) :=
    {[ "id" := VStr "other"; "title" := VStr "A title" ]} in
  let second : gmap string (value float) := {[ "type" := VStr "Paper" ]} in
  let s1 := exec (addNode "k" first None) (mounted [] [] [] "") in
  let s2 := exec (addNode "k" second None) s1 in
  second !! "id" = None ∧
  (∃ n1, nodesMap s1 !! "k" = Some n1 ∧ n1 !! "id" = Some (VStr "other")) ∧
  (∃ n2, nodesMap s2 !! "k" = Some n2 ∧ n2 !! "id" = Some (VStr "k") ∧
         n2 !! "title" = Some (VStr "A title")).
Proof.
  intros first second s1 s2. split; [reflexivity|].
  split; eexists; (split; [reflexivity|]); [reflexivity|].
  split; reflexivity.
Qed.

(** ** Embedding search *)

Section SortFacts.
Context {num : Type} `{Number num}.
Implicit Types (x : string * num) (l : list (string * num)).

Lemma insert_scored_Permutation x l : insert_scored x l ≡ₚ x :: l.
Proof.
  induction l as [|y l IH]; simpl; [done|].
  destruct (negative (comparator y x)); [|done].
  rewrite IH. apply Permutation_swap.
Qed.

Lemma sort_scored_Permutation l : sort_scored l ≡ₚ l.
Proof.
  induction l as [|x l IH]; simpl; [done|].
  by rewrite insert_scored_Permutation, IH.
Qed.

Lemma sort_scored_length l : length (sort_scored l) = length l.
Proof. apply Permutation_length, sort_scored_Permutation. Qed.

Lemma ranked_length (qEmb : list num) (current : list (string * list num))
    (topK : nat) :
  length (ranked qEmb current topK) = topK `min` length current.
Proof.
  unfold ranked, scored.
  by rewrite length_take, sort_scored_length, length_fmap.
Qed.

Lemma ranked_elem_of (qEmb : list num) (current : list (string * list num))
    (topK : nat) x :
  x ∈ ranked qEmb current topK →
  ∃ v, (x.1, v) ∈ current ∧ x.2 = cosineSim qEmb v.
Proof.
  unfold ranked, scored. intros Hx.
  apply (subseteq_take topK) in Hx.
  rewrite sort_scored_Permutation in Hx.
  apply list_elem_of_fmap in Hx as ([id v] & -> & Hin). eauto.
Qed.

Lemma resolved_length (nodesMap : gmap string (gmap string (value num)))
    (top : list (string * num)) :
  length (resolved nodesMap top) ≤ length top.
Proof.
  unfold resolved. induction top as [|t top IH]; [done|].
  change (t :: top) with ([t] ++ top). rewrite omap_app, !length_app.
  simpl. destruct (nodesMap !! t.1); simpl; lia.
Qed.

End SortFacts.

(** [assign] keeps the keys in the order of their first insertion. *)
Lemma assign_keys {V} (k : string) (v : V) (o : list (string * V)) :
  (assign k v o).*1 = if decide (k ∈ o.*1) then o.*1 else o.*1 ++ [k].
Proof.
  induction o as [|[k' v'] o IH].
  - destruct (decide (k ∈ ([] : list (string * V)).*1)) as [Hin|_]; [|done].
    by apply not_elem_of_nil in Hin.
  - cbn [assign]. destruct (decide (k' = k)) as [->|Hne].
    + destruct (decide (k ∈ ((k, v') :: o).*1)) as [_|Hnin]; [done|].
      exfalso. apply Hnin. cbn. apply list_elem_of_here.
    + cbn [fmap list_fmap fst]. rewrite IH.
      destruct (decide (k ∈ o.*1)) as [Hin|Hnin];
        destruct (decide (k ∈ k' :: o.*1)) as [Hin'|Hnin']; try done.
      * exfalso. apply Hnin'. by apply list_elem_of_further.
      * apply elem_of_cons in Hin' as [->|Hin']; done.
Qed.

(** *** The sort, for any consistent comparator *)

Section ConsistentSort.
Context {num : Type} `{Number num}.
Implicit Types (x : string * num) (l : list (string * num)).

Lemma consistent_on_tail x l : consistent_on (x :: l) → consistent_on l.
Proof.
  intros [Hasym Htrans]. split.
  - intros a b Ha Hb. apply Hasym; by apply list_elem_of_further.
  - intros a b c Ha Hb Hc. apply Htrans; by apply list_elem_of_further.
Qed.

Lemma consistent_on_Permutation l l' :
  l ≡ₚ l' → consistent_on l → consistent_on l'.
Proof.
  intros Hp [Hasym Htrans]. split.
  - intros a b Ha Hb. apply Hasym; by rewrite Hp.
  - intros a b c Ha Hb Hc. apply Htrans; by rewrite Hp.
Qed.

Lemma insert_scored_sorted_consistent x l :
  consistent_on (x :: l) →
  StronglySorted (λ a b, ¬ precedes b a) l →
  StronglySorted (λ a b, ¬ precedes b a) (insert_scored x l).
Proof.
  intros Hcons Hl. induction Hl as [|y l Hl IH Hy]; cbn [insert_scored].
  - repeat constructor.
  - destruct Hcons as [Hasym Htrans].
    assert (Hx : x ∈ x :: y :: l) by apply list_elem_of_here.
    assert (Hyin : y ∈ x :: y :: l)
      by apply list_elem_of_further, list_elem_of_here.
    destruct (negative (comparator y x)) eqn:Hc.
    + constructor.
      * apply IH. split.
        -- intros a b Ha Hb. apply Hasym.
           ++ apply elem_of_cons in Ha as [->|Ha]; [done|].
              by do 2 apply list_elem_of_further.
           ++ apply elem_of_cons in Hb as [->|Hb]; [done|].
              by do 2 apply list_elem_of_further.
        -- intros a b c Ha Hb Hc'. apply Htrans.
           ++ apply elem_of_cons in Ha as [->|Ha]; [done|].
              by do 2 apply list_elem_of_further.
           ++ apply elem_of_cons in Hb as [->|Hb]; [done|].
              by do 2 apply list_elem_of_further.
           ++ apply elem_of_cons in Hc' as [->|Hc']; [done|].
              by do 2 apply list_elem_of_further.
      * rewrite insert_scored_Permutation. constructor; [|done].
        by apply Hasym.
    + constructor; [by constructor|].
      assert (Hyx : ¬ precedes y x) by (unfold precedes; by rewrite Hc).
      constructor; [done|].
      apply Forall_forall. intros z Hz.
      apply (Htrans z y x); [by do 2 apply list_elem_of_further|done|done| |done].
      by eapply Forall_forall in Hy.
Qed.

(** Whenever the comparator is consistent on the scored entries, no entry of
    the sorted list is strictly before an earlier one. *)
Lemma sort_scored_sorted_consistent l :
  consistent_on l → StronglySorted (λ a b, ¬ precedes b a) (sort_scored l).
Proof.
  induction l as [|x l IH]; intros Hcons; cbn [sort_scored]; [constructor|].
  apply insert_scored_sorted_consistent.
  - eapply consistent_on_Permutation; [|exact Hcons].
    by rewrite sort_scored_Permutation.
  - by apply IH, (consistent_on_tail x).
Qed.

Lemma consistent_on_incl l l' :
  (∀ x, x ∈ l' → x ∈ l) → consistent_on l → consistent_on l'.
Proof.
  intros Hin [Hasym Htrans]. split.
  - intros a b Ha Hb. apply Hasym; by apply Hin.
  - intros a b c Ha Hb Hc. apply Htrans; by apply Hin.
Qed.

Lemma tiedb_true (a b : string * num) :
  tiedb a b = true ↔ ¬ precedes a b ∧ ¬ precedes b a.
Proof.
  unfold tiedb, precedes. rewrite andb_true_iff, !negb_true_iff.
  destruct (negative (comparator a b)), (negative (comparator b a));
    intuition congruence.
Qed.

(** Stability: the entries tied with [z] keep their relative order. *)
Lemma insert_scored_tied (z : string * num) x l :
  consistent_on (z :: x :: l) →
  filter (λ a, tiedb z a = true) (insert_scored x l)
  = filter (λ a, tiedb z a = true) (x :: l).
Proof.
  induction l as [|y l IH]; intros Hcons; cbn [insert_scored]; [done|].
  destruct (negative (comparator y x)) eqn:Hc; [|done].
  rewrite (filter_cons _ y), IH, !filter_cons.
  2:{ revert Hcons. apply consistent_on_incl. intros a.
      rewrite !elem_of_cons. tauto. }
  destruct (decide (tiedb z x = true)) as [Hx|]; [|done].
  destruct (decide (tiedb z y = true)) as [Hy|]; [|done].
  exfalso. apply tiedb_true in Hx as [Hzx _]. apply tiedb_true in Hy as [_ Hyz].
  destruct Hcons as [_ Htrans].
  apply (Htrans y z x); [| | |done|done|exact Hc];
    rewrite !elem_of_cons; tauto.
Qed.

Lemma sort_scored_tied (z : string * num) l :
  consistent_on (z :: l) →
  filter (λ a, tiedb z a = true) (sort_scored l)
  = filter (λ a, tiedb z a = true) l.
Proof.
  induction l as [|x l IH]; intros Hcons; cbn [sort_scored]; [done|].
  rewrite insert_scored_tied, !filter_cons, IH; [done| |].
  - revert Hcons. apply consistent_on_incl. intros a.
    rewrite !elem_of_cons. tauto.
  - revert Hcons. apply consistent_on_incl. intros a.
    rewrite !elem_of_cons, sort_scored_Permutation. tauto.
Qed.

Lemma consistentb_sound l : consistentb l = true → consistent_on l.
Proof.
  unfold consistentb. rewrite forallb_forall. intros Hall. split.
  - intros a b Ha%list_elem_of_In Hb%list_elem_of_In Hab Hba.
    specialize (Hall a Ha). rewrite forallb_forall in Hall.
    specialize (Hall b Hb). apply andb_true_iff in Hall as [Hall _].
    unfold precedes in Hab, Hba. by rewrite Hab, Hba in Hall.
  - intros a b c Ha%list_elem_of_In Hb%list_elem_of_In Hc%list_elem_of_In
      Hab Hbc Hac.
    specialize (Hall a Ha). rewrite forallb_forall in Hall.
    specialize (Hall b Hb). apply andb_true_iff in Hall as [_ Hall].
    rewrite forallb_forall in Hall. specialize (Hall c Hc).
    unfold precedes in Hab, Hbc, Hac.
    apply not_true_is_false in Hab, Hbc. by rewrite Hab, Hbc, Hac in Hall.
Qed.

(** The results are the entries whose node is in the store, in order, each as
    its node with the score. *)
Lemma resolved_filter (nodesMap : gmap string (gmap string (value num)))
    (top : list (string * num)) :
  Forall2 (λ r x, ∃ n, nodesMap !! x.1 = Some n ∧
                       r = <["similarity" := VNum x.2]> n)
          (resolved nodesMap top)
          (filter (λ x, is_Some (nodesMap !! x.1)) top).
Proof.
  unfold resolved. induction top as [|t top IH]; [constructor|].
  change (t :: top) with ([t] ++ top). rewrite omap_app, filter_app. simpl.
  rewrite filter_cons, filter_nil.
  destruct (nodesMap !! t.1) as [n|] eqn:Hn; simpl.
  - destruct (decide (is_Some (Some n))) as [_|Hno]; [|by destruct Hno].
    constructor; [eauto|done].
  - destruct (decide (is_Some (@None (gmap string (value num)))))
      as [[? [=]]|_]. done.
Qed.

Lemma resolved_length_all (nodesMap : gmap string (gmap string (value num)))
    (top : list (string * num)) :
  Forall (λ x, is_Some (nodesMap !! x.1)) top →
  length (resolved nodesMap top) = length top.
Proof.
  unfold resolved. induction 1 as [|t top [n Hn] _ IH]; [done|].
  change (t :: top) with ([t] ++ top). rewrite omap_app, !length_app.
  simpl. rewrite Hn. simpl. by rewrite IH.
Qed.

End ConsistentSort.

(** *** The sort, in exact arithmetic *)

Lemma negative_comparator_exact (y x : string * R) :
  negative (comparator y x) = true ↔ (x.2 < y.2)%R.
Proof.
  unfold comparator. simpl. rewrite bool_decide_eq_true. split; intros; lra.
Qed.

(** In exact arithmetic the comparator is consistent on every list. *)
Lemma exact_consistent (l : list (string * R)) : consistent_on l.
Proof.
  split.
  - intros a b _ _. unfold precedes. rewrite !negative_comparator_exact. lra.
  - intros a b c _ _ _. unfold precedes. rewrite !negative_comparator_exact. lra.
Qed.

Lemma exact_not_precedes (a b : string * R) : ¬ precedes b a ↔ desc a b.
Proof. unfold precedes, desc. rewrite negative_comparator_exact. lra. Qed.

Lemma exact_tiedb (a b : string * R) : tiedb a b = true ↔ a.2 = b.2.
Proof.
  rewrite tiedb_true. unfold precedes. rewrite !negative_comparator_exact. lra.
Qed.

Lemma insert_scored_sorted (x : string * R) (l : list (string * R)) :
  StronglySorted desc l → StronglySorted desc (insert_scored x l).
Proof.
  induction 1 as [|y l Hl IH Hy]; cbn [insert_scored].
  - repeat constructor.
  - destruct (negative (comparator y x)) eqn:Hc.
    + apply negative_comparator_exact in Hc.
      constructor; [done|].
      rewrite insert_scored_Permutation. constructor; [|done].
      unfold desc. lra.
    + assert (Hxy : (y.2 <= x.2)%R).
      { destruct (Rle_or_lt (y.2) (x.2)) as [|Hlt]; [done|].
        apply negative_comparator_exact in Hlt. congruence. }
      constructor; [by constructor|].
      constructor; [done|].
      eapply Forall_impl; [exact Hy|]. unfold desc. intros z Hz. lra.
Qed.

Lemma sort_scored_sorted (l : list (string * R)) :
  StronglySorted desc (sort_scored l).
Proof.
  induction l as [|x l IH]; simpl; [constructor|].
  by apply insert_scored_sorted.
Qed.

(** Stability: entries of one score keep their relative order. *)
Lemma insert_scored_stable (sc : R) (x : string * R) (l : list (string * R)) :
  filter (λ a, a.2 = sc) (insert_scored x l) = filter (λ a, a.2 = sc) (x :: l).
Proof.
  induction l as [|y l IH]; cbn [insert_scored]; [done|].
  destruct (negative (comparator y x)) eqn:Hc; [|done].
  apply negative_comparator_exact in Hc.
  rewrite (filter_cons _ y), IH, !filter_cons.
  destruct (decide (x.2 = sc)), (decide (y.2 = sc)); try done. lra.
Qed.

Lemma sort_scored_stable (sc : R) (l : list (string * R)) :
  filter (λ a, a.2 = sc) (sort_scored l) = filter (λ a, a.2 = sc) l.
Proof.
  induction l as [|x l IH]; simpl; [done|].
  by rewrite insert_scored_stable, !filter_cons, IH.
Qed.

Lemma StronglySorted_elem_of_pair {A} (R : A → A → Prop) (l : list A) (x y : A) :
  StronglySorted R l → x ∈ l → y ∈ l → x = y ∨ R x y ∨ R y x.
Proof.
  induction 1 as [|z l Hl IH Hz]; [by intros ?%elem_of_nil|].
  rewrite Forall_forall in Hz.
  intros [->|Hx]%elem_of_cons [->|Hy]%elem_of_cons; auto.
Qed.

Section SearchFacts.
Context {num : Type} `{Number num} (env : Env num).
Implicit Types (s : AppState num).

Lemma getEmbedding_run (text : string) s :
  getEmbedding env text s
  = (match fetchEmbedding env (cleanInput text) with
     | inr embedding => Return embedding
     | inl errText => Throw ("Embedding error: " +:+ errText)
     end,
     exec (request (CallEmbedding (cleanInput text))) s).
Proof.
  unfold getEmbedding, exec. cbn.
  by destruct (fetchEmbedding env (cleanInput text)).
Qed.

Lemma gptPlainText_run (prompt : string) s :
  gptPlainText env prompt s
  = (match fetchResponse env prompt with
     | inr output_text => Return (trim output_text)
     | inl errText => Throw ("GPT error: " +:+ errText)
     end,
     exec (request (CallGpt prompt)) s).
Proof.
  unfold gptPlainText, exec. cbn. by destruct (fetchResponse env prompt).
Qed.

(** On an empty index [searchGraph] returns at once: no request, no throw,
    whatever the provider would have answered. *)
Lemma searchGraph_empty (query : string) (topK : nat) s :
  embeddingsRef s = [] → searchGraph env query topK s = (Return [], s).
Proof. intros He. unfold searchGraph, mbind, M_bind, gets. by rewrite He. Qed.

Lemma searchGraph_nonempty (query : string) (topK : nat) s :
  embeddingsRef s ≠ [] →
  searchGraph env query topK s
  = (match fetchEmbedding env (cleanInput query) with
     | inr qEmb =>
         Return (resolved (nodesMap s) (ranked qEmb (embeddingsRef s) topK))
     | inl errText => Throw ("Embedding error: " +:+ errText)
     end,
     exec (request (CallEmbedding (cleanInput query))) s).
Proof.
  intros He. unfold searchGraph, mbind, M_bind, gets.
  destruct (embeddingsRef s) as [|iv current] eqn:Hcur; [done|].
  cbn [fmap list_fmap]. rewrite getEmbedding_run.
  destruct (fetchEmbedding env (cleanInput query)); [done|].
  cbn. by rewrite Hcur.
Qed.

End SearchFacts.

(** C4 (as amended).  On an empty index the search returns the empty list,
    with no request and no throw.  Otherwise, once the question is embedded,
    there is a ranking [all] of the whole index: a rearrangement of its
    entries, each an identifier with the cosine similarity of its vector to
    the question.  Whenever the comparator [b.score - a.score] is consistent
    on these scores, no entry of the ranking is followed by one the
    comparator puts strictly before it, and entries the comparator ties stand
    in the order of the index keys.  The search keeps the first [k] entries
    of the ranking, [min(k, indexSize)] of them, and returns, in that order,
    the node of each with the score, skipping exactly the entries whose node
    is not in the store: at most [min(k, indexSize)] results, and exactly
    that many when every key of the index has a node. *)
Theorem topK_spec {num : Type} `{Number num} (env : Env num) (s : AppState num)
    (query : string) (topK : nat) :
  (embeddingsRef s = [] → searchGraph env query topK s = (Return [], s)) ∧
  (∀ qEmb : list num,
     embeddingsRef s ≠ [] →
     fetchEmbedding env (cleanInput query) = inr qEmb →
     let entries := (λ iv, (iv.1, cosineSim qEmb iv.2)) <$> embeddingsRef s in
     ∃ (all : list (string * num)) (out : list (gmap string (value num))),
       searchGraph env query topK s
       = (Return out, exec (request (CallEmbedding (cleanInput query))) s) ∧
       all ≡ₚ entries ∧
       (consistent_on entries →
        StronglySorted (λ a b, ¬ precedes b a) all ∧
        ∀ z, z ∈ entries →
             filter (λ x, tiedb z x = true) all
             = filter (λ x, tiedb z x = true) entries) ∧
       length (take topK all) = topK `min` length (embeddingsRef s) ∧
       Forall2 (λ r x, ∃ n, nodesMap s !! x.1 = Some n ∧
                            r = <["similarity" := VNum x.2]> n)
               out
               (filter (λ x, is_Some (nodesMap s !! x.1)) (take topK all)) ∧
       length out ≤ topK `min` length (embeddingsRef s) ∧
       (Forall (λ iv, is_Some (nodesMap s !! iv.1)) (embeddingsRef s) →
        length out = topK `min` length (embeddingsRef s))).
Proof.
  split; [apply searchGraph_empty|].
  intros qEmb Hne Hq entries.
  exists (sort_scored (scored qEmb (embeddingsRef s))),
         (resolved (nodesMap s) (ranked qEmb (embeddingsRef s) topK)).
  split; [by rewrite searchGraph_nonempty, Hq|].
  split; [apply sort_scored_Permutation|].
  split.
  { intros Hcons. split; [by apply sort_scored_sorted_consistent|].
    intros z Hz. apply sort_scored_tied.
    revert Hcons. apply consistent_on_incl. intros a.
    rewrite elem_of_cons. by intros [->|Ha]. }
  split; [apply (ranked_length qEmb (embeddingsRef s) topK)|].
  split; [apply resolved_filter|].
  split.
  { etrans; [apply resolved_length|]. by rewrite ranked_length. }
  intros Hall. rewrite resolved_length_all; [apply ranked_length|].
  apply Forall_forall. intros x Hx.
  apply ranked_elem_of in Hx as (v & Hin & _).
  rewrite Forall_forall in Hall. exact (Hall _ Hin).
Qed.

(** In binary64 finite vectors can give a score that is not a number, and
    then the returned contexts are in no non-increasing order.  The question
    embeds to [2^511]; the index holds [-1], [2^600] and [1], of scores -1,
    NaN and 1.  The search returns the three nodes, the comparator is not
    consistent on the three scores, and no arrangement of the three entries
    has each score at least the next. *)
Lemma topK_binary64_not_sorted :
  let entries := scored [0x1p511]%float (embeddingsRef overflow_state) in
  fetchEmbedding overflow_env (cleanInput "any question")
  = inr [0x1p511]%float ∧
  entries = [("paper:a", (-1)%float); ("paper:b", nan); ("paper:c", 1%float)] ∧
  (∃ out, (searchGraph overflow_env "any question" 8 overflow_state).1
          = Return out ∧ length out = 3%nat) ∧
  ¬ consistent_on entries ∧
  ∀ l, l ≡ₚ entries →
       ¬ StronglySorted (λ a b, PrimFloat.leb b.2 a.2 = true) l.
Proof.
  intros entries.
  assert (He : entries
               = [("paper:a", (-1)%float); ("paper:b", nan); ("paper:c", 1%float)])
    by (vm_compute; reflexivity).
  split; [reflexivity|]. split; [exact He|]. split.
  { exists (resolved (nodesMap overflow_state)
              (ranked [0x1p511]%float (embeddingsRef overflow_state) 8)).
    split; [by rewrite searchGraph_nonempty|]. by vm_compute. }
  rewrite He. split.
  { intros [_ Htrans].
    apply (Htrans ("paper:c", 1%float) ("paper:b", nan) ("paper:a", (-1)%float));
      rewrite ?elem_of_cons; try tauto; unfold precedes; by vm_compute. }
  intros l Hl Hs.
  destruct (StronglySorted_elem_of_pair _ l ("paper:a", (-1)%float) ("paper:b", nan) Hs)
    as [Heq|[Hab|Hba]].
  - rewrite Hl, !elem_of_cons. tauto.
  - rewrite Hl, !elem_of_cons. tauto.
  - discriminate Heq.
  - by vm_compute in Hab.
  - by vm_compute in Hba.
Qed.

(** C4 in binary64, on the same index with a question that embeds to [1]:
    the scores are -1, 0 and 1, the comparator is consistent on them, the
    ranking is sorted, and for [k = 2] two nodes are returned. *)
Lemma topK_spec_witness :
  ∃ all out,
    (searchGraph unit_env "any question" 2 overflow_state).1 = Return out ∧
    all ≡ₚ [("paper:a", (-1)%float); ("paper:b", 0%float); ("paper:c", 1%float)] ∧
    StronglySorted (λ a b, ¬ precedes b a) all ∧
    length out = 2%nat.
Proof.
  destruct (proj2 (topK_spec unit_env overflow_state "any question" 2)
              [1]%float) as (all & out & Hrun & Hperm & Hsort & _ & _ & _ & Hlen).
  - discriminate.
  - reflexivity.
  - exists all, out. split; [by rewrite Hrun|]. split; [exact Hperm|].
    split.
    + apply Hsort. apply consistentb_sound. reflexivity.
    + apply Hlen. repeat constructor; by eexists.
Defined.

(** X21.  The ranking in exact arithmetic.  The list [searchGraph] cuts to
    its first [k] entries is the sort of the whole scored index: a
    rearrangement of it in which each score is at least the next, with the
    entries of any one score in the order of the index keys.  The comparator
    is consistent on every list of real scores; it puts an entry strictly
    before another exactly when its score is greater, and ties two entries
    exactly when their scores are equal. *)
Theorem ranking_exact (qEmb : list R) (current : list (string * list R))
    (topK : nat) :
  let entries := (λ iv, (iv.1, cosineSim qEmb iv.2)) <$> current in
  ∃ all,
    ranked qEmb current topK = take topK all ∧
    all ≡ₚ entries ∧
    consistent_on entries ∧
    StronglySorted (λ a b, (b.2 <= a.2)%R) all ∧
    (∀ sc : R, filter (λ x, x.2 = sc) all = filter (λ x, x.2 = sc) entries) ∧
    (∀ a b : string * R, ¬ precedes b a ↔ (b.2 <= a.2)%R) ∧
    (∀ a b : string * R, tiedb a b = true ↔ a.2 = b.2).
Proof.
  intros entries. exists (sort_scored (scored qEmb current)).
  split; [reflexivity|]. split; [apply sort_scored_Permutation|].
  split; [apply exact_consistent|].
  split; [apply sort_scored_sorted|].
  split; [intros sc; apply sort_scored_stable|].
  split; [intros a b; apply exact_not_precedes | apply exact_tiedb].
Qed.

(** ** Running computations *)

Section MonadFacts.
Context {S : Type}.

Lemma bind_run {A B} (m : M S A) (f : A → M S B) (s : S) :
  (m ≫= f) s
  = match m s with
    | (Return a, s') => f a s'
    | (Throw e, s') => (Throw e, s')
    end.
Proof. reflexivity. Qed.

Lemma for_of_app {A} (l1 l2 : list A) (body : A → M S unit) (s : S) :
  for_of (l1 ++ l2) body s = (for_of l1 body ;; for_of l2 body) s.
Proof.
  revert s. induction l1 as [|x l1 IH]; intros s; simpl; [done|].
  rewrite !bind_run. destruct (body x s) as [[[]|e] s1]; [|done].
  by rewrite IH.
Qed.

Lemma for_of_fmap {A B} (g : A → B) (l : list A) (body : B → M S unit) (s : S) :
  for_of (g <$> l) body s = for_of l (body ∘ g) s.
Proof.
  revert s. induction l as [|x l IH]; intros s; simpl; [done|].
  rewrite !bind_run. simpl. destruct (body (g x) s) as [[[]|e] s1]; [|done].
  apply IH.
Qed.

Lemma try_finally_exec {A} (m : M S A) (f : M S unit) (s : S) :
  exec (try_finally m f) s = exec f (exec m s).
Proof.
  unfold exec, try_finally. destruct (m s) as [r s1]. simpl.
  by destruct (f s1) as [[[]|e] s2].
Qed.

Lemma try_catch_exec {A} (m : M S A) (h : string → M S A) (s : S) :
  exec (try_catch m h) s
  = match (m s).1 with
    | Return _ => exec m s
    | Throw e => exec (h e) (exec m s)
    end.
Proof. unfold exec, try_catch. by destruct (m s) as [[a|e] s1]. Qed.

End MonadFacts.

(** ** Answering a question *)

Section RagFacts.
Context {num : Type} `{Number num} (env : Env num).
Implicit Types (s : AppState num).


End RagFacts.



(** ** Ingestion *)

Section RespectFacts.
Context {num : Type} `{Number num} (env : Env num).
Implicit Types (s : AppState num).

Lemma respects_ret {A} (a : A) : respects (num:=num) (mret a).
Proof. intros s s' Hs. by split. Qed.

Lemma respects_throw {A} (message : string) :
  respects (num:=num) (A:=A) (throw message).
Proof. intros s s' Hs. by split. Qed.

Lemma respects_bind {A B} (m : M (AppState num) A) (f : A → M (AppState num) B) :
  respects m → (∀ a, respects (f a)) → respects (m ≫= f).
Proof.
  intros Hm Hf s s' Hs. rewrite !bind_run.
  destruct (Hm s s' Hs) as [Hr Hs1].
  destruct (m s) as [[a|e] s1], (m s') as [[a'|e'] s1']; simpl in *;
    try discriminate.
  - injection Hr as ->. by apply Hf.
  - injection Hr as ->. by split.
Qed.

Lemma respects_for_of {A} (l : list A) (body : A → M (AppState num) unit) :
  (∀ x, respects (body x)) → respects (for_of l body).
Proof.
  intros Hbody. induction l as [|x l IH]; simpl.
  - apply respects_ret.
  - apply respects_bind; [apply Hbody | by intros _].
Qed.

Lemma respects_try_catch {A} (m : M (AppState num) A)
    (h : string → M (AppState num) A) :
  respects m → (∀ e, respects (h e)) → respects (try_catch m h).
Proof.
  intros Hm Hh s s' Hs. unfold try_catch.
  destruct (Hm s s' Hs) as [Hr Hs1].
  destruct (m s) as [[a|e] s1], (m s') as [[a'|e'] s1']; simpl in *;
    try discriminate.
  - injection Hr as ->. by split.
  - injection Hr as ->. by apply Hh.
Qed.

Lemma respects_try_finally {A} (m : M (AppState num) A)
    (f : M (AppState num) unit) :
  respects m → respects f → respects (try_finally m f).
Proof.
  intros Hm Hf s s' Hs. unfold try_finally.
  destruct (Hm s s' Hs) as [Hr Hs1].
  destruct (m s) as [r s1], (m s') as [r' s1']; simpl in *. subst r'.
  destruct (Hf s1 s1' Hs1) as [Hr2 Hs2].
  destruct (f s1) as [[[]|e] s2], (f s1') as [[[]|e'] s2']; simpl in *;
    try discriminate; [by split|].
  injection Hr2 as ->. by split.
Qed.

Ltac respects_leaf :=
  let s := fresh "s" in let s' := fresh "s'" in let Hs := fresh "Hs" in
  intros s s' Hs; unfold same_graph_state in *; simpl;
  destruct Hs as (?&?&?&?&?&?&?&?&?&?&?&?);
  repeat split; simpl; congruence.

Lemma respects_setNodesMap f : respects (num:=num) (setNodesMap f).
Proof. respects_leaf. Qed.
Lemma respects_setEdges f : respects (num:=num) (setEdges f).
Proof. respects_leaf. Qed.
Lemma respects_setEmbeddings f : respects (num:=num) (setEmbeddings f).
Proof. respects_leaf. Qed.
Lemma respects_setError v : respects (num:=num) (setError v).
Proof. respects_leaf. Qed.
Lemma respects_setLoadingIngest v : respects (num:=num) (setLoadingIngest v).
Proof. respects_leaf. Qed.
Lemma respects_setSelectedNodeId v : respects (num:=num) (setSelectedNodeId v).
Proof. respects_leaf. Qed.
Lemma respects_setSelectedNodeSummary v :
  respects (num:=num) (setSelectedNodeSummary v).
Proof. respects_leaf. Qed.
Lemma respects_setRagAnswer v : respects (num:=num) (setRagAnswer v).
Proof. respects_leaf. Qed.
Lemma respects_setRagContexts v : respects (num:=num) (setRagContexts v).
Proof. respects_leaf. Qed.
Lemma respects_request c : respects (num:=num) (request c).
Proof. respects_leaf. Qed.
Lemma respects_papersJson : respects (num:=num) (gets papersJson).
Proof. respects_leaf. Qed.
Lemma respects_eventsJson : respects (num:=num) (gets eventsJson).
Proof. respects_leaf. Qed.
Lemma respects_policiesJson : respects (num:=num) (gets policiesJson).
Proof. respects_leaf. Qed.

Ltac respects_step :=
  lazymatch goal with
  | |- respects (mret _) => apply respects_ret
  | |- respects (throw _) => apply respects_throw
  | |- respects (mbind _ _) => apply respects_bind; [| intros ?]
  | |- respects (for_of _ _) => apply respects_for_of; intros ?
  | |- respects (try_catch _ _) => apply respects_try_catch; [| intros ?]
  | |- respects (try_finally _ _) => apply respects_try_finally
  | |- respects (setNodesMap _) => apply respects_setNodesMap
  | |- respects (setEdges _) => apply respects_setEdges
  | |- respects (setEmbeddings _) => apply respects_setEmbeddings
  | |- respects (setError _) => apply respects_setError
  | |- respects (setLoadingIngest _) => apply respects_setLoadingIngest
  | |- respects (setSelectedNodeId _) => apply respects_setSelectedNodeId
  | |- respects (setSelectedNodeSummary _) =>
      apply respects_setSelectedNodeSummary
  | |- respects (setRagAnswer _) => apply respects_setRagAnswer
  | |- respects (setRagContexts _) => apply respects_setRagContexts
  | |- respects (request _) => apply respects_request
  | |- respects (gets papersJson) => apply respects_papersJson
  | |- respects (gets eventsJson) => apply respects_eventsJson
  | |- respects (gets policiesJson) => apply respects_policiesJson
  | |- respects (match ?x with _ => _ end) => destruct x
  end.

Lemma respects_getEmbedding text : respects (getEmbedding env text).
Proof. unfold getEmbedding. cbv zeta. repeat respects_step. Qed.

Lemma respects_addNode id attrs embedding :
  respects (num:=num) (addNode id attrs embedding).
Proof. unfold addNode. repeat respects_step. Qed.

Lemma respects_addEdge a b r : respects (num:=num) (addEdge a b r).
Proof. unfold addEdge. repeat respects_step. Qed.

Lemma respects_resetGraph : respects (num:=num) resetGraph.
Proof. unfold resetGraph. repeat respects_step. Qed.

Ltac respects_ingest :=
  repeat lazymatch goal with
    | |- respects (getEmbedding _ _) => apply respects_getEmbedding
    | |- respects (addNode _ _ _) => apply respects_addNode
    | |- respects (addEdge _ _ _) => apply respects_addEdge
    | |- respects resetGraph => apply respects_resetGraph
    | |- _ => respects_step
    end.

Lemma respects_ingestRecord r : respects (ingestRecord env r).
Proof.
  destruct r; simpl; unfold ingestPaper, ingestEvent, ingestPolicy; cbv zeta;
    respects_ingest.
Qed.

Lemma respects_deriveLinks papers events :
  respects (num:=num) (deriveLinks env papers events).
Proof. unfold deriveLinks, linkPaperEvent. cbv zeta. respects_ingest. Qed.

Lemma respects_ingestSteps : respects (ingestSteps env).
Proof.
  unfold ingestSteps, parse.
  repeat lazymatch goal with
    | |- respects (ingestPaper _ ?p) => apply (respects_ingestRecord (RPaper p))
    | |- respects (ingestEvent _ ?e) => apply (respects_ingestRecord (REvent e))
    | |- respects (ingestPolicy _ ?p) =>
        apply (respects_ingestRecord (RPolicy p))
    | |- respects (deriveLinks _ _ _) => apply respects_deriveLinks
    | |- _ => respects_step
    end.
Qed.

End RespectFacts.

Section StableFacts.
Context {S : Type} (P : S → S → Prop) `{!PreOrder P}.

Lemma stable_ret {A} (a : A) : stable P (mret a).
Proof. intros s. simpl. reflexivity. Qed.

Lemma stable_throw {A} (message : string) : stable P (throw (A:=A) message).
Proof. intros s. simpl. reflexivity. Qed.

Lemma stable_gets {A} (f : S → A) : stable P (gets f).
Proof. intros s. simpl. reflexivity. Qed.

Lemma stable_modify (f : S → S) : (∀ s, P s (f s)) → stable P (modify f).
Proof. intros Hf s. apply Hf. Qed.

Lemma stable_bind {A B} (m : M S A) (f : A → M S B) :
  stable P m → (∀ a, stable P (f a)) → stable P (m ≫= f).
Proof.
  intros Hm Hf s. rewrite bind_run. specialize (Hm s).
  destruct (m s) as [[a|e] s1]; simpl in *; [|done].
  etrans; [exact Hm | apply Hf].
Qed.

Lemma stable_for_of {A} (l : list A) (body : A → M S unit) :
  (∀ x, stable P (body x)) → stable P (for_of l body).
Proof.
  intros Hbody. induction l as [|x l IH]; simpl.
  - apply stable_ret.
  - apply stable_bind; [apply Hbody | by intros _].
Qed.

Lemma stable_try_catch {A} (m : M S A) (h : string → M S A) :
  stable P m → (∀ e, stable P (h e)) → stable P (try_catch m h).
Proof.
  intros Hm Hh s. unfold try_catch. specialize (Hm s).
  destruct (m s) as [[a|e] s1]; simpl in *; [done|].
  etrans; [exact Hm | apply Hh].
Qed.

Lemma stable_try_finally {A} (m : M S A) (f : M S unit) :
  stable P m → stable P f → stable P (try_finally m f).
Proof.
  intros Hm Hf s. unfold try_finally. specialize (Hm s).
  destruct (m s) as [r s1]. specialize (Hf s1).
  destruct (f s1) as [[[]|e] s2]; simpl in *; by etrans.
Qed.

End StableFacts.

#[export] Instance same_inputs_equivalence {num} :
  Equivalence (same_inputs (num:=num)).
Proof.
  split.
  - by intros s.
  - intros s1 s2 (?&?&?). by repeat split.
  - intros s1 s2 s3 (?&?&?) (?&?&?). repeat split; congruence.
Qed.

Section InputFacts.
Context {num : Type} `{Number num} (env : Env num).
Implicit Types (s : AppState num).

Ltac inputs_step :=
  lazymatch goal with
  | |- stable _ (mret _) => apply stable_ret; apply _
  | |- stable _ (throw _) => apply stable_throw; apply _
  | |- stable _ (gets _) => apply stable_gets; apply _
  | |- stable _ (modify _) => apply stable_modify; intros ?; by repeat split
  | |- stable _ (mbind _ _) => apply stable_bind; [apply _ | | intros ?]
  | |- stable _ (for_of _ _) => apply stable_for_of; [apply _ | intros ?]
  | |- stable _ (try_catch _ _) =>
      apply stable_try_catch; [apply _ | | intros ?]
  | |- stable _ (try_finally _ _) => apply stable_try_finally; [apply _ | |]
  | |- stable _ (match ?x with _ => _ end) => destruct x
  end.

(** No handler writes the three JSON boxes. *)
Lemma ingestAll_keeps_inputs : stable same_inputs (ingestAll env).
Proof.
  unfold ingestAll, ingestBody, ingestSteps, parse, resetGraph, deriveLinks,
    linkPaperEvent, ingestPaper, ingestEvent, ingestPolicy, addNode, addEdge,
    getEmbedding, setNodesMap, setEdges, setEmbeddings, setError,
    setLoadingIngest, setSelectedNodeId, setSelectedNodeSummary, setRagAnswer,
    setRagContexts, request.
  cbv zeta. repeat inputs_step.
Qed.

Lemma resetGraph_keeps_inputs s : same_inputs s (exec resetGraph s).
Proof. by repeat split. Qed.

End InputFacts.

Section RebuildFacts.
Context {num : Type} `{Number num} (env : Env num).
Implicit Types (s : AppState num).

Lemma ingestAll_no_key s :
  truthy (OPENAI_API_KEY env) = false →
  ingestAll env s = setError missing_key_message s.
Proof. intros Hkey. unfold ingestAll. by rewrite Hkey. Qed.

(** With a key, the handler is the statements after [resetGraph()], with
    their [catch] and [finally], run from the prepared state. *)
Lemma ingestAll_key s :
  truthy (OPENAI_API_KEY env) = true →
  ingestAll env s
  = try_finally
      (try_catch (ingestSteps env) (λ message, setError (ingestFailure message)))
      (setLoadingIngest false) (prepared s).
Proof.
  intros Hkey. unfold ingestAll, ingestBody. rewrite Hkey. cbn [negb].
  generalize (ingestSteps env). intros steps. vm_compute. reflexivity.
Qed.

Lemma prepared_cleared s :
  nodesMap (prepared s) = ∅ ∧ edges (prepared s) = [] ∧
  embeddingsRef (prepared s) = [] ∧ selectedNodeId (prepared s) = None ∧
  selectedNodeSummary (prepared s) = "" ∧ ragAnswer (prepared s) = "" ∧
  ragContexts (prepared s) = [].
Proof. by repeat split. Qed.

Lemma prepared_same_inputs s s' :
  same_inputs s s' → same_graph_state (prepared s) (prepared s').
Proof. intros (?&?&?). by repeat split. Qed.


Lemma respects_guarded_steps :
  respects
    (try_finally
       (try_catch (ingestSteps env)
          (λ message, setError (ingestFailure message)))
       (setLoadingIngest false)).
Proof.
  apply respects_try_finally; [|apply respects_setLoadingIngest].
  apply respects_try_catch; [apply respects_ingestSteps|].
  intros e. apply respects_setError.
Qed.

Lemma ingestAll_same_inputs s s' :
  truthy (OPENAI_API_KEY env) = true →
  same_inputs s s' →
  same_graph_state (exec (ingestAll env) s) (exec (ingestAll env) s').
Proof.
  intros Hkey Hin. unfold exec. rewrite !ingestAll_key by done.
  by apply respects_guarded_steps, prepared_same_inputs.
Qed.

Lemma ingestAll_returns s : ingestAll env s = (Return tt, exec (ingestAll env) s).
Proof.
  unfold exec. destruct (truthy (OPENAI_API_KEY env)) eqn:Hkey.
  - rewrite ingestAll_key by done. unfold try_finally, try_catch.
    destruct (ingestSteps env (prepared s)) as [[[]|e] s1]; done.
  - by rewrite ingestAll_no_key.
Qed.




(** C5 (as amended).  After a reset and a first run, a second run on the
    same input gives the same entities, relationships, embeddings and metric
    snapshot, whether or not the graph is reset in between: the run resets
    the graph itself, so nothing is appended to the relationship list. *)
Theorem reingest_idempotent s0 :
  let s1 := exec (ingestAll env) (exec resetGraph s0) in
  let s2 := exec (ingestAll env) (exec resetGraph s1) in
  let s2' := exec (ingestAll env) s1 in
  (nodesMap s2 = nodesMap s1 ∧ edges s2 = edges s1 ∧
   embeddingsRef s2 = embeddingsRef s1 ∧
   metrics env (nodesMap s2) (edges s2) = metrics env (nodesMap s1) (edges s1)) ∧
  (nodesMap s2' = nodesMap s1 ∧ edges s2' = edges s1 ∧
   embeddingsRef s2' = embeddingsRef s1 ∧
   metrics env (nodesMap s2') (edges s2')
   = metrics env (nodesMap s1) (edges s1)).
Proof.
  intros s1 s2 s2'.
  assert (Hgraph : (nodesMap s2 = nodesMap s1 ∧ edges s2 = edges s1 ∧
                    embeddingsRef s2 = embeddingsRef s1) ∧
                   (nodesMap s2' = nodesMap s1 ∧ edges s2' = edges s1 ∧
                    embeddingsRef s2' = embeddingsRef s1)).
  { pose proof (ingestAll_keeps_inputs env (exec resetGraph s0)) as Hin.
    change (same_inputs (exec resetGraph s0) s1) in Hin.
    pose proof (resetGraph_keeps_inputs s1) as Hr.
    destruct (truthy (OPENAI_API_KEY env)) eqn:Hkey.
    - assert (Hin2 : same_inputs (exec resetGraph s1) (exec resetGraph s0)).
      { symmetry. etrans; [exact Hin | exact Hr]. }
      assert (Hin2' : same_inputs s1 (exec resetGraph s0)).
      { symmetry. exact Hin. }
      pose proof (ingestAll_same_inputs (exec resetGraph s1)
                    (exec resetGraph s0) Hkey Hin2) as (Hn & He & Hm & _).
      pose proof (ingestAll_same_inputs s1 (exec resetGraph s0) Hkey Hin2')
        as (Hn' & He' & Hm' & _).
      split; (split; [|split]); assumption.
    - assert (Hrun : ∀ s, exec (ingestAll env) s
                          = exec (setError missing_key_message) s).
      { intros s. unfold exec. by rewrite ingestAll_no_key. }
      unfold s2, s2'. rewrite !Hrun. fold s1.
      assert (Hs1 : s1 = exec (setError missing_key_message)
                           (exec resetGraph s0)) by apply Hrun.
      clearbody s1. subst s1. split; (split; [|split]); vm_compute; reflexivity. }
  destruct Hgraph as [(Hn & He & Hm) (Hn' & He' & Hm')].
  rewrite Hn, He, Hn', He'. by repeat split.
Qed.

End RebuildFacts.



(** C5 as stated fails in its second half: a second run without a reset in
    between leaves the three relationships of the first run, the derived
    link among them once. *)
Lemma reingest_without_reset_no_duplicates :
  edges (exec (ingestAll demo_env) demo_mounted)
  = [ {| source := "event:event_demo_1"; target := "location:X";
         relation := "OCCURS_IN" |};
      {| source := "policy:policy_demo_1"; target := "location:India";
         relation := "APPLIES_TO" |};
      {| source := "paper:arxiv_demo_1"; target := "event:event_demo_1";
         relation := "MENTIONS_EVENT" |} ] ∧
  edges (exec (ingestAll demo_env) (exec (ingestAll demo_env) demo_mounted))
  = edges (exec (ingestAll demo_env) demo_mounted).
Proof. split; vm_compute; reflexivity. Qed.

(** ** Fail-fast ingestion *)

Section FailFastFacts.
Context {num : Type} `{Number num} (env : Env num).
Implicit Types (s : AppState num) (r d : record (num:=num)).

Lemma request_calls c s : calls (exec (request c) s) = calls s ++ [c].
Proof. reflexivity. Qed.

Lemma addNode_calls id attrs embedding s :
  ∃ s1, addNode (num:=num) id attrs embedding s = (Return tt, s1) ∧
        calls s1 = calls s.
Proof.
  destruct (addNode_run id attrs embedding s) as (s1 & Hrun & _ & _ & _ & Hc).
  eauto.
Qed.

Lemma addEdge_calls a b rel s :
  ∃ s1, addEdge (num:=num) a b rel s = (Return tt, s1) ∧ calls s1 = calls s.
Proof. eexists. split; reflexivity. Qed.

(** A record whose request is answered is ingested without a throw, with
    that one request. *)
Lemma ingestRecord_ok d s :
  embeds_ok env d →
  ∃ s1, ingestRecord env d s = (Return tt, s1) ∧
        calls s1 = calls s ++ [CallEmbedding (cleanInput (recordText d))].
Proof.
  intros [emb Hemb]. destruct d as [p|e|p]; simpl in Hemb; simpl.
  - unfold ingestPaper. cbv zeta. rewrite bind_run, getEmbedding_run, Hemb.
    destruct (addNode_calls ("paper:" +:+ tmpl (paper_id p))
      (<["type":=VStr "Paper"]> (<["title":=of_field (paper_title p)]>
         (<["summary":=of_field (paper_summary p)]>
            (<["published":=of_field (paper_published p)]> ∅))))
      (Some emb) (exec (request (CallEmbedding (cleanInput (paperText p)))) s))
      as (s1 & -> & Hc).
    exists s1. split; [done|]. by rewrite Hc, request_calls.
  - unfold ingestEvent. cbv zeta. rewrite bind_run, getEmbedding_run, Hemb.
    rewrite bind_run.
    match goal with
    | |- context [addNode ?i ?a ?m ?st] =>
        destruct (addNode_calls i a m st) as (s1 & -> & Hc1)
    end.
    destruct (truthy (event_region e)).
    + rewrite bind_run.
      match goal with
      | |- context [addNode ?i ?a ?m ?st] =>
          destruct (addNode_calls i a m st) as (s2 & -> & Hc2)
      end.
      match goal with
      | |- context [addEdge ?a ?b ?c ?st] =>
          destruct (addEdge_calls a b c st) as (s3 & -> & Hc3)
      end.
      exists s3. split; [done|]. by rewrite Hc3, Hc2, Hc1, request_calls.
    + exists s1. split; [done|]. by rewrite Hc1, request_calls.
  - unfold ingestPolicy. cbv zeta. rewrite bind_run, getEmbedding_run, Hemb.
    rewrite bind_run.
    match goal with
    | |- context [addNode ?i ?a ?m ?st] =>
        destruct (addNode_calls i a m st) as (s1 & -> & Hc1)
    end.
    destruct (truthy (policy_jurisdiction p)).
    + rewrite bind_run.
      match goal with
      | |- context [addNode ?i ?a ?m ?st] =>
          destruct (addNode_calls i a m st) as (s2 & -> & Hc2)
      end.
      match goal with
      | |- context [addEdge ?a ?b ?c ?st] =>
          destruct (addEdge_calls a b c st) as (s3 & -> & Hc3)
      end.
      exists s3. split; [done|]. by rewrite Hc3, Hc2, Hc1, request_calls.
    + exists s1. split; [done|]. by rewrite Hc1, request_calls.
Qed.

(** A record whose request is refused throws right after the request:
    nothing of the record reaches the store. *)
Lemma ingestRecord_refused r s (errText : string) :
  fetchEmbedding env (cleanInput (recordText r)) = inl errText →
  ingestRecord env r s
  = (Throw ("Embedding error: " +:+ errText),
     exec (request (CallEmbedding (cleanInput (recordText r)))) s).
Proof.
  intros Herr. destruct r as [p|e|p]; simpl in Herr; simpl;
    unfold ingestPaper, ingestEvent, ingestPolicy; cbv zeta;
    by rewrite bind_run, getEmbedding_run, Herr.
Qed.

Lemma ingest_prefix_ok (done : list record) s :
  Forall (embeds_ok env) done →
  for_of done (ingestRecord env) s
  = (Return tt, exec (for_of done (ingestRecord env)) s) ∧
  calls (exec (for_of done (ingestRecord env)) s)
  = calls s ++ ((λ d, CallEmbedding (cleanInput (recordText d))) <$> done).
Proof.
  intros Hdone. revert s. induction Hdone as [|d done Hd _ IH]; intros s.
  - split; [done|]. simpl. by rewrite app_nil_r.
  - destruct (ingestRecord_ok d s Hd) as (s1 & Hrun & Hc).
    destruct (IH s1) as [IHrun IHc].
    unfold exec in *. cbn [for_of]. rewrite bind_run, Hrun.
    split; [by rewrite IHrun|].
    rewrite IHc, Hc, fmap_cons. by rewrite <-app_assoc.
Qed.

(** The three loops are one loop over the records. *)
Lemma loops_as_records {A} (papers : list paper) (events : list (event num))
    (policies : list policy) (k : M (AppState num) A) s :
  (for_of papers (ingestPaper env) ;; for_of events (ingestEvent env) ;;
   for_of policies (ingestPolicy env) ;; k) s
  = (for_of (records papers events policies) (ingestRecord env) ;; k) s.
Proof.
  unfold records. rewrite !bind_run, for_of_app, bind_run, for_of_fmap.
  change (ingestRecord env ∘ RPaper) with (ingestPaper env).
  destruct (for_of papers (ingestPaper env) s) as [[[]|e1] s1]; [|done].
  rewrite !bind_run, for_of_app, bind_run, for_of_fmap.
  change (ingestRecord env ∘ REvent) with (ingestEvent env).
  destruct (for_of events (ingestEvent env) s1) as [[[]|e2] s2]; [|done].
  rewrite !bind_run, for_of_fmap.
  change (ingestRecord env ∘ RPolicy) with (ingestPolicy env).
  by destruct (for_of policies (ingestPolicy env) s2) as [[[]|e3] s3].
Qed.

Lemma ingestSteps_run (papers : list paper) (events : list (event num))
    (policies : list policy) s :
  papersJson s = Some papers → eventsJson s = Some events →
  policiesJson s = Some policies →
  ingestSteps env s
  = (for_of (records papers events policies) (ingestRecord env) ;;
     deriveLinks env papers events) s.
Proof.
  intros Hp He Hpo. rewrite <-loops_as_records.
  unfold ingestSteps. rewrite bind_run, bind_run. cbn [gets]. rewrite Hp.
  cbn [parse mret M_ret]. rewrite bind_run, bind_run. cbn [gets]. rewrite He.
  cbn [parse mret M_ret]. rewrite bind_run, bind_run. cbn [gets]. rewrite Hpo.
  reflexivity.
Qed.

End FailFastFacts.

Section FailFast.
Context {num : Type} `{Number num} (env : Env num).
Implicit Types (s st : AppState num).

Lemma prepared_inputs s :
  papersJson (prepared s) = papersJson s ∧
  eventsJson (prepared s) = eventsJson s ∧
  policiesJson (prepared s) = policiesJson s ∧
  calls (prepared s) = calls s.
Proof. split; [|split; [|split]]; vm_compute; reflexivity. Qed.

(** What the [catch] and the [finally] change after a throw in state [st]. *)
Lemma caught_fields (message : string) st :
  let sf := exec (setLoadingIngest false) (exec (setError message) st) in
  nodesMap sf = nodesMap st ∧ edges sf = edges st ∧
  embeddingsRef sf = embeddingsRef st ∧ calls sf = calls st ∧
  error sf = message ∧ loadingIngest sf = false.
Proof. split; [|split; [|split; [|split; [|split]]]]; reflexivity. Qed.

Lemma request_fields c st :
  nodesMap (exec (request c) st) = nodesMap st ∧
  edges (exec (request c) st) = edges st ∧
  embeddingsRef (exec (request c) st) = embeddingsRef st.
Proof. split; [|split]; reflexivity. Qed.

Lemma ingestFailure_embedding (errText : string) :
  ingestFailure ("Embedding error: " +:+ errText)
  = "Embedding error: " +:+ errText.
Proof. reflexivity. Qed.

(** The run up to a refused record [r] that follows the records [done]. *)
Lemma ingestAll_refused s (papers : list paper) (events : list (event num))
    (policies : list policy) (done rest : list record) (r : record)
    (errText : string) :
  truthy (OPENAI_API_KEY env) = true →
  papersJson s = Some papers → eventsJson s = Some events →
  policiesJson s = Some policies →
  records papers events policies = done ++ r :: rest →
  Forall (embeds_ok env) done →
  fetchEmbedding env (cleanInput (recordText r)) = inl errText →
  exec (ingestAll env) s
  = exec (setLoadingIngest false)
      (exec (setError ("Embedding error: " +:+ errText))
         (exec (request (CallEmbedding (cleanInput (recordText r))))
            (exec (for_of done (ingestRecord env)) (prepared s)))).
Proof.
  intros Hkey Hp He Hpo Hrec Hdone Herr.
  destruct (prepared_inputs s) as (Hp' & He' & Hpo' & _).
  rewrite <-Hp' in Hp. rewrite <-He' in He. rewrite <-Hpo' in Hpo.
  destruct (ingest_prefix_ok env done (prepared s) Hdone) as [Hrun _].
  unfold exec at 1. rewrite (ingestAll_key env s Hkey).
  unfold try_finally, try_catch.
  rewrite (ingestSteps_run env papers events policies (prepared s) Hp He Hpo).
  rewrite Hrec, bind_run, for_of_app, bind_run, Hrun.
  cbn [for_of]. rewrite bind_run, (ingestRecord_refused env r _ errText Herr).
  by rewrite ingestFailure_embedding.
Qed.

(** C6.  Let the records of the run, in the order papers, events, policies,
    be [done ++ r :: rest], the provider answering the requests of [done] and
    refusing that of [r].  Then the records of [done] are ingested without a
    throw, and the run ends with exactly the entities, relationships and
    embeddings they left in the freshly reset store; its requests are those
    of [done] followed by the refused one, and no other; the error message
    is that of the refusal and the spinner is off. *)
Theorem ingest_fail_fast s (papers : list paper) (events : list (event num))
    (policies : list policy) (done rest : list record) (r : record)
    (errText : string) :
  truthy (OPENAI_API_KEY env) = true →
  papersJson s = Some papers → eventsJson s = Some events →
  policiesJson s = Some policies →
  records papers events policies = done ++ r :: rest →
  Forall (embeds_ok env) done →
  fetchEmbedding env (cleanInput (recordText r)) = inl errText →
  let s1 := exec (for_of done (ingestRecord env)) (prepared s) in
  let s' := exec (ingestAll env) s in
  for_of done (ingestRecord env) (prepared s) = (Return tt, s1) ∧
  nodesMap s' = nodesMap s1 ∧ edges s' = edges s1 ∧
  embeddingsRef s' = embeddingsRef s1 ∧
  calls s'
  = calls s ++
    ((λ d, CallEmbedding (cleanInput (recordText d))) <$> done ++ [r]) ∧
  error s' = "Embedding error: " +:+ errText ∧
  loadingIngest s' = false.
Proof.
  intros Hkey Hp He Hpo Hrec Hdone Herr s1 s'.
  destruct (ingest_prefix_ok env done (prepared s) Hdone) as [Hrun Hcalls].
  fold s1 in Hrun, Hcalls.
  assert (Hs' : s' = exec (setLoadingIngest false)
            (exec (setError ("Embedding error: " +:+ errText))
               (exec (request (CallEmbedding (cleanInput (recordText r)))) s1)))
    by (by eapply ingestAll_refused).
  clearbody s' s1. subst s'.
  set (st := exec (request (CallEmbedding (cleanInput (recordText r)))) s1).
  destruct (caught_fields ("Embedding error: " +:+ errText) st)
    as (Hn & Hed & Hem & Hc & Herror & Hload).
  destruct (request_fields (CallEmbedding (cleanInput (recordText r))) s1)
    as (Hn1 & Hed1 & Hem1).
  destruct (prepared_inputs s) as (_ & _ & _ & Hc0).
  split; [exact Hrun|].
  split; [by rewrite Hn|]. split; [by rewrite Hed|]. split; [by rewrite Hem|].
  split; [|by split].
  rewrite Hc. unfold st. rewrite request_calls, Hcalls, Hc0.
  by rewrite fmap_app, app_assoc.
Qed.

End FailFast.

(** C6 on the fail-fast scenario: the paper and the first event are
    ingested, the request of the second event is refused, the policy is
    never reached and no link is derived. *)
Lemma ingest_fail_fast_witness :
  edges (exec (ingestAll demo_env) demo_refused_mounted)
  = [ {| source := "event:event_demo_1"; target := "location:X";
         relation := "OCCURS_IN" |} ] ∧
  (embeddingsRef (exec (ingestAll demo_env) demo_refused_mounted)).*1
  = ["paper:arxiv_demo_1"; "event:event_demo_1"] ∧
  calls (exec (ingestAll demo_env) demo_refused_mounted)
  = [ CallEmbedding (cleanInput (paperText demo_paper));
      CallEmbedding (cleanInput (eventText demo_event));
      CallEmbedding (cleanInput (eventText demo_event_refused)) ] ∧
  error (exec (ingestAll demo_env) demo_refused_mounted)
  = "Embedding error: quota exceeded".
Proof.
  assert (Hdone : Forall (embeds_ok demo_env)
                    [RPaper demo_paper; REvent demo_event]).
  { repeat constructor; eexists; vm_compute; reflexivity. }
  destruct (ingest_fail_fast demo_env demo_refused_mounted
              [demo_paper] [demo_event; demo_event_refused] [demo_policy]
              [RPaper demo_paper; REvent demo_event] [RPolicy demo_policy]
              (REvent demo_event_refused) "quota exceeded"
              eq_refl eq_refl eq_refl eq_refl eq_refl Hdone eq_refl)
    as (_ & _ & Hedges & Hemb & Hcalls & Herror & _).
  split; [rewrite Hedges; vm_compute; reflexivity|].
  split; [rewrite Hemb; vm_compute; reflexivity|].
  split; [rewrite Hcalls; reflexivity | exact Herror].
Defined.

(** ** The graphs the ingestion builds *)

Section WiredFacts.
Context {num : Type} `{Number num} (env : Env num).
Implicit Types (s : AppState num) (d : record (num:=num)).

Lemma keys_grow_refl s : keys_grow s s.
Proof. by intros k. Qed.

Lemma keys_grow_trans s1 s2 s3 :
  keys_grow s1 s2 → keys_grow s2 s3 → keys_grow s1 s3.
Proof. intros H12 H23 k Hk. by apply H23, H12. Qed.

Lemma endpoints_registered_grow {V} (ids ids' : gmap string V) (es : list edge) :
  (∀ k, is_Some (ids !! k) → is_Some (ids' !! k)) →
  endpoints_registered ids es → endpoints_registered ids' es.
Proof.
  intros Hgrow Hes. unfold endpoints_registered in *.
  eapply Forall_impl; [exact Hes|].
  intros e [Hs Ht]. split; by apply Hgrow.
Qed.

Lemma endpoints_registered_snoc {V} (ids : gmap string V) (es : list edge)
    (e : edge) :
  endpoints_registered ids es →
  is_Some (ids !! source e) → is_Some (ids !! target e) →
  endpoints_registered ids (es ++ [e]).
Proof.
  intros Hes Hs Ht. unfold endpoints_registered in *.
  rewrite Forall_app. split; [done|]. by repeat constructor.
Qed.

(** [addNode] on the graph part of the state. *)
Lemma addNode_graph (id : string) (attrs : gmap string (value num))
    (embedding : option (list num)) s :
  ∃ s1, addNode id attrs embedding s = (Return tt, s1) ∧
        edges s1 = edges s ∧ is_Some (nodesMap s1 !! id) ∧ keys_grow s s1.
Proof.
  destruct (addNode_run id attrs embedding s) as (s1 & Hrun & Hn & He & _).
  exists s1. split; [done|]. split; [done|]. split.
  - rewrite Hn, lookup_insert_eq. eauto.
  - intros k Hk. rewrite Hn. destruct (decide (id = k)) as [->|Hne].
    + rewrite lookup_insert_eq. eauto.
    + by rewrite lookup_insert_ne.
Qed.

Lemma addEdge_graph (a b rel : string) s :
  ∃ s1, addEdge (num:=num) a b rel s = (Return tt, s1) ∧
        nodesMap s1 = nodesMap s ∧
        edges s1 = edges s ++ [{| source := a; target := b; relation := rel |}].
Proof. eexists. split; [reflexivity|]. split; reflexivity. Qed.

(** A node, then (when [flag] holds) its location and the link to it. *)
Lemma node_and_location_wired (nodeId locId rel : string)
    (attrs locAttrs : gmap string (value num)) (emb : list num)
    (flag : bool) s :
  wired s →
  ∃ s1,
    (addNode nodeId attrs (Some emb) ;;
     if flag then addNode locId locAttrs None ;; addEdge nodeId locId rel
     else mret tt) s = (Return tt, s1) ∧
    wired s1 ∧ keys_grow s s1 ∧ is_Some (nodesMap s1 !! nodeId).
Proof.
  intros Hw. rewrite bind_run.
  destruct (addNode_graph nodeId attrs (Some emb) s)
    as (s1 & -> & He1 & Hin1 & Hg1).
  assert (Hw1 : wired s1).
  { unfold wired. rewrite He1. by apply (endpoints_registered_grow (nodesMap s)). }
  destruct flag; [|by exists s1].
  rewrite bind_run.
  destruct (addNode_graph locId locAttrs None s1)
    as (s2 & -> & He2 & Hin2 & Hg2).
  destruct (addEdge_graph nodeId locId rel s2) as (s3 & -> & Hn3 & He3).
  exists s3. split; [done|].
  assert (Hnode : is_Some (nodesMap s3 !! nodeId)).
  { rewrite Hn3. by apply Hg2. }
  split; [|split; [|done]].
  - unfold wired. rewrite He3, Hn3. apply endpoints_registered_snoc; simpl.
    + rewrite He2. by apply (endpoints_registered_grow (nodesMap s1)).
    + by apply Hg2.
    + done.
  - intros k Hk. rewrite Hn3. by apply Hg2, Hg1.
Qed.

Lemma request_graph c s :
  nodesMap (exec (request c) s) = nodesMap s ∧
  edges (exec (request c) s) = edges s.
Proof. split; reflexivity. Qed.

Lemma request_wired c s : wired s → wired (exec (request c) s).
Proof.
  intros Hw. unfold wired.
  destruct (request_graph c s) as [-> ->]. exact Hw.
Qed.

Lemma request_keys_grow c s : keys_grow s (exec (request c) s).
Proof. intros k. by destruct (request_graph c s) as [-> _]. Qed.

(** One record: the graph stays wired and loses no entity; when the record
    is ingested without a throw, its entity is in the store. *)
Lemma ingestRecord_wired d s :
  wired s →
  wired (exec (ingestRecord env d) s) ∧
  keys_grow s (exec (ingestRecord env d) s) ∧
  ((ingestRecord env d s).1 = Return tt →
   is_Some (nodesMap (exec (ingestRecord env d) s) !! recordId d)).
Proof.
  intros Hw.
  destruct (fetchEmbedding env (cleanInput (recordText d))) as [err|emb] eqn:Hf.
  { unfold exec. rewrite (ingestRecord_refused env d s err Hf). simpl.
    split; [by apply request_wired|]. split; [apply request_keys_grow|done]. }
  set (s0 := exec (request (CallEmbedding (cleanInput (recordText d)))) s).
  assert (Hw0 : wired s0) by by apply request_wired.
  assert (Hg0 : keys_grow s s0) by apply request_keys_grow.
  unfold exec.
  destruct d as [p|e|p]; simpl in Hf, s0; simpl;
    unfold ingestPaper, ingestEvent, ingestPolicy; cbv zeta;
    rewrite bind_run, getEmbedding_run, Hf; fold s0.
  - destruct (addNode_graph ("paper:" +:+ tmpl (paper_id p))
      (<["type":=VStr "Paper"]> (<["title":=of_field (paper_title p)]>
         (<["summary":=of_field (paper_summary p)]>
            (<["published":=of_field (paper_published p)]> ∅))))
      (Some emb) s0) as (s1 & -> & He1 & Hin1 & Hg1).
    simpl. split; [|split; [|done]].
    + unfold wired. rewrite He1.
      by apply (endpoints_registered_grow (nodesMap s0)).
    + exact (keys_grow_trans _ _ _ Hg0 Hg1).
  - match goal with
    | |- context [(addNode ?i ?a (Some emb) ;;
                   if ?f then addNode ?l ?la None ;; addEdge _ _ ?r
                   else mret tt) s0] =>
        destruct (node_and_location_wired i l r a la emb f s0 Hw0)
          as (s1 & -> & Hw1 & Hg1 & Hin1)
    end.
    simpl. split; [done|]. split; [exact (keys_grow_trans _ _ _ Hg0 Hg1) | done].
  - match goal with
    | |- context [(addNode ?i ?a (Some emb) ;;
                   if ?f then addNode ?l ?la None ;; addEdge _ _ ?r
                   else mret tt) s0] =>
        destruct (node_and_location_wired i l r a la emb f s0 Hw0)
          as (s1 & -> & Hw1 & Hg1 & Hin1)
    end.
    simpl. split; [done|]. split; [exact (keys_grow_trans _ _ _ Hg0 Hg1) | done].
Qed.

(** The loop over the records: wired, no entity lost, and after a run
    without a throw every record has its entity. *)
Lemma ingestRecords_wired (l : list record) s :
  wired s →
  wired (exec (for_of l (ingestRecord env)) s) ∧
  keys_grow s (exec (for_of l (ingestRecord env)) s) ∧
  ((for_of l (ingestRecord env) s).1 = Return tt →
   ∀ d, d ∈ l →
     is_Some (nodesMap (exec (for_of l (ingestRecord env)) s) !! recordId d)).
Proof.
  revert s. induction l as [|d l IH]; intros s Hw.
  { split; [done|]. split; [apply keys_grow_refl|].
    intros _ d Hd. by apply elem_of_nil in Hd. }
  destruct (ingestRecord_wired d s Hw) as (Hw1 & Hg1 & Hin1).
  unfold exec in *. cbn [for_of]. rewrite bind_run.
  destruct (ingestRecord env d s) as [[[]|e] s1]; simpl in *; [|done].
  destruct (IH s1 Hw1) as (Hw2 & Hg2 & Hin2).
  split; [done|]. split; [exact (keys_grow_trans _ _ _ Hg1 Hg2)|].
  intros Hret d' Hd'. apply elem_of_cons in Hd' as [->|Hd'].
  - by apply Hg2, Hin1.
  - by apply Hin2.
Qed.

Lemma linkPaperEvent_wired (p : paper) (e : event num) s :
  is_Some (nodesMap s !! recordId (num:=num) (RPaper p)) →
  is_Some (nodesMap s !! recordId (REvent e)) →
  wired s →
  ∃ s1, linkPaperEvent env p e s = (Return tt, s1) ∧
        nodesMap s1 = nodesMap s ∧ wired s1.
Proof.
  intros Hp He Hw. unfold linkPaperEvent. cbv zeta.
  destruct (mentions env p e); [|by exists s].
  match goal with
  | |- context [addEdge ?a ?b ?r s] =>
      destruct (addEdge_graph a b r s) as (s1 & -> & Hn1 & He1)
  end.
  exists s1. split; [done|]. split; [done|].
  unfold wired. rewrite He1, Hn1. by apply endpoints_registered_snoc.
Qed.

Lemma deriveLinks_wired (papers : list paper) (events : list (event num)) s :
  (∀ p, p ∈ papers → is_Some (nodesMap s !! recordId (num:=num) (RPaper p))) →
  (∀ e, e ∈ events → is_Some (nodesMap s !! recordId (REvent e))) →
  wired s →
  ∃ s1, deriveLinks env papers events s = (Return tt, s1) ∧
        nodesMap s1 = nodesMap s ∧ wired s1.
Proof.
  intros Hps Hes Hw. unfold deriveLinks.
  revert s Hps Hes Hw. induction papers as [|p papers IHp]; intros s Hps Hes Hw.
  { by exists s. }
  cbn [for_of]. rewrite bind_run.
  assert (Hinner : ∀ (es : list (event num)) s0,
    (∀ e, e ∈ es → is_Some (nodesMap s0 !! recordId (REvent e))) →
    is_Some (nodesMap s0 !! recordId (num:=num) (RPaper p)) → wired s0 →
    ∃ s1, for_of es (linkPaperEvent env p) s0 = (Return tt, s1) ∧
          nodesMap s1 = nodesMap s0 ∧ wired s1).
  { induction es as [|e es IHe]; intros s0 Hes0 Hp0 Hw0; [by exists s0|].
    cbn [for_of]. rewrite bind_run.
    destruct (linkPaperEvent_wired p e s0 Hp0) as (s1 & -> & Hn1 & Hw1);
      [apply Hes0, list_elem_of_here | done |].
    destruct (IHe s1) as (s2 & -> & Hn2 & Hw2).
    - intros e' He'. rewrite Hn1. by apply Hes0, list_elem_of_further.
    - by rewrite Hn1.
    - done.
    - exists s2. split; [done|]. split; [congruence | done]. }
  destruct (Hinner events s Hes) as (s1 & -> & Hn1 & Hw1);
    [apply Hps, list_elem_of_here | done |].
  destruct (IHp s1) as (s2 & -> & Hn2 & Hw2).
  - intros p' Hp'. rewrite Hn1. by apply Hps, list_elem_of_further.
  - intros e He. rewrite Hn1. by apply Hes.
  - done.
  - exists s2. split; [done|]. split; [congruence | done].
Qed.

End WiredFacts.

Section WiredIngest.
Context {num : Type} `{Number num} (env : Env num).
Implicit Types (s : AppState num).

Lemma ingestSteps_wired s : wired s → wired (exec (ingestSteps env) s).
Proof.
  intros Hw. unfold exec.
  destruct (papersJson s) as [papers|] eqn:Hp; cycle 1.
  { unfold ingestSteps. rewrite bind_run, bind_run. cbn [gets]. by rewrite Hp. }
  destruct (eventsJson s) as [events|] eqn:He; cycle 1.
  { unfold ingestSteps. rewrite bind_run, bind_run. cbn [gets]. rewrite Hp.
    cbn [parse mret M_ret]. rewrite bind_run, bind_run. cbn [gets].
    by rewrite He. }
  destruct (policiesJson s) as [policies|] eqn:Hpo; cycle 1.
  { unfold ingestSteps. rewrite bind_run, bind_run. cbn [gets]. rewrite Hp.
    cbn [parse mret M_ret]. rewrite bind_run, bind_run. cbn [gets].
    rewrite He. cbn [parse mret M_ret]. rewrite bind_run, bind_run.
    cbn [gets]. by rewrite Hpo. }
  rewrite (ingestSteps_run env papers events policies s Hp He Hpo), bind_run.
  destruct (ingestRecords_wired env (records papers events policies) s Hw)
    as (Hw1 & Hg1 & Hin1).
  unfold exec in *.
  destruct (for_of (records papers events policies) (ingestRecord env) s)
    as [[[]|e] s1]; simpl in *; [|done].
  destruct (deriveLinks_wired env papers events s1) as (s2 & -> & _ & Hw2);
    [| |done|done].
  - intros p Hp1. apply Hin1; [done|].
    unfold records. apply elem_of_app. left. by apply list_elem_of_fmap_2.
  - intros e He1. apply Hin1; [done|].
    unfold records. apply elem_of_app. right. apply elem_of_app. left.
    by apply list_elem_of_fmap_2.
Qed.

Lemma setError_wired (v : string) s : wired s → wired (exec (setError v) s).
Proof. intros Hw. exact Hw. Qed.

Lemma setLoadingIngest_wired (v : bool) s :
  wired s → wired (exec (setLoadingIngest v) s).
Proof. intros Hw. exact Hw. Qed.

Lemma prepared_wired s : wired (prepared s).
Proof.
  unfold wired. destruct (prepared_cleared s) as (_ & -> & _). constructor.
Qed.

(** With a key, whatever the state before, the call leaves a graph whose
    relationships all join two registered entities: also when a text area is
    rejected or a request refused. *)
Lemma ingestAll_wired s :
  truthy (OPENAI_API_KEY env) = true → wired (exec (ingestAll env) s).
Proof.
  intros Hkey.
  assert (Hrun : exec (ingestAll env) s
    = exec (try_finally
              (try_catch (ingestSteps env)
                 (λ message, setError (ingestFailure message)))
              (setLoadingIngest false)) (prepared s)).
  { unfold exec. by rewrite (ingestAll_key env s Hkey). }
  rewrite Hrun, try_finally_exec, try_catch_exec.
  pose proof (ingestSteps_wired (prepared s) (prepared_wired s)) as Hw.
  apply setLoadingIngest_wired.
  destruct (ingestSteps env (prepared s)).1; [exact Hw|].
  apply setError_wired, Hw.
Qed.

(** So the handshake equality holds of every graph the ingestion builds. *)
Lemma ingestAll_handshake s :
  truthy (OPENAI_API_KEY env) = true →
  let s' := exec (ingestAll env) s in
  total_degree (degrees (nodesMap s') (edges s')) = 2 * length (edges s').
Proof.
  intros Hkey s'. rewrite degrees_total.
  pose proof (ingestAll_wired s Hkey) as Hw. unfold wired in Hw.
  by apply registered_endpoints_all.
Qed.

End WiredIngest.

(** C3 (as amended).  The degrees of all entities add up to the number of
    relationship endpoints that are registered entities: never more than
    twice the number of relationships, and exactly twice that number when
    every relationship joins two registered entities.  This is the case of
    every graph a call of the ingestion with an API key leaves, from any
    state, on any input and with any provider. *)
Theorem handshake :
  (∀ (num : Type) (nodesMap : gmap string (gmap string (value num)))
     (edges : list edge),
     total_degree (degrees nodesMap edges)
     = registered_endpoints nodesMap edges ∧
     total_degree (degrees nodesMap edges) ≤ 2 * length edges ∧
     (endpoints_registered nodesMap edges →
      total_degree (degrees nodesMap edges) = 2 * length edges)) ∧
  (∀ (num : Type) (N : Number num) (env : Env num) (s : AppState num),
     truthy (OPENAI_API_KEY env) = true →
     let s' := exec (ingestAll env) s in
     endpoints_registered (nodesMap s') (edges s') ∧
     total_degree (degrees (nodesMap s') (edges s')) = 2 * length (edges s')).
Proof.
  split.
  - intros num nodesMap edges. rewrite degrees_total. split; [done|]. split.
    + apply registered_endpoints_le.
    + apply registered_endpoints_all.
  - intros num N env s Hkey s'. split.
    + pose proof (ingestAll_wired env s Hkey) as Hw.
      unfold wired in Hw. exact Hw.
    + exact (ingestAll_handshake env s Hkey).
Qed.

(** C3 on the scenario (one relationship between the two entities, degrees
    1 and 1) and on the graph built from the demonstration boxes (three
    relationships). *)
Lemma handshake_witness :
  total_degree (degrees exact_nodes [occurs_in]) = 2%nat ∧
  total_degree
    (degrees (nodesMap (exec (ingestAll demo_env) demo_mounted))
             (edges (exec (ingestAll demo_env) demo_mounted)))
  = 6%nat.
Proof.
  assert (Hreg : endpoints_registered exact_nodes [occurs_in]).
  { repeat constructor; simpl; eexists; reflexivity. }
  split.
  - exact (proj2 (proj2 (proj1 handshake R exact_nodes [occurs_in])) Hreg).
  - destruct (proj2 handshake float Binary64 demo_env demo_mounted eq_refl)
      as [_ Hsum].
    rewrite Hsum. vm_compute. reflexivity.
Defined.

(** C3 as stated fails: the loop skips an endpoint that is not a key of the
    store, so one relationship towards the unregistered "location:Y" gives a
    degree sum of 1, not 2. *)
Lemma handshake_fails_on_dangling_endpoint :
  total_degree (degrees exact_nodes [dangling]) = 1%nat ∧
  total_degree (degrees exact_nodes [dangling]) ≠ 2 * length [dangling].
Proof.
  assert (Hone : total_degree (degrees exact_nodes [dangling]) = 1%nat).
  { rewrite degrees_total. reflexivity. }
  split; [exact Hone|]. rewrite Hone. simpl. lia.
Qed.

(** ** The scenarios of the specification, run in binary64 *)

(** One event of severity 0.9 in region X: two entities, one relationship,
    centrality 1 and risk 0.95 for the event. *)
Lemma scenario_single_event :
  let s := exec (ingestAll demo_env) (mounted [] [demo_event] [] "") in
  size (nodesMap s) = 2%nat ∧
  edges s = [ {| source := "event:event_demo_1"; target := "location:X";
                 relation := "OCCURS_IN" |} ] ∧
  metrics demo_env (nodesMap s) (edges s) !! "event:event_demo_1"
  = Some {| degree_centrality := 1%float;
            risk_score := 0x1.e666666666666p-1%float |}.
Proof. split; [|split]; vm_compute; reflexivity. Qed.

(** The demonstration boxes, ingested and then queried: the paper and the
    policy both score 1 against the question and keep the order in which
    their embeddings were stored, ahead of the event, which scores 0. *)
Lemma scenario_ranking :
  let s := exec (submitRagQuery demo_env)
             (exec (ingestAll demo_env) demo_mounted) in
  (embeddingsRef s).*1
  = ["paper:arxiv_demo_1"; "event:event_demo_1"; "policy:policy_demo_1"] ∧
  (λ c, (c !! "id", c !! "similarity")) <$> ragContexts s
  = [ (Some (VStr "paper:arxiv_demo_1"), Some (VNum 1%float));
      (Some (VStr "policy:policy_demo_1"), Some (VNum 1%float));
      (Some (VStr "event:event_demo_1"), Some (VNum 0%float)) ].
Proof. split; vm_compute; reflexivity. Qed.

(** ** Vectors of different lengths, and the range of the similarity *)

Lemma zip_common_prefix {A B} (a : list A) (b : list B) :
  zip a b = zip (take (length b) a) (take (length a) b).
Proof.
  revert b. induction a as [|x a IH]; intros [|y b]; simpl; [done..|].
  by rewrite <-IH.
Qed.

(** X2.  Dot product of unequal lengths.  In either arithmetic, [dot] reads
    the two arrays up to the length of the shorter one and no further: it is
    the dot product of the two prefixes of that length, whatever follows in
    the longer array. *)
Theorem dot_common_prefix {num : Type} `{Number num} (a b : list num) :
  dot a b = dot (take (length b) a) (take (length a) b).
Proof. unfold dot. by rewrite <-zip_common_prefix. Qed.

Lemma dot_acc (a b : list R) (acc : R) :
  fold_left (λ s p, s + p.1 * p.2)%R (zip a b) acc
  = (acc + fold_left (λ s p, s + p.1 * p.2) (zip a b) 0)%R.
Proof.
  revert b acc. induction a as [|x a IH]; intros [|y b] acc; simpl; try lra.
  rewrite IH, (IH _ (0 + x * y)%R). lra.
Qed.

Lemma dot_comm_exact (a b : list R) : dot a b = dot b a.
Proof.
  unfold dot; simpl. revert b. induction a as [|x a IH]; intros [|y b]; simpl; try done.
  rewrite dot_acc, (dot_acc b a). rewrite IH. lra.
Qed.

(** The inequality of Cauchy and Schwarz, on the common prefix. *)
Lemma cauchy_schwarz (a b : list R) :
  (dot a b * dot a b
   <= fold_left (λ s x, s + x * x) a 0 * fold_left (λ s x, s + x * x) b 0)%R.
Proof.
  unfold dot; simpl. revert b. induction a as [|x a IH]; intros [|y b]; simpl.
  - lra.
  - lra.
  - pose proof (sum_squares_nonneg (x :: a)) as Hx. simpl in Hx. nra.
  - rewrite dot_acc, (sum_squares_acc a), (sum_squares_acc b).
    specialize (IH b).
    pose proof (sum_squares_nonneg a) as HA. pose proof (sum_squares_nonneg b) as HB.
    set (A := fold_left _ a 0%R) in *. set (B := fold_left _ b 0%R) in *.
    set (D := fold_left _ (zip a b) 0%R) in *.
    assert (2 * (x * y) * D <= A * (y * y) + B * (x * x))%R as Hk.
    { destruct (Req_dec A 0) as [HA0|HA0].
      - assert (D = 0)%R by nra. subst A. rewrite HA0 in *. nra.
      - assert (0 < A)%R by lra.
        pose proof (Rle_0_sqr (A * y - D * x)) as Hs. unfold Rsqr in Hs.
        assert (A * (2 * (x * y) * D) <= A * (A * (y * y) + B * (x * x)))%R by nra.
        apply Rmult_le_reg_l with A; done. }
    nra.
Qed.

Lemma cosineSim_range_exact (a b : list R) :
  (-1 <= cosineSim a b <= 1)%R.
Proof.
  unfold cosineSim, norm; simpl.
  pose proof (sum_squares_nonneg a) as HA. pose proof (sum_squares_nonneg b) as HB.
  pose proof (cauchy_schwarz a b) as Hcs.
  set (A := fold_left _ a 0%R) in *. set (B := fold_left _ b 0%R) in *.
  destruct (bool_decide_reflect (sqrt A = 0%R)) as [|Hna]; simpl; [lra|].
  destruct (bool_decide_reflect (sqrt B = 0%R)) as [|Hnb]; simpl; [lra|].
  pose proof (sqrt_pos A). pose proof (sqrt_pos B).
  assert (0 < sqrt A * sqrt B)%R as Hpos by nra.
  pose proof (sqrt_sqrt A HA) as HsA. pose proof (sqrt_sqrt B HB) as HsB.
  set (D := dot a b) in *. set (p := (sqrt A * sqrt B)%R) in *.
  assert (D * D <= p * p)%R as Hle by (unfold p; nra).
  assert (- p <= D <= p)%R as [Hlo Hhi] by nra.
  split.
  - apply Rmult_le_reg_r with p; [done|]. unfold Rdiv.
    rewrite Rmult_assoc, Rinv_l by lra. lra.
  - apply Rmult_le_reg_r with p; [done|]. unfold Rdiv.
    rewrite Rmult_assoc, Rinv_l by lra. lra.
Qed.

(** X3.  Range of the similarity.  In exact arithmetic [cosineSim] lies
    between -1 and 1 for all vectors, of equal length or not (the norms are
    taken over the whole arrays, the dot product over the common prefix).
    The arithmetic of the engine does not keep this range: in binary64 the
    similarity of [1, 1, 1] to itself is above 1, and that of [2^600] to
    itself is NaN. *)
Theorem cosineSim_bounded :
  (∀ a b : list R, (-1 <= cosineSim a b <= 1)%R) ∧
  cosineSim [1; 1; 1]%float [1; 1; 1]%float = 0x1.0000000000001p+0%float ∧
  PrimFloat.ltb 1 (cosineSim [1; 1; 1]%float [1; 1; 1]%float) = true ∧
  cosineSim [0x1p600]%float [0x1p600]%float = nan.
Proof.
  split; [exact cosineSim_range_exact|]. repeat split; reflexivity.
Qed.

(** X4.  Symmetry of the similarity.  In exact arithmetic [cosineSim a b] and
    [cosineSim b a] are the same number. *)
Theorem cosineSim_symmetric (a b : list R) : cosineSim a b = cosineSim b a.
Proof.
  unfold cosineSim. rewrite (dot_comm_exact a b), orb_comm.
  cbv zeta. destruct (falsy (norm b) || falsy (norm a)); [done|].
  unfold ndiv, nmul, Exact. by rewrite (Rmult_comm (norm a) (norm b)).
Qed.

(** ** Strings *)

Lemma string_app_cons (c : ascii) (a b : string) :
  String c a +:+ b = String c (a +:+ b).
Proof. reflexivity. Qed.

Lemma string_app_nil_l (b : string) : "" +:+ b = b.
Proof. reflexivity. Qed.

Lemma string_app_nil_r (s : string) : s +:+ "" = s.
Proof. induction s as [|c s IH]; [done|by rewrite string_app_cons, IH]. Qed.

Lemma string_app_assoc (a b c : string) : (a +:+ b) +:+ c = a +:+ (b +:+ c).
Proof. induction a as [|x a IH]; [done|by rewrite !string_app_cons, IH]. Qed.

Lemma string_rev_app_spec (a b : string) : String.rev_app a b = String.rev a +:+ b.
Proof.
  unfold String.rev. revert b. induction a as [|x a IH]; intros b; simpl; [done|].
  rewrite IH, (IH (String x "")), string_app_assoc. done.
Qed.

Lemma string_rev_app_distr (a b : string) :
  String.rev (a +:+ b) = String.rev b +:+ String.rev a.
Proof.
  induction a as [|x a IH]; [by rewrite string_app_nil_l, string_app_nil_r|].
  rewrite string_app_cons. unfold String.rev at 1 3. simpl.
  rewrite !string_rev_app_spec, IH, string_app_assoc. done.
Qed.

Lemma string_rev_involutive (s : string) : String.rev (String.rev s) = s.
Proof.
  induction s as [|x s IH]; [done|].
  unfold String.rev at 2. simpl. rewrite string_rev_app_spec, string_rev_app_distr, IH. done.
Qed.

Lemma string_length_app (a b : string) :
  String.length (a +:+ b) = (String.length a + String.length b)%nat.
Proof.
  induction a as [|x a IH]; [done|]. rewrite string_app_cons. simpl. by rewrite IH.
Qed.

Lemma string_length_rev (s : string) : String.length (String.rev s) = String.length s.
Proof.
  induction s as [|x s IH]; [done|].
  unfold String.rev. simpl. rewrite string_rev_app_spec, string_length_app.
  rewrite IH. simpl. lia.
Qed.

Lemma without_prefix_spec (p s r : string) :
  without_prefix p s = Some r ↔ s = p +:+ r.
Proof.
  revert s. induction p as [|a p IH]; intros s.
  - rewrite string_app_nil_l. simpl. split; congruence.
  - rewrite string_app_cons. destruct s as [|b s]; simpl; [done|].
    destruct (Ascii.eqb_spec a b) as [->|Hab].
    + rewrite IH. split; congruence.
    + split; [done|]. intros [=]. done.
Qed.

Lemma strip_one_Some (pats : list string) (s r : string) :
  strip_one pats s = Some r → ∃ p, p ∈ pats ∧ s = p +:+ r.
Proof.
  induction pats as [|p pats IH]; simpl; [done|].
  destruct (without_prefix p s) as [r'|] eqn:Hp.
  - intros [= ->]. exists p. split; [by left|]. by apply without_prefix_spec.
  - intros (q & Hq & Hs)%IH. exists q. split; [by right|done].
Qed.

Lemma strip_one_None (pats : list string) (s : string) :
  strip_one pats s = None ↔ ∀ p, p ∈ pats → without_prefix p s = None.
Proof.
  induction pats as [|p pats IH]; simpl.
  - split; [|done]. by intros _ p ?%elem_of_nil.
  - destruct (without_prefix p s) as [r'|] eqn:Hp.
    + split; [done|]. intros Hall. rewrite Hall in Hp; [done|by left].
    + rewrite IH. split.
      * intros Hall q [->|Hq]%elem_of_cons; [done|by apply Hall].
      * intros Hall q Hq. apply Hall. by right.
Qed.

(** What is left starts with none of the patterns, once the fuel covers
    the length. *)
Lemma strip_all_clean (pats : list string) (n : nat) (s : string) :
  Forall (λ p, p ≠ "") pats → (String.length s ≤ n)%nat →
  strip_one pats (strip_all pats n s) = None.
Proof.
  intros Hne. revert s. induction n as [|n IH]; intros s Hlen; simpl.
  - destruct s; [|simpl in Hlen; lia].
    apply strip_one_None. intros p Hp.
    rewrite Forall_forall in Hne. specialize (Hne p Hp). by destruct p.
  - destruct (strip_one pats s) as [r|] eqn:Hs; [|done].
    apply IH. apply strip_one_Some in Hs as (p & Hp & ->).
    rewrite Forall_forall in Hne. specialize (Hne p Hp).
    rewrite string_length_app in Hlen. destruct p; [done|]. simpl in Hlen. lia.
Qed.

Lemma strip_all_fixed (pats : list string) (n : nat) (s : string) :
  strip_one pats s = None → strip_all pats n s = s.
Proof. intros Hs. destruct n; simpl; [done|by rewrite Hs]. Qed.

Lemma strip_all_suffix (pats : list string) (n : nat) (s : string) :
  ∃ w, s = w +:+ strip_all pats n s.
Proof.
  revert s. induction n as [|n IH]; intros s; simpl; [by exists ""|].
  destruct (strip_one pats s) as [r|] eqn:Hs; [|by exists ""].
  apply strip_one_Some in Hs as (p & _ & ->).
  destruct (IH r) as [w Hw]. exists (p +:+ w).
  by rewrite string_app_assoc, <-Hw.
Qed.

(** A string that starts with none of the patterns has no prefix that
    starts with one. *)
Lemma strip_one_None_app_l (pats : list string) (a b : string) :
  strip_one pats (a +:+ b) = None → strip_one pats a = None.
Proof.
  rewrite !strip_one_None. intros Hall p Hp. specialize (Hall p Hp).
  destruct (without_prefix p a) as [r|] eqn:Hr; [|done].
  apply without_prefix_spec in Hr as ->.
  rewrite string_app_assoc in Hall.
  by rewrite (proj2 (without_prefix_spec p _ (r +:+ b)) eq_refl) in Hall.
Qed.

Lemma white_space_nonempty : Forall (λ p, p ≠ "") white_space.
Proof. unfold white_space. simpl. repeat constructor; discriminate. Qed.

Lemma white_space_rev_nonempty :
  Forall (λ p, p ≠ "") (String.rev <$> white_space).
Proof. unfold white_space. simpl. repeat constructor; discriminate. Qed.

(** Each of the white-space code points is stripped, at either end. *)
Lemma trim_white_space :
  Forall (λ p, trim (p +:+ "a") = "a" ∧ trim ("a" +:+ p) = "a" ∧ trim p = "")
         white_space.
Proof. unfold white_space. simpl. repeat constructor. Qed.

Lemma trimStart_clean (s : string) : strip_one white_space (trimStart s) = None.
Proof. apply strip_all_clean; [apply white_space_nonempty|done]. Qed.

Lemma trimStart_fixed (s : string) :
  strip_one white_space s = None → trimStart s = s.
Proof. apply strip_all_fixed. Qed.

Lemma trimStart_suffix (s : string) : ∃ w, s = w +:+ trimStart s.
Proof. apply strip_all_suffix. Qed.

Lemma trimEnd_prefix (s : string) : ∃ w, s = trimEnd s +:+ w.
Proof.
  unfold trimEnd.
  destruct (strip_all_suffix (String.rev <$> white_space) (String.length s)
              (String.rev s)) as [w Hw].
  exists (String.rev w).
  by rewrite <-string_rev_app_distr, <-Hw, string_rev_involutive.
Qed.

Lemma trimEnd_clean (s : string) :
  strip_one (String.rev <$> white_space) (String.rev (trimEnd s)) = None.
Proof.
  unfold trimEnd. rewrite string_rev_involutive.
  apply strip_all_clean; [apply white_space_rev_nonempty|].
  by rewrite string_length_rev.
Qed.

Lemma trimEnd_fixed (s : string) :
  strip_one (String.rev <$> white_space) (String.rev s) = None → trimEnd s = s.
Proof.
  intros Hs. unfold trimEnd. by rewrite strip_all_fixed, string_rev_involutive.
Qed.

Lemma trim_fixed (s : string) : trim (trim s) = trim s.
Proof.
  unfold trim. set (u := trimStart s). set (t := trimEnd u).
  assert (Ht : strip_one white_space t = None).
  { destruct (trimEnd_prefix u) as [w Hw]. fold t in Hw.
    apply (strip_one_None_app_l _ t w). rewrite <-Hw. apply trimStart_clean. }
  rewrite (trimStart_fixed _ Ht). apply trimEnd_fixed, trimEnd_clean.
Qed.

Lemma elem_of_chars_app (c : ascii) (a b : string) :
  c ∈ list_ascii_of_string (a +:+ b)
  ↔ c ∈ list_ascii_of_string a ∨ c ∈ list_ascii_of_string b.
Proof.
  induction a as [|x a IH].
  - rewrite string_app_nil_l. simpl. rewrite elem_of_nil. tauto.
  - rewrite string_app_cons. simpl. rewrite !elem_of_cons, IH. tauto.
Qed.

Lemma elem_of_chars_rev (c : ascii) (s : string) :
  c ∈ list_ascii_of_string (String.rev s) ↔ c ∈ list_ascii_of_string s.
Proof.
  induction s as [|x s IH]; [done|].
  unfold String.rev. simpl. rewrite string_rev_app_spec, elem_of_chars_app, IH. simpl.
  rewrite !elem_of_cons, elem_of_nil. tauto.
Qed.

Lemma elem_of_chars_trim (c : ascii) (s : string) :
  c ∈ list_ascii_of_string (trim s) → c ∈ list_ascii_of_string s.
Proof.
  unfold trim. intros Hc.
  destruct (trimStart_suffix s) as [w Hw].
  destruct (trimEnd_prefix (trimStart s)) as [w' Hw'].
  rewrite Hw, elem_of_chars_app. right.
  rewrite Hw', elem_of_chars_app. by left.
Qed.

Lemma replace_newlines_chars (s : string) :
  "010"%char ∉ list_ascii_of_string (replace_newlines s).
Proof.
  induction s as [|x s IH]; simpl; [apply not_elem_of_nil|].
  rewrite elem_of_cons. intros [Hx|Hx]; [|done].
  destruct (bool_decide_reflect (x = "010"%char)); [discriminate|]. by subst.
Qed.

Lemma replace_newlines_fixed (s : string) :
  "010"%char ∉ list_ascii_of_string s → replace_newlines s = s.
Proof.
  induction s as [|x s IH]; simpl; [done|].
  rewrite elem_of_cons. intros Hn.
  rewrite bool_decide_eq_false_2 by (intros ->; apply Hn; by left).
  rewrite IH; [done|]. intros ?. apply Hn. by right.
Qed.

Lemma cleanInput_spec (text : string) :
  let clean := cleanInput text in
  clean ≠ "" ∧
  ("010"%char ∉ list_ascii_of_string clean) ∧
  trim clean = clean ∧
  cleanInput clean = clean.
Proof.
  intros clean.
  assert (Hne : clean ≠ "").
  { unfold clean, cleanInput. cbv zeta.
    destruct (String.eqb_spec (trim (replace_newlines text)) ""); done. }
  assert (Hnl : "010"%char ∉ list_ascii_of_string clean).
  { unfold clean, cleanInput. cbv zeta.
    destruct (String.eqb_spec (trim (replace_newlines text)) "").
    - simpl. rewrite !elem_of_cons, elem_of_nil. intros Hin.
      repeat (destruct Hin as [Hin|Hin]; [discriminate|]). done.
    - intros Hin%elem_of_chars_trim. by apply replace_newlines_chars in Hin. }
  assert (Htr : trim clean = clean).
  { unfold clean, cleanInput. cbv zeta.
    destruct (String.eqb_spec (trim (replace_newlines text)) ""); [done|].
    apply trim_fixed. }
  split; [done|]. split; [done|]. split; [done|].
  unfold cleanInput at 1. cbv zeta.
  rewrite (replace_newlines_fixed clean Hnl), Htr.
  by destruct (String.eqb_spec clean "").
Qed.
#[export] Instance same_panels_preorder {num} : PreOrder (same_panels (num:=num)).
Proof.
  split.
  - intros s. unfold same_panels. tauto.
  - intros s1 s2 s3. unfold same_panels. intuition congruence.
Qed.

Section RunFacts.
Context {num : Type} `{Number num} (env : Env num).
Implicit Types (s : AppState num) (r : record (num:=num)).

Ltac panels_step :=
  lazymatch goal with
  | |- stable _ (mret _) => apply stable_ret; apply _
  | |- stable _ (throw _) => apply stable_throw; apply _
  | |- stable _ (gets _) => apply stable_gets; apply _
  | |- stable _ (modify _) =>
      apply stable_modify; intros ?; unfold same_panels; simpl; tauto
  | |- stable _ (mbind _ _) => apply stable_bind; [apply _ | | intros ?]
  | |- stable _ (for_of _ _) => apply stable_for_of; [apply _ | intros ?]
  | |- stable _ (try_catch _ _) =>
      apply stable_try_catch; [apply _ | | intros ?]
  | |- stable _ (try_finally _ _) => apply stable_try_finally; [apply _ | |]
  | |- stable _ (match ?x with _ => _ end) => destruct x
  end.

Lemma ingestRecord_panels r : stable same_panels (ingestRecord env r).
Proof.
  destruct r; simpl;
  unfold ingestPaper, ingestEvent, ingestPolicy, addNode, addEdge,
    getEmbedding, setNodesMap, setEdges, setEmbeddings, request;
  cbv zeta; repeat panels_step.
Qed.

Lemma deriveLinks_panels papers events :
  stable same_panels (deriveLinks env papers events).
Proof.
  unfold deriveLinks, linkPaperEvent, addEdge, setEdges.
  cbv zeta; repeat panels_step.
Qed.

(** One record, as a request followed by the three graph updates. *)
Lemma ingestRecord_unfold r s :
  ingestRecord env r s
  = (emb ← getEmbedding env (recordText r);
     addNode (recordId r) (recordAttrs r) (Some emb) ;;
     if truthy (recordPlace r) then
       addNode (locationId (recordPlace r)) (locationAttrs (recordPlace r)) None ;;
       addEdge (recordId r) (locationId (recordPlace r)) (recordRelation r)
     else mret tt) s.
Proof.
  destruct r as [p|e|p]; [|reflexivity..].
  simpl. unfold ingestPaper. cbv zeta. rewrite !bind_run.
  destruct (getEmbedding env (paperText p) s) as [[emb|err] s1]; [|done].
  rewrite bind_run.
  match goal with
  | |- context [addNode ?i ?a ?m s1] =>
      destruct (addNode_run i a m s1) as (s2 & -> & _)
  end.
  done.
Qed.

Lemma ingestRecord_graph r s :
  let s1 := exec (ingestRecord env r) s in
  match fetchEmbedding env (cleanInput (recordText r)) with
  | inr emb =>
      (ingestRecord env r s).1 = Return tt ∧
      nodesMap s1 = nodeStep (nodesMap s) r ∧
      embeddingsRef s1 = assign (recordId r) emb (embeddingsRef s) ∧
      edges s1 = edges s ++ option_list (placeLink r)
  | inl errText =>
      (ingestRecord env r s).1 = Throw ("Embedding error: " +:+ errText) ∧
      nodesMap s1 = nodesMap s ∧ embeddingsRef s1 = embeddingsRef s ∧
      edges s1 = edges s
  end ∧
  calls s1 = calls s ++ [CallEmbedding (cleanInput (recordText r))].
Proof.
  intros s1. unfold s1, exec. clear s1.
  destruct (fetchEmbedding env (cleanInput (recordText r))) as [err|emb] eqn:Hf.
  { rewrite (ingestRecord_refused env r s err Hf). simpl. done. }
  rewrite ingestRecord_unfold, bind_run, getEmbedding_run, Hf.
  set (s0 := exec (request (CallEmbedding (cleanInput (recordText r)))) s).
  rewrite bind_run.
  destruct (addNode_run (recordId r) (recordAttrs r) (Some emb) s0)
    as (s1 & -> & Hn1 & He1 & Hm1 & Hc1).
  unfold nodeStep, placeLink. cbv zeta.
  destruct (truthy (recordPlace r)).
  - rewrite bind_run.
    destruct (addNode_run (locationId (recordPlace r))
                (locationAttrs (recordPlace r)) None s1)
      as (s2 & -> & Hn2 & He2 & Hm2 & Hc2).
    destruct (addEdge_graph (num:=num) (recordId r) (locationId (recordPlace r))
                (recordRelation r) s2) as (s3 & Hrun3 & Hn3 & He3).
    assert (Hrest : embeddingsRef s3 = embeddingsRef s2 ∧ calls s3 = calls s2).
    { revert Hrun3. unfold addEdge, setEdges, modify. intros [= <-]. done. }
    rewrite Hrun3. simpl. destruct Hrest as [Hm3 Hc3].
    rewrite Hn3, Hn2, Hn1, Hm3, Hm2, Hm1, He3, He2, He1, Hc3, Hc2, Hc1.
    done.
  - simpl. rewrite Hn1, Hm1, He1, Hc1, app_nil_r. done.
Qed.


Lemma ingestRecords_graph (l : list record) s :
  let s1 := exec (for_of l (ingestRecord env)) s in
  (for_of l (ingestRecord env) s).1 = loopOutcome env l ∧
  nodesMap s1 = foldl nodeStep (nodesMap s) (reached env l) ∧
  embeddingsRef s1
  = foldl (embeddingStep env) (embeddingsRef s) (reached env l) ∧
  edges s1 = edges s ++ omap placeLink (reached env l) ∧
  calls s1 = calls s ++ requested env l.
Proof.
  revert s. induction l as [|r l IH]; intros s; cbv zeta.
  { simpl. by rewrite !app_nil_r. }
  pose proof (ingestRecord_graph r s) as [Hr Hc]. cbv zeta in Hr, Hc.
  specialize (IH (exec (ingestRecord env r) s)). cbv zeta in IH.
  unfold exec in *. cbn [for_of reached requested loopOutcome].
  rewrite bind_run.
  destruct (fetchEmbedding env (cleanInput (recordText r))) as [err|emb] eqn:Hf.
  - assert (Ha : answered env r = false) by (unfold answered; by rewrite Hf).
    rewrite Ha. destruct Hr as (Hout & Hn & Hm & He).
    destruct (ingestRecord env r s) as [[[]|e] s1]; simpl in *; [done|].
    rewrite Hn, Hm, He, Hc, app_nil_r. done.
  - assert (Ha : answered env r = true) by (unfold answered; by rewrite Hf).
    assert (Hv : embeddingOf env r = emb) by (unfold embeddingOf; by rewrite Hf).
    rewrite Ha. destruct Hr as (Hout & Hn & Hm & He).
    destruct (ingestRecord env r s) as [[[]|e] s1]; simpl in *; [|done].
    destruct IH as (IHout & IHn & IHm & IHe & IHc).
    rewrite IHout, IHn, IHm, IHe, IHc, Hn, Hm, He, Hc.
    change (embeddingStep env (embeddingsRef s) r)
      with (assign (recordId r) (embeddingOf env r) (embeddingsRef s)).
    rewrite Hv.
    split; [done|]. split; [done|]. split; [done|].
    split; [|by rewrite <-app_assoc].
    rewrite <-app_assoc. f_equal. by destruct (placeLink r).
Qed.

Lemma linkPaperEvent_graph (p : paper) (e : event num) s :
  ∃ s1, linkPaperEvent env p e s = (Return tt, s1) ∧
    nodesMap s1 = nodesMap s ∧ embeddingsRef s1 = embeddingsRef s ∧
    edges s1 = edges s ++ derivedLinks env [p] [e] ∧ calls s1 = calls s.
Proof.
  unfold linkPaperEvent, derivedLinks. cbv zeta. simpl.
  destruct (mentions env p e); eexists; (split; [reflexivity|]); simpl;
    rewrite ?app_nil_r; done.
Qed.

Lemma derivedLinks_cons (p : paper) (papers : list paper)
    (events : list (event num)) :
  derivedLinks env (p :: papers) events
  = derivedLinks env [p] events ++ derivedLinks env papers events.
Proof. unfold derivedLinks. simpl. by rewrite app_nil_r. Qed.

Lemma derivedLinks_one_cons (p : paper) (e : event num)
    (events : list (event num)) :
  derivedLinks env [p] (e :: events)
  = derivedLinks env [p] [e] ++ derivedLinks env [p] events.
Proof. unfold derivedLinks. simpl. by rewrite !app_nil_r. Qed.

Lemma deriveLinks_graph (papers : list paper) (events : list (event num)) s :
  ∃ s1, deriveLinks env papers events s = (Return tt, s1) ∧
    nodesMap s1 = nodesMap s ∧ embeddingsRef s1 = embeddingsRef s ∧
    edges s1 = edges s ++ derivedLinks env papers events ∧ calls s1 = calls s.
Proof.
  unfold deriveLinks. revert s.
  induction papers as [|p papers IHp]; intros s.
  { exists s. simpl. by rewrite app_nil_r. }
  assert (Hinner : ∀ (es : list (event num)) s0,
    ∃ s1, for_of es (linkPaperEvent env p) s0 = (Return tt, s1) ∧
      nodesMap s1 = nodesMap s0 ∧ embeddingsRef s1 = embeddingsRef s0 ∧
      edges s1 = edges s0 ++ derivedLinks env [p] es ∧ calls s1 = calls s0).
  { induction es as [|e es IHe]; intros s0.
    { exists s0. simpl. by rewrite app_nil_r. }
    cbn [for_of]. rewrite bind_run.
    destruct (linkPaperEvent_graph p e s0) as (s1 & -> & Hn1 & Hm1 & He1 & Hc1).
    destruct (IHe s1) as (s2 & -> & Hn2 & Hm2 & He2 & Hc2).
    exists s2. rewrite Hn2, Hm2, He2, Hc2, Hn1, Hm1, He1, Hc1.
    rewrite (derivedLinks_one_cons p e es), app_assoc. done. }
  cbn [for_of]. rewrite bind_run.
  destruct (Hinner events s) as (s1 & -> & Hn1 & Hm1 & He1 & Hc1).
  destruct (IHp s1) as (s2 & -> & Hn2 & Hm2 & He2 & Hc2).
  exists s2. rewrite Hn2, Hm2, He2, Hc2, Hn1, Hm1, He1, Hc1.
  rewrite (derivedLinks_cons p papers events), app_assoc. done.
Qed.

(** The statements after [resetGraph()], when the three boxes parse. *)
Lemma ingestSteps_graph (papers : list paper) (events : list (event num))
    (policies : list policy) s :
  papersJson s = Some papers → eventsJson s = Some events →
  policiesJson s = Some policies →
  let l := records papers events policies in
  let s1 := exec (ingestSteps env) s in
  (ingestSteps env s).1 = loopOutcome env l ∧
  nodesMap s1 = foldl nodeStep (nodesMap s) (reached env l) ∧
  embeddingsRef s1
  = foldl (embeddingStep env) (embeddingsRef s) (reached env l) ∧
  edges s1
  = edges s ++ omap placeLink (reached env l) ++
    match loopOutcome env l with
    | Return _ => derivedLinks env papers events
    | Throw _ => []
    end ∧
  calls s1 = calls s ++ requested env l.
Proof.
  intros Hp He Hpo l s1. unfold s1, exec. clear s1.
  rewrite (ingestSteps_run env papers events policies s Hp He Hpo), bind_run.
  fold l.
  destruct (ingestRecords_graph l s) as (Hout & Hn & Hm & Hed & Hc).
  unfold exec in *.
  destruct (for_of l (ingestRecord env) s) as [[[]|e] s1]; simpl in *.
  - destruct (deriveLinks_graph papers events s1)
      as (s2 & -> & Hn2 & Hm2 & He2 & Hc2).
    simpl. rewrite <-Hout, Hn2, Hm2, He2, Hc2, Hn, Hm, Hed, Hc.
    by rewrite <-app_assoc.
  - rewrite <-Hout, Hn, Hm, Hed, Hc, app_nil_r. done.
Qed.

Lemma ingestSteps_panels : stable same_panels (ingestSteps env).
Proof.
  unfold ingestSteps, parse.
  apply stable_bind; [apply _ | | intros papers].
  { apply stable_bind; [apply _ | apply stable_gets; apply _ | intros [?|]].
    - apply stable_ret; apply _.
    - apply stable_throw; apply _. }
  apply stable_bind; [apply _ | | intros events].
  { apply stable_bind; [apply _ | apply stable_gets; apply _ | intros [?|]].
    - apply stable_ret; apply _.
    - apply stable_throw; apply _. }
  apply stable_bind; [apply _ | | intros policies].
  { apply stable_bind; [apply _ | apply stable_gets; apply _ | intros [?|]].
    - apply stable_ret; apply _.
    - apply stable_throw; apply _. }
  apply stable_bind; [apply _ | | intros _].
  { apply stable_for_of; [apply _|]. intros p.
    exact (ingestRecord_panels (RPaper p)). }
  apply stable_bind; [apply _ | | intros _].
  { apply stable_for_of; [apply _|]. intros e.
    exact (ingestRecord_panels (REvent e)). }
  apply stable_bind; [apply _ | | intros _].
  { apply stable_for_of; [apply _|]. intros p.
    exact (ingestRecord_panels (RPolicy p)). }
  apply deriveLinks_panels.
Qed.

End RunFacts.

Section RunAll.
Context {num : Type} `{Number num} (env : Env num).
Implicit Types (s st : AppState num) (r : record (num:=num)).

Lemma prepared_panels s :
  error (prepared s) = "" ∧ loadingIngest (prepared s) = true ∧
  ragQuery (prepared s) = ragQuery s ∧ loadingRag (prepared s) = loadingRag s.
Proof. split; [|split; [|split]]; vm_compute; reflexivity. Qed.

(** What the [finally] changes in state [st]. *)
Lemma finally_fields st :
  let sf := exec (setLoadingIngest false) st in
  nodesMap sf = nodesMap st ∧ edges sf = edges st ∧
  embeddingsRef sf = embeddingsRef st ∧ calls sf = calls st ∧
  error sf = error st ∧ loadingIngest sf = false ∧
  selectedNodeId sf = selectedNodeId st ∧
  selectedNodeSummary sf = selectedNodeSummary st ∧
  ragAnswer sf = ragAnswer st ∧ ragContexts sf = ragContexts st ∧
  ragQuery sf = ragQuery st ∧ loadingRag sf = loadingRag st.
Proof. cbv zeta. unfold exec, setLoadingIngest, modify. simpl. tauto. Qed.

(** What the [catch] changes in state [st]. *)
Lemma catch_fields (message : string) st :
  let sf := exec (setError message) st in
  nodesMap sf = nodesMap st ∧ edges sf = edges st ∧
  embeddingsRef sf = embeddingsRef st ∧ calls sf = calls st ∧
  error sf = message ∧ loadingIngest sf = loadingIngest st ∧
  selectedNodeId sf = selectedNodeId st ∧
  selectedNodeSummary sf = selectedNodeSummary st ∧
  ragAnswer sf = ragAnswer st ∧ ragContexts sf = ragContexts st ∧
  ragQuery sf = ragQuery st ∧ loadingRag sf = loadingRag st.
Proof. cbv zeta. unfold exec, setError, modify. simpl. tauto. Qed.

Lemma loopOutcome_message (l : list record) (message : string) :
  loopOutcome env l = Throw message → ingestFailure message = message.
Proof.
  induction l as [|r l IH]; simpl; [done|].
  destruct (fetchEmbedding env (cleanInput (recordText r))); [|done].
  by intros [= <-].
Qed.

(** The first text area that [JSON.parse] rejects. *)
Lemma ingestSteps_rejected s (message : string) :
  match papersJson s, eventsJson s, policiesJson s with
  | None, _, _ => message = "Papers JSON is invalid."
  | Some _, None, _ => message = "Events JSON is invalid."
  | Some _, Some _, None => message = "Policies JSON is invalid."
  | Some _, Some _, Some _ => False
  end →
  ingestSteps env s = (Throw message, s).
Proof.
  intros Hm. unfold ingestSteps. rewrite bind_run, bind_run. cbn [gets].
  destruct (papersJson s) as [papers|]; [|by subst].
  cbn [parse mret M_ret]. rewrite bind_run, bind_run. cbn [gets].
  destruct (eventsJson s) as [events|]; [|by subst].
  cbn [parse mret M_ret]. rewrite bind_run, bind_run. cbn [gets].
  destruct (policiesJson s) as [policies|]; [done|by subst].
Qed.

Lemma ingestAll_run s :
  truthy (OPENAI_API_KEY env) = true →
  exec (ingestAll env) s
  = exec (setLoadingIngest false)
      match (ingestSteps env (prepared s)).1 with
      | Return _ => exec (ingestSteps env) (prepared s)
      | Throw message =>
          exec (setError (ingestFailure message))
            (exec (ingestSteps env) (prepared s))
      end.
Proof.
  intros Hkey.
  assert (Hrun : exec (ingestAll env) s
    = exec (try_finally
              (try_catch (ingestSteps env)
                 (λ message, setError (ingestFailure message)))
              (setLoadingIngest false)) (prepared s)).
  { unfold exec. by rewrite (ingestAll_key env s Hkey). }
  rewrite Hrun, try_finally_exec, try_catch_exec.
  by destruct (ingestSteps env (prepared s)).1.
Qed.

Lemma ingestSteps_panels_exec st : same_panels st (exec (ingestSteps env) st).
Proof. exact (ingestSteps_panels env st). Qed.

(** A run with a key whose three boxes parse, as a fold over the records it
    gets through. *)
Lemma ingestAll_graph (papers : list paper) (events : list (event num))
    (policies : list policy) s :
  truthy (OPENAI_API_KEY env) = true →
  papersJson s = Some papers → eventsJson s = Some events →
  policiesJson s = Some policies →
  let l := records papers events policies in
  let s' := exec (ingestAll env) s in
  nodesMap s' = foldl nodeStep ∅ (reached env l) ∧
  embeddingsRef s' = foldl (embeddingStep env) [] (reached env l) ∧
  edges s'
  = omap placeLink (reached env l) ++
    match loopOutcome env l with
    | Return _ => derivedLinks env papers events
    | Throw _ => []
    end ∧
  calls s' = calls s ++ requested env l ∧
  error s'
  = match loopOutcome env l with
    | Return _ => ""
    | Throw message => message
    end ∧
  loadingIngest s' = false ∧
  selectedNodeId s' = None ∧ selectedNodeSummary s' = "" ∧
  ragAnswer s' = "" ∧ ragContexts s' = [] ∧
  ragQuery s' = ragQuery s ∧ loadingRag s' = loadingRag s.
Proof.
  intros Hkey Hp He Hpo l s'. unfold s'. clear s'.
  rewrite (ingestAll_run s Hkey).
  destruct (prepared_inputs s) as (Hp' & He' & Hpo' & Hc0).
  destruct (prepared_cleared s) as (Hn0 & Hed0 & Hm0 & Hsel0 & Hsum0 & Ha0 & Hx0).
  destruct (prepared_panels s) as (Herr0 & _ & Hq0 & Hl0).
  rewrite <-Hp' in Hp. rewrite <-He' in He. rewrite <-Hpo' in Hpo.
  destruct (ingestSteps_graph env papers events policies (prepared s) Hp He Hpo)
    as (Hout & Hn & Hm & Hed & Hc).
  fold l in Hout, Hn, Hm, Hed, Hc.
  pose proof (ingestSteps_panels_exec (prepared s)) as Hpan.
  destruct Hpan as (Herr & _ & Hsel & Hsum & Hq & Ha & Hx & Hl & _).
  set (s1 := exec (ingestSteps env) (prepared s)) in *.
  rewrite Hout. rewrite Hn0 in Hn. rewrite Hm0 in Hm. rewrite Hed0 in Hed.
  rewrite Hc0 in Hc. simpl in Hed.
  destruct (loopOutcome env l) as [[]|message] eqn:Hloop.
  - destruct (finally_fields s1)
      as (-> & -> & -> & -> & -> & -> & -> & -> & -> & -> & -> & ->).
    rewrite Hn, Hm, Hed, Hc, <-Herr, <-Hsel, <-Hsum, <-Ha, <-Hx, <-Hq, <-Hl.
    by rewrite Herr0, Hsel0, Hsum0, Ha0, Hx0, Hq0, Hl0.
  - rewrite (loopOutcome_message l message Hloop).
    destruct (finally_fields (exec (setError message) s1))
      as (-> & -> & -> & -> & -> & -> & -> & -> & -> & -> & -> & ->).
    destruct (catch_fields message s1)
      as (-> & -> & -> & -> & -> & _ & -> & -> & -> & -> & -> & ->).
    rewrite Hn, Hm, Hed, Hc, <-Hsel, <-Hsum, <-Ha, <-Hx, <-Hq, <-Hl.
    by rewrite Hsel0, Hsum0, Ha0, Hx0, Hq0, Hl0.
Qed.

(** A run with a key one of whose boxes is rejected. *)
Lemma ingestAll_rejected_run s (message : string) :
  truthy (OPENAI_API_KEY env) = true →
  match papersJson s, eventsJson s, policiesJson s with
  | None, _, _ => message = "Papers JSON is invalid."
  | Some _, None, _ => message = "Events JSON is invalid."
  | Some _, Some _, None => message = "Policies JSON is invalid."
  | Some _, Some _, Some _ => False
  end →
  exec (ingestAll env) s
  = exec (setLoadingIngest false) (exec (setError message) (prepared s)).
Proof.
  intros Hkey Hm. rewrite (ingestAll_run s Hkey).
  destruct (prepared_inputs s) as (Hp' & He' & Hpo' & _).
  rewrite <-Hp', <-He', <-Hpo' in Hm.
  assert (Hmsg : ingestFailure message = message).
  { destruct (papersJson (prepared s)); [|by subst].
    destruct (eventsJson (prepared s)); [|by subst].
    destruct (policiesJson (prepared s)); [done|by subst]. }
  pose proof (ingestSteps_rejected (prepared s) message Hm) as Hrun.
  assert (Hst : exec (ingestSteps env) (prepared s) = prepared s).
  { unfold exec. by rewrite Hrun. }
  rewrite Hst, Hrun. cbn [fst]. by rewrite Hmsg.
Qed.

End RunAll.

Section KindFacts.
Context {num : Type} `{Number num}.
Implicit Types (r : record (num:=num)).

Lemma kind_recordId r :
  kind (recordId r)
  = Some match r with
         | RPaper _ => "Paper"
         | REvent _ => "Event"
         | RPolicy _ => "Policy"
         end.
Proof.
  destruct r as [p|e|p]; simpl; unfold kind.
  - by destruct (tmpl (paper_id p)).
  - by destruct (tmpl (event_external_id e)).
  - by destruct (tmpl (policy_external_id p)).
Qed.

Lemma kind_locationId (place : field) : kind (locationId place) = Some "Location".
Proof. unfold locationId, kind. by destruct (tmpl place). Qed.

Lemma recordId_embeddable r : embeddable (recordId r).
Proof. unfold embeddable. rewrite kind_recordId. destruct r; auto. Qed.

Lemma recordId_not_location r (place : field) : recordId r ≠ locationId place.
Proof.
  intros Heq. pose proof (kind_recordId r) as Hk.
  rewrite Heq, kind_locationId in Hk. by destruct r.
Qed.

Lemma recordAttrs_id r : recordAttrs r !! "id" = None.
Proof. destruct r; reflexivity. Qed.

Lemma recordAttrs_type r :
  recordAttrs r !! "type" = VStr <$> kind (recordId r).
Proof. rewrite kind_recordId. destruct r; reflexivity. Qed.

Lemma locationAttrs_id (place : field) :
  locationAttrs (num:=num) place !! "id" = None.
Proof. reflexivity. Qed.

Lemma locationAttrs_type (place : field) :
  locationAttrs (num:=num) place !! "type" = Some (VStr "Location").
Proof. reflexivity. Qed.

Lemma upsert_lookup (id j : string) (attrs : gmap string (value num)) nodes :
  upsert id attrs nodes !! j
  = if decide (id = j) then Some (merged (default ∅ (nodes !! id)) id attrs)
    else nodes !! j.
Proof.
  unfold upsert. destruct (decide (id = j)) as [->|Hne].
  - by rewrite lookup_insert_eq.
  - by rewrite lookup_insert_ne.
Qed.

Lemma upsert_is_Some (id j : string) (attrs : gmap string (value num)) nodes :
  is_Some (upsert id attrs nodes !! j) ↔ id = j ∨ is_Some (nodes !! j).
Proof.
  rewrite upsert_lookup. destruct (decide (id = j)) as [->|Hne].
  - split; eauto.
  - split; [auto|]. by intros [?|?].
Qed.

Lemma nodeStep_is_Some (j : string) nodes r :
  is_Some (nodeStep nodes r !! j)
  ↔ recordId r = j ∨
    (truthy (recordPlace r) = true ∧ locationId (recordPlace r) = j) ∨
    is_Some (nodes !! j).
Proof.
  unfold nodeStep. cbv zeta. destruct (truthy (recordPlace r)).
  - rewrite !upsert_is_Some. intuition congruence.
  - rewrite upsert_is_Some. intuition congruence.
Qed.

Lemma typed_store_empty : typed_store (num:=num) ∅.
Proof. intros id node Hl. by rewrite lookup_empty in Hl. Qed.

Lemma typed_store_upsert (id k : string) (attrs : gmap string (value num)) nodes :
  kind id = Some k → attrs !! "id" = None → attrs !! "type" = Some (VStr k) →
  typed_store nodes → typed_store (upsert id attrs nodes).
Proof.
  intros Hk Hid Hty Hn j node. rewrite upsert_lookup.
  destruct (decide (id = j)) as [<-|Hne]; [|apply Hn].
  intros [= <-]. split.
  - by rewrite merged_lookup_other, lookup_insert_eq.
  - exists k. split; [done|]. by apply merged_lookup_attr.
Qed.

Lemma typed_store_nodeStep nodes r :
  typed_store nodes → typed_store (nodeStep nodes r).
Proof.
  intros Hn. unfold nodeStep. cbv zeta.
  assert (Hn1 : typed_store (upsert (recordId r) (recordAttrs r) nodes)).
  { destruct (kind (recordId r)) as [k|] eqn:Hk.
    - apply (typed_store_upsert _ k); [done|apply recordAttrs_id| |done].
      by rewrite recordAttrs_type, Hk.
    - by rewrite kind_recordId in Hk. }
  destruct (truthy (recordPlace r)); [|done].
  apply (typed_store_upsert _ "Location");
    [apply kind_locationId|apply locationAttrs_id|apply locationAttrs_type|done].
Qed.

Lemma typed_store_fold (l : list record) nodes :
  typed_store nodes → typed_store (foldl nodeStep nodes l).
Proof.
  revert nodes. induction l as [|r l IH]; intros nodes Hn; simpl; [done|].
  by apply IH, typed_store_nodeStep.
Qed.

Lemma index_ok_empty : index_ok (num:=num) ∅ [].
Proof. split; [constructor|]. intros k Hk. by apply elem_of_nil in Hk. Qed.

Lemma assign_fst_elem_of {V} (k j : string) (v : V) (o : list (string * V)) :
  j ∈ (assign k v o).*1 ↔ j = k ∨ j ∈ o.*1.
Proof.
  induction o as [|[k' v'] o IH]; simpl.
  - rewrite elem_of_cons, elem_of_nil. tauto.
  - destruct (decide (k' = k)) as [->|Hne]; simpl.
    + rewrite !elem_of_cons. tauto.
    + rewrite !elem_of_cons, IH. tauto.
Qed.

Lemma assign_NoDup {V} (k : string) (v : V) (o : list (string * V)) :
  NoDup o.*1 → NoDup (assign k v o).*1.
Proof.
  induction o as [|[k' v'] o IH]; simpl; intros Hnd.
  - repeat constructor. apply not_elem_of_nil.
  - apply NoDup_cons in Hnd as [Hk' Hnd].
    destruct (decide (k' = k)) as [->|Hne]; simpl.
    + by apply NoDup_cons.
    + apply NoDup_cons. split; [|by apply IH].
      rewrite assign_fst_elem_of. intros [?|?]; done.
Qed.

Lemma index_ok_step (env : Env num) nodes index r :
  index_ok nodes index →
  index_ok (nodeStep nodes r) (embeddingStep env index r).
Proof.
  intros [Hnd Hin]. unfold embeddingStep. split; [by apply assign_NoDup|].
  intros k. rewrite assign_fst_elem_of, nodeStep_is_Some.
  intros [->|Hk].
  - split; [by left | apply recordId_embeddable].
  - destruct (Hin k Hk) as [Hsome Hemb]. auto.
Qed.

Lemma index_ok_fold (env : Env num) (l : list record) nodes index :
  index_ok nodes index →
  index_ok (foldl nodeStep nodes l) (foldl (embeddingStep env) index l).
Proof.
  revert nodes index. induction l as [|r l IH]; intros nodes index Hok; simpl.
  - done.
  - by apply IH, index_ok_step.
Qed.

End KindFacts.

Section RunShape.
Context {num : Type} `{Number num} (env : Env num).
Implicit Types (s : AppState num) (r : record (num:=num)).

Lemma embeds_ok_answered r : embeds_ok env r ↔ answered env r = true.
Proof.
  unfold embeds_ok, answered.
  destruct (fetchEmbedding env (cleanInput (recordText r))) as [err|emb].
  - split; [by intros [? ?]|done].
  - split; [done|eauto].
Qed.

Lemma reached_all (l : list record) :
  Forall (embeds_ok env) l →
  reached env l = l ∧
  requested env l = (λ r, CallEmbedding (cleanInput (recordText r))) <$> l ∧
  loopOutcome env l = Return tt.
Proof.
  induction 1 as [|r l Hr _ (IH1 & IH2 & IH3)]; [done|].
  pose proof (proj1 (embeds_ok_answered r) Hr) as Ha.
  cbn [reached requested loopOutcome]. rewrite Ha, IH1, IH2, IH3.
  unfold answered in Ha.
  by destruct (fetchEmbedding env (cleanInput (recordText r))).
Qed.

Lemma omap_placeLink_cons r (l : list record) :
  omap placeLink (r :: l) = option_list (placeLink r) ++ omap placeLink l.
Proof. cbn [omap list_omap]. by destruct (placeLink r). Qed.

Lemma placeLink_target r (j : string) :
  j ∈ target <$> option_list (placeLink r)
  ↔ truthy (recordPlace r) = true ∧ locationId (recordPlace r) = j.
Proof.
  unfold placeLink. destruct (truthy (recordPlace r)); simpl.
  - rewrite elem_of_cons, elem_of_nil. intuition congruence.
  - rewrite elem_of_nil. intuition congruence.
Qed.

Lemma nodeStep_fold_is_Some (l : list record) nodes (j : string) :
  is_Some (foldl nodeStep nodes l !! j)
  ↔ is_Some (nodes !! j) ∨ j ∈ recordId <$> l ∨
    j ∈ target <$> omap placeLink l.
Proof.
  revert nodes. induction l as [|r l IH]; intros nodes.
  - simpl. rewrite !elem_of_nil. tauto.
  - cbn [foldl]. rewrite IH, nodeStep_is_Some, fmap_cons, elem_of_cons.
    rewrite omap_placeLink_cons, fmap_app, elem_of_app, placeLink_target.
    intuition congruence.
Qed.

Lemma embeddingStep_fold_keys (l : list record) index (k : string) :
  k ∈ (foldl (embeddingStep env) index l).*1
  ↔ k ∈ index.*1 ∨ k ∈ recordId <$> l.
Proof.
  revert index. induction l as [|r l IH]; intros index.
  - simpl. rewrite elem_of_nil. tauto.
  - cbn [foldl]. rewrite IH. unfold embeddingStep.
    rewrite assign_fst_elem_of, fmap_cons, elem_of_cons. tauto.
Qed.

Lemma assign_to_map {V} (k : string) (v : V) (o : list (string * V)) :
  (list_to_map (assign k v o) : gmap string V) = <[k := v]> (list_to_map o).
Proof.
  induction o as [|[k' v'] o IH]; simpl; [done|].
  destruct (decide (k' = k)) as [->|Hne]; simpl.
  - by rewrite insert_insert_eq.
  - by rewrite IH, insert_insert_ne.
Qed.

(** The vector kept for a key is that of the last record with this key. *)
Lemma embeddingStep_fold_lookup (l : list record) index (k : string) :
  (list_to_map (foldl (embeddingStep env) index l) : gmap string (list num)) !! k
  = match last (filter (λ r, recordId r = k) l) with
    | Some r => Some (embeddingOf env r)
    | None => (list_to_map index : gmap string (list num)) !! k
    end.
Proof.
  induction l as [|r l IH] using rev_ind; [done|].
  rewrite foldl_app. cbn [foldl]. unfold embeddingStep at 1.
  rewrite assign_to_map, filter_app, filter_cons, filter_nil.
  destruct (decide (recordId r = k)) as [<-|Hne].
  - by rewrite lookup_insert_eq, last_snoc.
  - rewrite lookup_insert_ne by done. by rewrite app_nil_r.
Qed.

End RunShape.

Section RunInvariants.
Context {num : Type} `{Number num} (env : Env num).
Implicit Types (s : AppState num) (r : record (num:=num)).

(** With a key, the entities and the embedding table a run leaves are folds
    over some list of records, from the empty graph. *)
Lemma ingestAll_folds s :
  truthy (OPENAI_API_KEY env) = true →
  ∃ l : list record,
    nodesMap (exec (ingestAll env) s) = foldl nodeStep ∅ l ∧
    embeddingsRef (exec (ingestAll env) s) = foldl (embeddingStep env) [] l.
Proof.
  intros Hkey.
  destruct (papersJson s) as [papers|] eqn:Hp;
    [destruct (eventsJson s) as [events|] eqn:He;
       [destruct (policiesJson s) as [policies|] eqn:Hpo|]|].
  { destruct (ingestAll_graph env papers events policies s Hkey Hp He Hpo)
      as (Hn & Hm & _).
    by exists (reached env (records papers events policies)). }
  all: exists [].
  all: destruct (prepared_cleared s) as (Hn0 & _ & Hm0 & _).
  - rewrite (ingestAll_rejected_run env s "Policies JSON is invalid." Hkey)
      by (by rewrite Hp, He, Hpo).
    destruct (finally_fields
                (exec (setError "Policies JSON is invalid.") (prepared s)))
      as (-> & _ & -> & _).
    by destruct (catch_fields "Policies JSON is invalid." (prepared s))
      as (-> & _ & -> & _).
  - rewrite (ingestAll_rejected_run env s "Events JSON is invalid." Hkey)
      by (by rewrite Hp, He).
    destruct (finally_fields
                (exec (setError "Events JSON is invalid.") (prepared s)))
      as (-> & _ & -> & _).
    by destruct (catch_fields "Events JSON is invalid." (prepared s))
      as (-> & _ & -> & _).
  - rewrite (ingestAll_rejected_run env s "Papers JSON is invalid." Hkey)
      by (by rewrite Hp).
    destruct (finally_fields
                (exec (setError "Papers JSON is invalid.") (prepared s)))
      as (-> & _ & -> & _).
    by destruct (catch_fields "Papers JSON is invalid." (prepared s))
      as (-> & _ & -> & _).
Qed.

Lemma ingestAll_no_key_graph s :
  truthy (OPENAI_API_KEY env) = false →
  nodesMap (exec (ingestAll env) s) = nodesMap s ∧
  embeddingsRef (exec (ingestAll env) s) = embeddingsRef s.
Proof.
  intros Hkey. unfold exec. rewrite (ingestAll_no_key env s Hkey).
  split; reflexivity.
Qed.

Lemma ingestAll_typed s :
  truthy (OPENAI_API_KEY env) = true →
  typed_store (nodesMap (exec (ingestAll env) s)).
Proof.
  intros Hkey. destruct (ingestAll_folds s Hkey) as (l & -> & _).
  apply typed_store_fold, typed_store_empty.
Qed.

Lemma ingestAll_indexed s :
  truthy (OPENAI_API_KEY env) = true →
  index_ok (nodesMap (exec (ingestAll env) s))
           (embeddingsRef (exec (ingestAll env) s)).
Proof.
  intros Hkey. destruct (ingestAll_folds s Hkey) as (l & -> & ->).
  apply index_ok_fold, index_ok_empty.
Qed.

(** A search on a store that is typed, with an index that is in order. *)
Lemma search_indexed s (query : string) (topK : nat) (qEmb : list num) :
  typed_store (nodesMap s) → index_ok (nodesMap s) (embeddingsRef s) →
  fetchEmbedding env (cleanInput query) = inr qEmb →
  ∃ results,
    (searchGraph env query topK s).1 = Return results ∧
    length results = topK `min` length (embeddingsRef s) ∧
    Forall (λ c, c !! "type" = Some (VStr "Paper") ∨
                 c !! "type" = Some (VStr "Event") ∨
                 c !! "type" = Some (VStr "Policy")) results.
Proof.
  intros Hty [_ Hidx] Hq.
  destruct (decide (embeddingsRef s = [])) as [He|He].
  { exists []. rewrite searchGraph_empty by done. rewrite He. simpl.
    split; [done|]. split; [lia|constructor]. }
  rewrite (searchGraph_nonempty env query topK s He), Hq.
  eexists. split; [reflexivity|].
  rewrite <-(ranked_length qEmb (embeddingsRef s) topK).
  assert (Hall : ∀ x, x ∈ ranked qEmb (embeddingsRef s) topK →
            ∃ node, nodesMap s !! x.1 = Some node ∧
              (node !! "type" = Some (VStr "Paper") ∨
               node !! "type" = Some (VStr "Event") ∨
               node !! "type" = Some (VStr "Policy"))).
  { intros x Hx. apply ranked_elem_of in Hx as (v & Hin & _).
    assert (Hk : x.1 ∈ (embeddingsRef s).*1).
    { apply list_elem_of_fmap. by exists (x.1, v). }
    destruct (Hidx _ Hk) as [[node Hnode] Hemb]. exists node. split; [done|].
    destruct (Hty _ _ Hnode) as (_ & k & Hkind & Htype).
    rewrite Htype. unfold embeddable in Hemb. rewrite Hkind in Hemb.
    destruct Hemb as [[= ->]|[[= ->]|[= ->]]]; auto. }
  revert Hall. generalize (ranked qEmb (embeddingsRef s) topK). intros top Hall.
  unfold resolved. induction top as [|t top IH]; [by split|].
  destruct (Hall t) as (node & Hnode & Htype); [apply list_elem_of_here|].
  destruct IH as [IHlen IHall].
  { intros x Hx. apply Hall. by apply list_elem_of_further. }
  cbn [omap list_omap]. rewrite Hnode. cbn [fmap option_fmap option_map length].
  split; [by rewrite IHlen|]. constructor; [|done].
  rewrite !lookup_insert_ne by done. done.
Qed.

End RunInvariants.

(** ** What a run leaves behind *)

(** X10.  Typed store.  After a run of the ingestion made with an API key,
    whatever the state before, the boxes and the answers of the provider,
    every entity of the store carries its own key in [id] and, in [type],
    the kind its key starts with (Paper, Event, Policy or Location).  A run
    made without a key keeps a store that was so. *)
Theorem ingest_typed_store {num : Type} `{Number num} (env : Env num)
    (s : AppState num) :
  truthy (OPENAI_API_KEY env) = true ∨ typed_store (nodesMap s) →
  typed_store (nodesMap (exec (ingestAll env) s)).
Proof.
  intros Hs. destruct (truthy (OPENAI_API_KEY env)) eqn:Hkey.
  - by apply ingestAll_typed.
  - destruct Hs as [?|Hs]; [done|].
    by destruct (ingestAll_no_key_graph env s Hkey) as [-> _].
Qed.

(** X10 on the component as mounted with the demonstration boxes. *)
Lemma ingest_typed_store_witness :
  typed_store (nodesMap (exec (ingestAll demo_env) demo_mounted)).
Proof. apply ingest_typed_store. left. reflexivity. Defined.

(** X11.  Embedding table.  After a run made with an API key, the embedding
    table has one entry per key, and each key is that of a paper, an event
    or a policy that is in the store: no embedding is left without its
    entity, and no location has one.  A run made without a key keeps a table
    that was so. *)
Theorem ingest_index_ok {num : Type} `{Number num} (env : Env num)
    (s : AppState num) :
  truthy (OPENAI_API_KEY env) = true ∨
  index_ok (nodesMap s) (embeddingsRef s) →
  index_ok (nodesMap (exec (ingestAll env) s))
           (embeddingsRef (exec (ingestAll env) s)).
Proof.
  intros Hs. destruct (truthy (OPENAI_API_KEY env)) eqn:Hkey.
  - by apply ingestAll_indexed.
  - destruct Hs as [?|Hs]; [done|].
    by destruct (ingestAll_no_key_graph env s Hkey) as [-> ->].
Qed.

(** X11 on the component as mounted with the demonstration boxes. *)
Lemma ingest_index_ok_witness :
  index_ok (nodesMap (exec (ingestAll demo_env) demo_mounted))
           (embeddingsRef (exec (ingestAll demo_env) demo_mounted)).
Proof. apply ingest_index_ok. left. reflexivity. Defined.

(** X18.  Search after a run.  In the state a run with a key leaves, a search
    whose request the provider answers returns exactly min(topK, number of
    embeddings) entities (no entry of the ranking is dropped for want of
    its entity), and each of them is a paper, an event or a policy. *)
Theorem search_after_ingest {num : Type} `{Number num} (env : Env num)
    (s : AppState num) (query : string) (topK : nat) (qEmb : list num) :
  truthy (OPENAI_API_KEY env) = true →
  fetchEmbedding env (cleanInput query) = inr qEmb →
  ∃ results,
    (searchGraph env query topK (exec (ingestAll env) s)).1 = Return results ∧
    length results
    = topK `min` length (embeddingsRef (exec (ingestAll env) s)) ∧
    Forall (λ c, c !! "type" = Some (VStr "Paper") ∨
                 c !! "type" = Some (VStr "Event") ∨
                 c !! "type" = Some (VStr "Policy")) results.
Proof.
  intros Hkey Hq.
  apply (search_indexed env _ query topK qEmb);
    [by apply ingestAll_typed | by apply ingestAll_indexed | done].
Qed.

(** X18 on the demonstration boxes, for the query "storm" and topK = 2. *)
Lemma search_after_ingest_witness :
  ∃ results,
    (searchGraph demo_env "storm" 2
       (exec (ingestAll demo_env) demo_mounted)).1 = Return results ∧
    length results
    = 2 `min` length (embeddingsRef (exec (ingestAll demo_env) demo_mounted)) ∧
    Forall (λ c, c !! "type" = Some (VStr "Paper") ∨
                 c !! "type" = Some (VStr "Event") ∨
                 c !! "type" = Some (VStr "Policy")) results.
Proof.
  exact (search_after_ingest demo_env demo_mounted "storm" 2 [0; 1]%float
           eq_refl eq_refl).
Defined.

(** X7.  Rejected box.  When one of the three text areas does not parse, a run
    made with a key ends with an empty graph (whatever graph there was
    before), without a single request; the selection and the answer are
    cleared, the spinner is off, and the error names the first rejected box
    in the order papers, events, policies. *)
Theorem ingest_rejected_box {num : Type} `{Number num} (env : Env num)
    (s : AppState num) :
  truthy (OPENAI_API_KEY env) = true →
  papersJson s = None ∨ eventsJson s = None ∨ policiesJson s = None →
  let s' := exec (ingestAll env) s in
  nodesMap s' = ∅ ∧ edges s' = [] ∧ embeddingsRef s' = [] ∧
  calls s' = calls s ∧ loadingIngest s' = false ∧
  selectedNodeId s' = None ∧ selectedNodeSummary s' = "" ∧
  ragAnswer s' = "" ∧ ragContexts s' = [] ∧
  error s'
  = match papersJson s, eventsJson s with
    | None, _ => "Papers JSON is invalid."
    | Some _, None => "Events JSON is invalid."
    | Some _, Some _ => "Policies JSON is invalid."
    end.
Proof.
  intros Hkey Hrej s'.
  set (message := match papersJson s, eventsJson s with
                  | None, _ => "Papers JSON is invalid."
                  | Some _, None => "Events JSON is invalid."
                  | Some _, Some _ => "Policies JSON is invalid."
                  end).
  assert (Hs' : s' = exec (setLoadingIngest false)
                       (exec (setError message) (prepared s))).
  { apply ingestAll_rejected_run; [done|]. unfold message.
    destruct (papersJson s); [|done]. destruct (eventsJson s); [|done].
    destruct (policiesJson s); [|done]. by destruct Hrej as [?|[?|?]]. }
  clearbody s' message. subst s'.
  destruct (finally_fields (exec (setError message) (prepared s)))
    as (-> & -> & -> & -> & -> & -> & -> & -> & -> & -> & _).
  destruct (catch_fields message (prepared s))
    as (-> & -> & -> & -> & -> & _ & -> & -> & -> & -> & _).
  destruct (prepared_cleared s) as (-> & -> & -> & -> & -> & -> & ->).
  destruct (prepared_inputs s) as (_ & _ & _ & ->).
  done.
Qed.

(** X7 on a state with a graph, whose events box does not parse. *)
Lemma ingest_rejected_box_witness :
  nodesMap (exec (ingestAll demo_env) demo_rejected_box) = ∅ ∧
  calls (exec (ingestAll demo_env) demo_rejected_box) = [] ∧
  error (exec (ingestAll demo_env) demo_rejected_box)
  = "Events JSON is invalid.".
Proof.
  destruct (ingest_rejected_box demo_env demo_rejected_box eq_refl
              (or_intror (or_introl eq_refl)))
    as (Hn & _ & _ & Hc & _ & _ & _ & _ & _ & He).
  split; [exact Hn|]. split; [exact Hc | exact He].
Defined.

(** X8.  Complete run.  When each of the three boxes holds an array of
    records of its schema (every property a string or absent, the severity
    of an event a number or absent) and the provider answers the
    request of every record, a run made with a key ends without an error
    message and with the spinner off; it has sent one embedding request per
    record, in the order papers, events, policies, and no other request; the
    entities are those of the records and of the places they name; the
    relationships are the place links in the order of the records, followed
    by the keyword links, one for each paper and event, in the order of the
    loops, such that the title in lower case (as the engine lowers it)
    includes "blackout" and the description in lower case includes "outage";
    the embedding table has exactly the keys of the
    records, and keeps for each key the vector of the last record with this
    key. *)
Theorem ingest_complete {num : Type} `{Number num} (env : Env num)
    (s : AppState num) (papers : list paper) (events : list (event num))
    (policies : list policy) :
  truthy (OPENAI_API_KEY env) = true →
  papersJson s = Some papers → eventsJson s = Some events →
  policiesJson s = Some policies →
  Forall (embeds_ok env) (records papers events policies) →
  let l := records papers events policies in
  let s' := exec (ingestAll env) s in
  error s' = "" ∧ loadingIngest s' = false ∧
  calls s'
  = calls s ++ ((λ r, CallEmbedding (cleanInput (recordText r))) <$> l) ∧
  (∀ j, is_Some (nodesMap s' !! j)
        ↔ j ∈ recordId <$> l ∨ j ∈ target <$> omap placeLink l) ∧
  edges s' = omap placeLink l ++ derivedLinks env papers events ∧
  (∀ k, k ∈ (embeddingsRef s').*1 ↔ k ∈ recordId <$> l) ∧
  (∀ k, (list_to_map (embeddingsRef s') : gmap string (list num)) !! k
        = embeddingOf env <$> last (filter (λ r, recordId r = k) l)).
Proof.
  intros Hkey Hp He Hpo Hall l s'.
  destruct (ingestAll_graph env papers events policies s Hkey Hp He Hpo)
    as (Hn & Hm & Hed & Hc & Herr & Hload & _).
  fold l s' in Hn, Hm, Hed, Hc, Herr, Hload.
  destruct (reached_all env l Hall) as (Hreached & Hreq & Hout).
  rewrite Hreached in Hn, Hm, Hed. rewrite Hout in Hed, Herr.
  rewrite Hreq in Hc.
  split; [done|]. split; [done|]. split; [done|].
  split.
  { intros j. rewrite Hn, nodeStep_fold_is_Some, lookup_empty.
    split; [intros [[? [=]]|?]; done | auto]. }
  split; [done|]. split.
  { intros k. rewrite Hm, embeddingStep_fold_keys. simpl.
    rewrite elem_of_nil. tauto. }
  intros k. rewrite Hm, embeddingStep_fold_lookup.
  destruct (last (filter (λ r, recordId r = k) l)); [done|].
  apply lookup_empty.
Qed.

(** X8 on the demonstration boxes. *)
Lemma ingest_complete_witness :
  error (exec (ingestAll demo_env) demo_mounted) = "" ∧
  calls (exec (ingestAll demo_env) demo_mounted)
  = (λ r, CallEmbedding (cleanInput (recordText r))) <$>
    records [demo_paper] [demo_event] [demo_policy].
Proof.
  assert (Hall : Forall (embeds_ok demo_env)
                   (records [demo_paper] [demo_event] [demo_policy])).
  { repeat constructor; eexists; vm_compute; reflexivity. }
  destruct (ingest_complete demo_env demo_mounted [demo_paper] [demo_event]
              [demo_policy] eq_refl eq_refl eq_refl eq_refl Hall)
    as (Herr & _ & Hc & _).
  split; [exact Herr | exact Hc].
Defined.

Section Upserts.
Context {num : Type} `{Number num}.
Implicit Types (r : record (num:=num))
  (nodes : gmap string (gmap string (value num))).

Lemma merged_idem (existing attrs : gmap string (value num)) (id : string) :
  merged (merged existing id attrs) id attrs = merged existing id attrs.
Proof.
  unfold merged. apply map_eq. intros f.
  destruct (attrs !! f) as [v|] eqn:Hf.
  - by rewrite !(lookup_union_Some_l _ _ _ _ Hf).
  - rewrite !lookup_union_r by done.
    destruct (decide (f = "id")) as [->|Hne].
    + by rewrite !lookup_insert_eq.
    + rewrite !lookup_insert_ne by done. rewrite lookup_union_r by done.
      by rewrite lookup_insert_ne.
Qed.

Lemma upsert_idem (id : string) (attrs : gmap string (value num)) nodes :
  upsert id attrs (upsert id attrs nodes) = upsert id attrs nodes.
Proof.
  unfold upsert. rewrite lookup_insert_eq. simpl.
  by rewrite insert_insert_eq, merged_idem.
Qed.

Lemma upsert_comm (id id' : string) (attrs attrs' : gmap string (value num))
    nodes :
  id ≠ id' →
  upsert id attrs (upsert id' attrs' nodes)
  = upsert id' attrs' (upsert id attrs nodes).
Proof.
  intros Hne. unfold upsert.
  rewrite !lookup_insert_ne by done. by apply insert_insert_ne.
Qed.

Lemma nodeStep_idem nodes r : nodeStep (nodeStep nodes r) r = nodeStep nodes r.
Proof.
  unfold nodeStep. cbv zeta. destruct (truthy (recordPlace r)).
  - rewrite (upsert_comm (recordId r) (locationId (recordPlace r)))
      by apply recordId_not_location.
    by rewrite upsert_idem, upsert_idem.
  - apply upsert_idem.
Qed.

Lemma assign_idem {V} (k : string) (v : V) (o : list (string * V)) :
  assign k v (assign k v o) = assign k v o.
Proof.
  induction o as [|[k' v'] o IH]; simpl.
  - by rewrite decide_True.
  - destruct (decide (k' = k)) as [->|Hne]; simpl.
    + by rewrite decide_True.
    + by rewrite decide_False, IH.
Qed.

End Upserts.

(** X9.  A record ingested twice.  When the provider answers, ingesting a
    record a second time right after the first changes neither the entities
    nor the embedding table; it sends the request once more and, when the
    record names a place, appends the link to that place a second time. *)
Theorem ingest_record_twice {num : Type} `{Number num} (env : Env num)
    (r : record (num:=num)) (s : AppState num) :
  embeds_ok env r →
  let s1 := exec (ingestRecord env r) s in
  let s2 := exec (ingestRecord env r) s1 in
  (ingestRecord env r s1).1 = Return tt ∧
  nodesMap s2 = nodesMap s1 ∧ embeddingsRef s2 = embeddingsRef s1 ∧
  edges s2 = edges s1 ++ option_list (placeLink r) ∧
  calls s2 = calls s1 ++ [CallEmbedding (cleanInput (recordText r))].
Proof.
  intros [emb Hemb] s1 s2.
  pose proof (ingestRecord_graph env r s) as [Hr1 Hc1].
  pose proof (ingestRecord_graph env r s1) as [Hr2 Hc2].
  cbv zeta in Hr1, Hr2, Hc1, Hc2. fold s1 in Hr1, Hc1, Hr2, Hc2.
  fold s2 in Hr2, Hc2. rewrite Hemb in Hr1, Hr2.
  destruct Hr1 as (_ & Hn1 & Hm1 & He1). destruct Hr2 as (Hout & Hn2 & Hm2 & He2).
  clearbody s1 s2.
  split; [done|]. split; [by rewrite Hn2, Hn1, nodeStep_idem|].
  split; [by rewrite Hm2, Hm1, assign_idem|]. by split.
Qed.

(** X9 on the demonstration event, which occurs in region X. *)
Lemma ingest_record_twice_witness :
  edges (exec (ingestRecord demo_env (REvent demo_event))
           (exec (ingestRecord demo_env (REvent demo_event)) demo_mounted))
  = edges (exec (ingestRecord demo_env (REvent demo_event)) demo_mounted) ++
    option_list (placeLink (REvent demo_event)) ∧
  nodesMap (exec (ingestRecord demo_env (REvent demo_event))
              (exec (ingestRecord demo_env (REvent demo_event)) demo_mounted))
  = nodesMap (exec (ingestRecord demo_env (REvent demo_event)) demo_mounted).
Proof.
  assert (Hok : embeds_ok demo_env (REvent demo_event)).
  { eexists. vm_compute. reflexivity. }
  destruct (ingest_record_twice demo_env (REvent demo_event) demo_mounted Hok)
    as (_ & Hn & _ & He & _).
  split; [exact He | exact Hn].
Defined.

(** X6.  A run never throws.  Whatever the state, the boxes and the answers of
    the provider, [ingestAll] returns normally: a rejected box or a refused
    request ends in the error message.  With a key the spinner is off at the
    end, and the error message is empty exactly when the statements of the
    [try] block ran through; the question, the spinner of the answer and the
    three boxes are never written. *)
Theorem ingest_returns {num : Type} `{Number num} (env : Env num)
    (s : AppState num) :
  let s' := exec (ingestAll env) s in
  ingestAll env s = (Return tt, s') ∧
  loadingIngest s'
  = (if truthy (OPENAI_API_KEY env) then false else loadingIngest s) ∧
  (truthy (OPENAI_API_KEY env) = true →
   (error s' = "" ↔ (ingestSteps env (prepared s)).1 = Return tt)) ∧
  ragQuery s' = ragQuery s ∧ loadingRag s' = loadingRag s ∧
  same_inputs s s'.
Proof.
  intros s'. split; [apply ingestAll_returns|].
  assert (Hin : same_inputs s s') by apply ingestAll_keeps_inputs.
  destruct (truthy (OPENAI_API_KEY env)) eqn:Hkey.
  - pose proof (ingestAll_run env s Hkey) as Hs'. fold s' in Hs'.
    destruct (ingestSteps_panels_exec env (prepared s))
      as (Herr & _ & _ & _ & Hq & _ & _ & Hl & _).
    destruct (prepared_panels s) as (Herr0 & _ & Hq0 & Hl0).
    set (s1 := exec (ingestSteps env) (prepared s)) in *.
    revert Hs'. destruct (ingestSteps env (prepared s)).1 as [[]|message];
      intros Hs'; clearbody s'; subst s'.
    + destruct (finally_fields s1)
        as (_ & _ & _ & _ & -> & -> & _ & _ & _ & _ & -> & ->).
      rewrite <-Herr, <-Hq, <-Hl, Herr0, Hq0, Hl0.
      split; [done|]. split; [done|]. by split.
    + destruct (finally_fields (exec (setError (ingestFailure message)) s1))
        as (_ & _ & _ & _ & -> & -> & _ & _ & _ & _ & -> & ->).
      destruct (catch_fields (ingestFailure message) s1)
        as (_ & _ & _ & _ & -> & _ & _ & _ & _ & _ & -> & ->).
      rewrite <-Hq, <-Hl, Hq0, Hl0.
      split; [done|]. split; [|by split].
      intros _. split; [|done]. unfold ingestFailure.
      by destruct (String.eqb_spec message "").
  - assert (Hs' : s' = exec (setError missing_key_message) s).
    { unfold s', exec. by rewrite (ingestAll_no_key env s Hkey). }
    clearbody s'. subst s'.
    destruct (catch_fields missing_key_message s)
      as (_ & _ & _ & _ & _ & -> & _ & _ & _ & _ & -> & ->).
    split; [done|]. split; [done|]. by split.
Qed.

(** ** Answering a question: the outcomes *)

#[export] Instance same_but_answer_preorder {num} :
  PreOrder (same_but_answer (num:=num)).
Proof.
  split.
  - intros s. unfold same_but_answer. tauto.
  - intros s1 s2 s3. unfold same_but_answer. intuition congruence.
Qed.

Section RagRun.
Context {num : Type} `{Number num} (env : Env num).
Implicit Types (s st : AppState num).

Ltac answer_step :=
  lazymatch goal with
  | |- stable _ (mret _) => apply stable_ret; apply _
  | |- stable _ (throw _) => apply stable_throw; apply _
  | |- stable _ (gets _) => apply stable_gets; apply _
  | |- stable _ (modify _) =>
      apply stable_modify; intros ?; unfold same_but_answer; simpl; tauto
  | |- stable _ (mbind _ _) => apply stable_bind; [apply _ | | intros ?]
  | |- stable _ (try_catch _ _) =>
      apply stable_try_catch; [apply _ | | intros ?]
  | |- stable _ (try_finally _ _) => apply stable_try_finally; [apply _ | |]
  | |- stable _ (match ?x with _ => _ end) => destruct x
  | |- stable _ (if ?x then _ else _) => destruct x
  end.

Lemma submitRagQuery_frame : stable same_but_answer (submitRagQuery env).
Proof.
  unfold submitRagQuery, ragBody, searchGraph, getEmbedding, gptPlainText,
    setError, setLoadingRag, setRagAnswer, setRagContexts, request.
  cbv zeta. repeat answer_step.
Qed.

Lemma submitRagQuery_returns s :
  submitRagQuery env s = (Return tt, exec (submitRagQuery env) s).
Proof.
  unfold exec, submitRagQuery.
  destruct (truthy (OPENAI_API_KEY env)); cbn [negb]; [|done].
  rewrite bind_run. cbn [gets].
  destruct (String.eqb (trim (ragQuery s)) ""); [done|].
  unfold try_finally, try_catch.
  destruct (ragBody env (ragQuery s) s) as [[[]|e] s1]; done.
Qed.

(** The state in which the search of [submitRagQuery] starts. *)
Lemma rag_setup s :
  ∃ s0, (setLoadingRag true ;; setRagAnswer "" ;; setRagContexts [ ]) s
        = (Return tt, s0) ∧
    nodesMap s0 = nodesMap s ∧ embeddingsRef s0 = embeddingsRef s ∧
    calls s0 = calls s ∧ error s0 = error s ∧
    ragAnswer s0 = "" ∧ ragContexts s0 = [].
Proof. eexists. split; [reflexivity|]. simpl. tauto. Qed.

Lemma ragBody_unfold (question : string) s :
  ragBody env question s
  = ((setLoadingRag true ;; setRagAnswer "" ;; setRagContexts [ ]) ;;
     contexts ← searchGraph env question 8;
     text ← gptPlainText env (ragPrompt env question contexts);
     setRagAnswer text ;; setRagContexts contexts) s.
Proof. reflexivity. Qed.

(** What the rest of the handler changes after the search and the request
    for an answer, in state [st]. *)
Lemma answer_fields (text : string) (contexts : list (gmap string (value num)))
    st :
  let sf := exec (setLoadingRag false)
              (exec (setRagContexts contexts) (exec (setRagAnswer text) st)) in
  ragAnswer sf = text ∧ ragContexts sf = contexts ∧ loadingRag sf = false ∧
  calls sf = calls st ∧ error sf = error st.
Proof. cbv zeta. unfold exec. simpl. tauto. Qed.

Lemma failure_fields (text : string) st :
  let sf := exec (setLoadingRag false) (exec (setRagAnswer text) st) in
  ragAnswer sf = text ∧ ragContexts sf = ragContexts st ∧
  loadingRag sf = false ∧ calls sf = calls st ∧ error sf = error st.
Proof. cbv zeta. unfold exec. simpl. tauto. Qed.

Lemma request_answer_fields c st :
  ragAnswer (exec (request c) st) = ragAnswer st ∧
  ragContexts (exec (request c) st) = ragContexts st ∧
  calls (exec (request c) st) = calls st ++ [c] ∧
  error (exec (request c) st) = error st.
Proof. unfold exec. simpl. tauto. Qed.

(** The search, as far as the handler is concerned. *)
Lemma searchGraph_cases (query : string) (topK : nat) st :
  ∃ s1, searchGraph env query topK st = ((searchGraph env query topK st).1, s1) ∧
    ragAnswer s1 = ragAnswer st ∧ ragContexts s1 = ragContexts st ∧
    error s1 = error st ∧
    calls s1
    = calls st ++
      match embeddingsRef st with
      | [] => []
      | _ => [CallEmbedding (cleanInput query)]
      end.
Proof.
  destruct (embeddingsRef st) as [|iv current] eqn:Hcur.
  - rewrite searchGraph_empty by done. exists st. simpl.
    by rewrite app_nil_r.
  - rewrite searchGraph_nonempty by (by rewrite Hcur).
    eexists. split; [reflexivity|].
    destruct (request_answer_fields (CallEmbedding (cleanInput query)) st)
      as (-> & -> & -> & ->).
    done.
Qed.

Lemma searchGraph_result (query : string) (topK : nat) st st' :
  nodesMap st = nodesMap st' → embeddingsRef st = embeddingsRef st' →
  (searchGraph env query topK st).1 = (searchGraph env query topK st').1.
Proof.
  intros Hn Hm. destruct (decide (embeddingsRef st = [])) as [Hcur|Hcur].
  - rewrite !searchGraph_empty by congruence. done.
  - rewrite !searchGraph_nonempty by congruence. cbn [fst].
    by rewrite Hn, Hm.
Qed.

(** X20.  Outcomes of a question.  With a key, a question that is not blank
    and an index on whose scores the comparator of the ranking is consistent
    (so that the language fixes the order of the contexts),
    [submitRagQuery] ends with the spinner of the answer off and the
    error message untouched, in one of three ways.  If the search throws
    (the embedding request is refused), the answer is the fixed text
    "Failed to run RAG over the graph.", no context is shown and no request
    goes to the text generation endpoint.  Otherwise one request goes to
    that endpoint, with the prompt built on the contexts found; if it is
    refused, the answer is the same fixed text and no context is shown,
    although contexts were found; if it is answered, the answer is the
    trimmed output and the contexts shown are those of the search.  The
    embedding endpoint is asked once, and only when the index is not
    empty. *)
Theorem ask_outcomes s :
  truthy (OPENAI_API_KEY env) = true → trim (ragQuery s) ≠ "" →
  (∀ qEmb, fetchEmbedding env (cleanInput (ragQuery s)) = inr qEmb →
           consistent_on (scored qEmb (embeddingsRef s))) →
  let question := ragQuery s in
  let s' := exec (submitRagQuery env) s in
  let searched :=
    match embeddingsRef s with
    | [] => []
    | _ => [CallEmbedding (cleanInput question)]
    end in
  loadingRag s' = false ∧ error s' = error s ∧
  match (searchGraph env question 8 s).1 with
  | Throw _ =>
      ragAnswer s' = "Failed to run RAG over the graph." ∧
      ragContexts s' = [] ∧ calls s' = calls s ++ searched
  | Return contexts =>
      calls s'
      = calls s ++ searched ++ [CallGpt (ragPrompt env question contexts)] ∧
      match fetchResponse env (ragPrompt env question contexts) with
      | inl _ =>
          ragAnswer s' = "Failed to run RAG over the graph." ∧
          ragContexts s' = []
      | inr output_text =>
          ragAnswer s' = trim output_text ∧ ragContexts s' = contexts
      end
  end.
Proof.
  intros Hkey Hq _ question s' searched.
  destruct (rag_setup s) as (s0 & Hsetup & Hn0 & Hm0 & Hc0 & He0 & Ha0 & Hx0).
  destruct (searchGraph_cases question 8 s0)
    as (s1 & Hsearch & Ha1 & Hx1 & He1 & Hc1).
  rewrite (searchGraph_result question 8 s s0) by done.
  rewrite Hm0 in Hc1. fold searched in Hc1.
  assert (Hs' : s' = exec (setLoadingRag false)
    match (ragBody env question s).1 with
    | Return _ => exec (ragBody env question) s
    | Throw _ =>
        exec (setRagAnswer "Failed to run RAG over the graph.")
          (exec (ragBody env question) s)
    end).
  { unfold s', exec at 1, submitRagQuery. rewrite Hkey. cbn [negb].
    rewrite bind_run. cbn [gets]. fold question.
    apply String.eqb_neq in Hq. fold question in Hq. rewrite Hq.
    change ((try_finally
               (try_catch (ragBody env question)
                  (λ _, setRagAnswer "Failed to run RAG over the graph."))
               (setLoadingRag false) s).2)
      with (exec (try_finally
               (try_catch (ragBody env question)
                  (λ _, setRagAnswer "Failed to run RAG over the graph."))
               (setLoadingRag false)) s).
    rewrite try_finally_exec, try_catch_exec.
    by destruct (ragBody env question s).1. }
  clearbody s'. subst s'.
  revert Hsearch.
  destruct (searchGraph env question 8 s0).1 as [contexts|e]; intros Hsearch.
  - destruct (request_answer_fields
                (CallGpt (ragPrompt env question contexts)) s1)
      as (Ha2 & Hx2 & Hc2 & He2).
    destruct (fetchResponse env (ragPrompt env question contexts))
      as [err|out] eqn:Hgpt.
    + assert (Hbody : ragBody env question s
        = (Throw ("GPT error: " +:+ err),
           exec (request (CallGpt (ragPrompt env question contexts))) s1)).
      { rewrite ragBody_unfold, bind_run, Hsetup, bind_run, Hsearch.
        by rewrite bind_run, gptPlainText_run, Hgpt. }
      assert (Hst : exec (ragBody env question) s = (ragBody env question s).2)
        by reflexivity.
      rewrite Hst, Hbody. cbn [fst snd].
      destruct (failure_fields "Failed to run RAG over the graph."
                  (exec (request (CallGpt (ragPrompt env question contexts)))
                     s1)) as (-> & -> & -> & -> & ->).
      rewrite Hx2, Hx1, Hx0, Hc2, Hc1, Hc0, He2, He1, He0.
      by rewrite <-app_assoc.
    + assert (Hbody : ragBody env question s
        = (Return tt,
           exec (setRagContexts contexts)
             (exec (setRagAnswer (trim out))
                (exec (request (CallGpt (ragPrompt env question contexts)))
                   s1)))).
      { rewrite ragBody_unfold, bind_run, Hsetup, bind_run, Hsearch.
        by rewrite bind_run, gptPlainText_run, Hgpt. }
      assert (Hst : exec (ragBody env question) s = (ragBody env question s).2)
        by reflexivity.
      rewrite Hst, Hbody. cbn [fst snd].
      destruct (answer_fields (trim out) contexts
                  (exec (request (CallGpt (ragPrompt env question contexts)))
                     s1)) as (-> & -> & -> & -> & ->).
      rewrite Hc2, Hc1, Hc0, He2, He1, He0.
      by rewrite <-app_assoc.
  - assert (Hbody : ragBody env question s = (Throw e, s1)).
    { by rewrite ragBody_unfold, bind_run, Hsetup, bind_run, Hsearch. }
    assert (Hst : exec (ragBody env question) s = (ragBody env question s).2)
      by reflexivity.
    rewrite Hst, Hbody. cbn [fst snd].
    destruct (failure_fields "Failed to run RAG over the graph." s1)
      as (-> & -> & -> & -> & ->).
    by rewrite Hx1, Hx0, Hc1, Hc0, He1, He0.
Qed.

(** X19.  Asking keeps the graph.  [submitRagQuery] always returns normally and
    never writes the entities, the relationships, the embedding table, the
    three boxes, the question, the inspector or the spinner of the
    ingestion.  Without a key it only sets the error message, and sends
    nothing, whatever the question; with a key and a blank question it
    changes nothing at all. *)
Theorem ask_keeps_graph s :
  let s' := exec (submitRagQuery env) s in
  submitRagQuery env s = (Return tt, s') ∧ same_but_answer s s' ∧
  (truthy (OPENAI_API_KEY env) = false →
   error s' = missing_key_message ∧ calls s' = calls s ∧
   ragAnswer s' = ragAnswer s ∧ ragContexts s' = ragContexts s ∧
   loadingRag s' = loadingRag s) ∧
  (truthy (OPENAI_API_KEY env) = true → trim (ragQuery s) = "" → s' = s).
Proof.
  intros s'. split; [apply submitRagQuery_returns|].
  split; [apply submitRagQuery_frame|].
  unfold s', exec, submitRagQuery. split.
  - intros ->. cbn [negb]. simpl. tauto.
  - intros -> Hq. cbn [negb]. rewrite bind_run. cbn [gets].
    by rewrite Hq.
Qed.

End RagRun.

(** X20 on a state with one embedding: the search is answered, the request for
    an answer refused. *)
Lemma ask_outcomes_witness :
  ragAnswer (exec (submitRagQuery demo_env_no_answer) demo_dirty)
  = "Failed to run RAG over the graph." ∧
  ragContexts (exec (submitRagQuery demo_env_no_answer) demo_dirty) = [] ∧
  loadingRag (exec (submitRagQuery demo_env_no_answer) demo_dirty) = false.
Proof.
  assert (Hq : trim (ragQuery demo_dirty) ≠ "") by (vm_compute; discriminate).
  assert (Hcons : ∀ qEmb,
            fetchEmbedding demo_env_no_answer (cleanInput (ragQuery demo_dirty))
            = inr qEmb →
            consistent_on (scored qEmb (embeddingsRef demo_dirty))).
  { intros qEmb Hemb. vm_compute in Hemb. injection Hemb as <-.
    apply consistentb_sound. reflexivity. }
  destruct (ask_outcomes demo_env_no_answer demo_dirty eq_refl Hq Hcons)
    as (Hl & _ & Hm).
  destruct (searchGraph demo_env_no_answer (ragQuery demo_dirty) 8
              demo_dirty).1 as [contexts|e] eqn:Hs.
  - destruct Hm as (_ & Ha & Hx). split; [exact Ha|]. split; [exact Hx|exact Hl].
  - vm_compute in Hs. discriminate.
Defined.


(** ** Node inspector *)

#[export] Instance same_but_inspector_preorder {num} :
  PreOrder (same_but_inspector (num:=num)).
Proof.
  split.
  - intros s. unfold same_but_inspector. tauto.
  - intros s1 s2 s3. unfold same_but_inspector. intuition congruence.
Qed.

Section InspectorFacts.
Context {num : Type} `{Number num} (env : Env num).
Implicit Types (u : UiState num) (s : AppState num).

Lemma fetchNodeSummary_unknown (nodeId : string) u :
  nodesMap (appState u) !! nodeId = None →
  fetchNodeSummary env nodeId u = (Return tt, u).
Proof.
  intros Hn. unfold fetchNodeSummary. rewrite bind_run. cbn [gets].
  by rewrite Hn.
Qed.

Lemma fetchNodeSummary_known (nodeId : string)
    (node : gmap string (value num)) u :
  nodesMap (appState u) !! nodeId = Some node →
  let prompt :=
    summaryPrompt env node (neighbours (nodesMap (appState u)) (edges (appState u)) nodeId) in
  fetchNodeSummary env nodeId u
  = (Return tt,
     {| appState :=
          exec (setSelectedNodeSummary
                  match fetchResponse env prompt with
                  | inr output_text => trim output_text
                  | inl _ => summaryFailure
                  end)
            (exec (request (CallGpt prompt)) (appState u));
        loadingSummary := false |}).
Proof.
  intros Hn prompt. unfold fetchNodeSummary. rewrite bind_run. cbn [gets].
  rewrite Hn, bind_run. cbn [gets]. fold prompt.
  unfold try_finally, try_catch. rewrite bind_run.
  cbn [setLoadingSummary modify]. rewrite bind_run.
  unfold on_app at 1. cbn [appState loadingSummary].
  rewrite gptPlainText_run.
  destruct (fetchResponse env prompt) as [err|out]; reflexivity.
Qed.

(** The state in which [fetchNodeSummary] starts after a click on [id]. *)
Lemma click_setup (id : string) s :
  let s1 := exec (setSelectedNodeSummary "")
              (exec (setSelectedNodeId (Some id)) s) in
  same_but_inspector s s1 ∧ calls s1 = calls s ∧
  selectedNodeId s1 = Some id ∧ selectedNodeSummary s1 = "".
Proof. cbv zeta. unfold same_but_inspector, exec. simpl. tauto. Qed.

(** What the request and the summary change in state [st]. *)
Lemma summary_fields (text : string) c s :
  let sf := exec (setSelectedNodeSummary text) (exec (request c) s) in
  same_but_inspector s sf ∧ calls sf = calls s ++ [c] ∧
  selectedNodeId sf = selectedNodeId s ∧ selectedNodeSummary sf = text.
Proof. cbv zeta. unfold same_but_inspector, exec. simpl. tauto. Qed.

Lemma handleNodeClick_unfold (id : string) u :
  handleNodeClick env (Some id) u
  = fetchNodeSummary env id
      {| appState := exec (setSelectedNodeSummary "")
                  (exec (setSelectedNodeId (Some id)) (appState u));
         loadingSummary := loadingSummary u |}.
Proof. reflexivity. Qed.

(** X15.  A click on a node.  [handleNodeClick] always returns normally, selects
    the node and writes nothing but the inspector and the request log.  If
    [id] is not an entity of the store, the summary is left empty and no
    request is sent.  If it is, exactly one request goes to the text
    generation endpoint, with the prompt built on the entity and its
    neighbours (no API key is asked for: the request leaves also in a build
    without a key); the summary is the trimmed output, or the fixed text
    "Failed to generate node summary." when the request is refused; the
    spinner of the inspector is off at the end.  A click that hits no node
    changes nothing. *)
Theorem click_outcomes (id : string) u :
  let u' := exec (handleNodeClick env (Some id)) u in
  handleNodeClick env None u = (Return tt, u) ∧
  handleNodeClick env (Some id) u = (Return tt, u') ∧
  same_but_inspector (appState u) (appState u') ∧
  selectedNodeId (appState u') = Some id ∧
  match nodesMap (appState u) !! id with
  | None =>
      calls (appState u') = calls (appState u) ∧ selectedNodeSummary (appState u') = "" ∧
      loadingSummary u' = loadingSummary u
  | Some node =>
      let prompt :=
        summaryPrompt env node
          (neighbours (nodesMap (appState u)) (edges (appState u)) id) in
      calls (appState u') = calls (appState u) ++ [CallGpt prompt] ∧
      loadingSummary u' = false ∧
      selectedNodeSummary (appState u')
      = match fetchResponse env prompt with
        | inr output_text => trim output_text
        | inl _ => summaryFailure
        end
  end.
Proof.
  intros u'. split; [done|].
  destruct (click_setup id (appState u)) as (Hsame1 & Hc1 & Hsel1 & Hsum1).
  cbv zeta in Hsame1, Hc1, Hsel1, Hsum1.
  assert (Hrun : handleNodeClick env (Some id) u
    = fetchNodeSummary env id
        {| appState := exec (setSelectedNodeSummary "")
                    (exec (setSelectedNodeId (Some id)) (appState u));
           loadingSummary := loadingSummary u |})
    by apply handleNodeClick_unfold.
  set (s1 := exec (setSelectedNodeSummary "")
               (exec (setSelectedNodeId (Some id)) (appState u))) in *.
  assert (Hn1 : nodesMap s1 = nodesMap (appState u)) by (symmetry; apply Hsame1).
  assert (He1 : edges s1 = edges (appState u)) by (symmetry; apply Hsame1).
  clearbody s1.
  destruct (nodesMap (appState u) !! id) as [node|] eqn:Hnode.
  - set (prompt := summaryPrompt env node
                     (neighbours (nodesMap (appState u)) (edges (appState u)) id)).
    assert (Hrun' : handleNodeClick env (Some id) u
      = (Return tt,
         {| appState :=
              exec (setSelectedNodeSummary
                      match fetchResponse env prompt with
                      | inr output_text => trim output_text
                      | inl _ => summaryFailure
                      end)
                (exec (request (CallGpt prompt)) s1);
            loadingSummary := false |})).
    { rewrite Hrun, (fetchNodeSummary_known id node);
        [|by cbn [appState]; rewrite Hn1].
      cbn [appState loadingSummary]. by rewrite Hn1, He1. }
    assert (Hu' : u' = (handleNodeClick env (Some id) u).2) by reflexivity.
    rewrite Hrun' in Hu'. cbn [snd] in Hu'. clearbody u'. subst u'.
    cbn [appState loadingSummary].
    destruct (summary_fields
                match fetchResponse env prompt with
                | inr output_text => trim output_text
                | inl _ => summaryFailure
                end (CallGpt prompt) s1) as (Hsame2 & Hc2 & Hsel2 & Hsum2).
    cbv zeta in Hsame2, Hc2, Hsel2, Hsum2.
    split; [done|]. split; [etrans; [exact Hsame1 | exact Hsame2]|].
    rewrite Hsel2, Hc2, Hsum2, Hsel1, Hc1. done.
  - assert (Hrun' : handleNodeClick env (Some id) u
      = (Return tt, {| appState := s1; loadingSummary := loadingSummary u |})).
    { rewrite Hrun, fetchNodeSummary_unknown; [done|].
      by cbn [appState]; rewrite Hn1. }
    assert (Hu' : u' = (handleNodeClick env (Some id) u).2) by reflexivity.
    rewrite Hrun' in Hu'. cbn [snd] in Hu'. clearbody u'. subst u'.
    cbn [appState loadingSummary]. done.
Qed.

End InspectorFacts.


(** ** The embedding table under [addNode] *)

(** X5.  Storing an embedding.  [addNode] with an embedding writes the table
    as an assignment [table[id] = embedding]: read as a map, the table is
    the old one with [id] bound to the new vector; the keys keep their
    order, a new key going last; a table without a repeated key stays so.
    Without an embedding the table is untouched. *)
Theorem addNode_embedding {num : Type} `{Number num} (id : string)
    (attrs : gmap string (value num)) (emb : list num) (s : AppState num) :
  let s' := exec (addNode id attrs (Some emb)) s in
  (list_to_map (embeddingsRef s') : gmap string (list num))
  = <[id := emb]> (list_to_map (embeddingsRef s)) ∧
  (embeddingsRef s').*1
  = (if decide (id ∈ (embeddingsRef s).*1) then (embeddingsRef s).*1
     else (embeddingsRef s).*1 ++ [id]) ∧
  (NoDup (embeddingsRef s).*1 → NoDup (embeddingsRef s').*1) ∧
  embeddingsRef (exec (addNode id attrs None) s) = embeddingsRef s.
Proof.
  intros s'.
  destruct (addNode_run id attrs (Some emb) s) as (s1 & Hrun & _ & _ & Hm & _).
  assert (s' = s1) as -> by (unfold s', exec; by rewrite Hrun).
  rewrite Hm. split; [apply assign_to_map|]. split; [apply assign_keys|].
  split; [apply assign_NoDup|].
  destruct (addNode_run id attrs None s) as (s2 & Hrun2 & _ & _ & Hm2 & _).
  unfold exec. by rewrite Hrun2.
Qed.

(** ** The request for an embedding *)

(** X1.  Input of the embedding request.  Whatever the text, [getEmbedding]
    sends exactly one request, and its input is never empty, holds no line
    feed and has no white space at either end (a blank text is sent as
    "empty"); cleaning the input again changes nothing. *)
Theorem embedding_input_clean {num : Type} `{Number num} (env : Env num)
    (text : string) (s : AppState num) :
  let clean := cleanInput text in
  calls (exec (getEmbedding env text) s) = calls s ++ [CallEmbedding clean] ∧
  clean ≠ "" ∧
  ("010"%char ∉ list_ascii_of_string clean) ∧
  trim clean = clean ∧
  cleanInput clean = clean.
Proof.
  intros clean. split; [|apply cleanInput_spec].
  unfold exec. by rewrite getEmbedding_run.
Qed.

(** ** The metrics snapshot and the shape of the relationship list *)

Lemma degree_spec_Permutation (id : string) (es es' : list edge) :
  es ≡ₚ es' → degree_spec id es = degree_spec id es'.
Proof. intros Hp. unfold degree_spec. by rewrite Hp. Qed.

Lemma degree_spec_turned (id : string) (label : edge → string) (es : list edge) :
  degree_spec id
    ((λ e, {| source := target e; target := source e; relation := label e |})
       <$> es)
  = degree_spec id es.
Proof.
  unfold degree_spec. induction es as [|e es IH]; [done|].
  rewrite fmap_cons, !filter_cons. cbn [source target].
  destruct (decide (target e = id)), (decide (source e = id));
    cbn [length]; lia.
Qed.

Lemma degree_spec_app (id : string) (es es' : list edge) :
  degree_spec id (es ++ es') = degree_spec id es + degree_spec id es'.
Proof. unfold degree_spec. rewrite !filter_app, !length_app. lia. Qed.

Lemma metrics_degree_ext {num : Type} `{Number num} (env : Env num)
    (nodes : gmap string (gmap string (value num))) (es es' : list edge) :
  (∀ id, degree_spec id es = degree_spec id es') →
  metrics env nodes es = metrics env nodes es'.
Proof.
  intros Hd. apply map_eq. intros id. by rewrite !metrics_lookup, Hd.
Qed.

(** X12.  The snapshot and the relationship list.  The metrics snapshot has one
    entry per entity of the store and none besides; it depends on the
    relationships only through the two ends of each: listing them in
    another order, turning some around or renaming their relation gives the
    same snapshot. *)
Theorem metrics_symmetric {num : Type} `{Number num} (env : Env num)
    (nodes : gmap string (gmap string (value num))) (es es' : list edge) :
  es ≡ₚ es' →
  metrics env nodes es = metrics env nodes es' ∧
  (∀ label : edge → string,
     metrics env nodes
       ((λ e, {| source := target e; target := source e;
                 relation := label e |}) <$> es)
     = metrics env nodes es) ∧
  dom (metrics env nodes es) = dom nodes.
Proof.
  intros Hp. split.
  { apply metrics_degree_ext. intros id. by apply degree_spec_Permutation. }
  split.
  { intros label. apply metrics_degree_ext. intros id.
    apply degree_spec_turned. }
  apply set_eq. intros id. rewrite !elem_of_dom, metrics_lookup.
  by rewrite fmap_is_Some.
Qed.

(** X12 on the scenario with a second, dangling relationship, listed in the
    two orders. *)
Lemma metrics_symmetric_witness :
  metrics exact_env exact_nodes [occurs_in; dangling]
  = metrics exact_env exact_nodes [dangling; occurs_in].
Proof.
  exact (proj1 (metrics_symmetric exact_env exact_nodes [occurs_in; dangling]
                  [dangling; occurs_in] (perm_swap _ _ _))).
Defined.

(** X13.  More relationships, no less risk.  In exact arithmetic, appending
    relationships to the list leaves the entities of the snapshot as they
    are and lowers neither the degree centrality nor the risk score of any
    of them. *)
Theorem risk_monotone (env : Env R)
    (nodes : gmap string (gmap string (value R))) (es extra : list edge)
    (id : string) :
  option_Forall2
    (λ m m', (degree_centrality m <= degree_centrality m')%R ∧
             (risk_score m <= risk_score m')%R)
    (metrics env nodes es !! id) (metrics env nodes (es ++ extra) !! id).
Proof.
  rewrite !metrics_lookup. destruct (nodes !! id) as [node|]; [|constructor].
  constructor. cbn [degree_centrality risk_score]. cbv zeta.
  rewrite degree_spec_app, Nat2Z.inj_add.
  pose proof (normaliser_ge_1 nodes) as HN.
  set (N := normaliser nodes) in *. simpl.
  assert (0 < IZR N)%R as HNpos by (apply IZR_lt; lia).
  assert (0 <= IZR (Z.of_nat (degree_spec id extra)))%R as Hx
    by (apply IZR_le; lia).
  rewrite plus_IZR.
  assert (Hle : (IZR (Z.of_nat (degree_spec id es)) / IZR N
                 <= (IZR (Z.of_nat (degree_spec id es))
                     + IZR (Z.of_nat (degree_spec id extra))) / IZR N)%R).
  { unfold Rdiv. apply Rmult_le_compat_r; [|lra].
    left. by apply Rinv_0_lt_compat. }
  split; lra.
Qed.

(** ** Neighbours in the inspector *)

Section NeighbourFacts.
Context {num : Type} `{Number num}.
Implicit Types (nodes : gmap string (gmap string (value num))).

Lemma neighbours_cons nodes (e : edge) (es : list edge) (id : string) :
  neighbours nodes (e :: es) id
  = (if decide (source e = id ∨ target e = id) then
       option_list (nodes !! (if decide (source e = id) then target e
                              else source e))
     else []) ++ neighbours nodes es id.
Proof.
  unfold neighbours. rewrite filter_cons.
  destruct (decide (source e = id ∨ target e = id)); [|done].
  rewrite fmap_cons. cbn [omap list_omap].
  by destruct (nodes !! _).
Qed.

(** X16.  Neighbours and degree.  When every relationship joins two entities
    of the store, the inspector lists one neighbour per relationship that
    touches the node (a node linked twice is listed twice, a self-loop lists
    the node itself once): their number is the degree of the node minus its
    self-loops. *)
Theorem neighbours_degree nodes (es : list edge) (id : string) :
  endpoints_registered nodes es →
  length (neighbours nodes es id) +
  length (filter (λ e, source e = id ∧ target e = id) es)
  = degree_spec id es.
Proof.
  unfold endpoints_registered, degree_spec.
  induction 1 as [|e es [[ns Hs] [nt Ht]] _ IH]; [done|].
  rewrite neighbours_cons, !filter_cons, length_app.
  destruct (decide (source e = id)) as [Hsrc|Hsrc];
    destruct (decide (target e = id)) as [Htgt|Htgt].
  - rewrite decide_True by auto. rewrite decide_True by auto.
    rewrite Ht. simpl (length (option_list _)). cbn [length]. lia.
  - rewrite decide_True by auto. rewrite decide_False by tauto.
    rewrite Ht. simpl (length (option_list _)). cbn [length]. lia.
  - rewrite decide_True by auto. rewrite decide_False by tauto.
    rewrite Hs. simpl (length (option_list _)). cbn [length]. lia.
  - rewrite decide_False by tauto. rewrite decide_False by tauto.
    cbn [length]. lia.
Qed.

End NeighbourFacts.

(** X16 on the scenario with the link listed twice: two neighbours, degree 2. *)
Lemma neighbours_degree_witness :
  length (neighbours exact_nodes [occurs_in; occurs_in] "event:e1") +
  length (filter (λ e, source e = "event:e1" ∧ target e = "event:e1")
            [occurs_in; occurs_in])
  = degree_spec "event:e1" [occurs_in; occurs_in].
Proof.
  apply neighbours_degree.
  repeat constructor; simpl; eexists; reflexivity.
Defined.

(** ** Graph data *)

(** X14.  Risk of a graph node.  For a store whose records carry their key in
    [id], the node handed to the force graph for an entity has the risk
    score of the metrics snapshot as its risk, whatever the relationships:
    the fallback on the severity, and on 0.3, is never taken.  Its [id] is
    the key of the entity and [raw] is its record. *)
Theorem graph_node_risk {num : Type} `{Number num} (env : Env num)
    (nodes : gmap string (gmap string (value num))) (es : list edge)
    (id : string) (node : gmap string (value num)) :
  store_wf nodes → nodes !! id = Some node →
  ∃ m, metrics env nodes es !! id = Some m ∧
       gn_risk (toGraphNode env (metrics env nodes es) node)
       = VNum (risk_score m) ∧
       gn_id (toGraphNode env (metrics env nodes es) node) = VStr id ∧
       gn_raw (toGraphNode env (metrics env nodes es) node) = node.
Proof.
  intros Hwf Hnode. pose proof (Hwf id node Hnode) as Hid.
  pose proof (metrics_lookup env nodes es id) as Hm. rewrite Hnode in Hm.
  assert (Hprop : prop node "id" = VStr id) by (unfold prop; by rewrite Hid).
  eexists. split; [exact Hm|].
  unfold toGraphNode. cbv zeta. cbn [gn_risk gn_id gn_raw].
  rewrite Hprop. cbn [to_str]. by rewrite Hm.
Qed.

(** X14 on the event of the scenario. *)
Lemma graph_node_risk_witness :
  ∃ m, metrics exact_env exact_nodes [occurs_in] !! "event:e1" = Some m ∧
       gn_risk (toGraphNode exact_env (metrics exact_env exact_nodes [occurs_in])
                  exact_event)
       = VNum (risk_score m).
Proof.
  assert (Hwf : store_wf exact_nodes).
  { intros id node. unfold exact_nodes.
    rewrite lookup_insert_Some, lookup_insert_Some, lookup_empty.
    intros [[<- <-]|[_ [[<- <-]|[_ [=]]]]]; reflexivity. }
  destruct (graph_node_risk exact_env exact_nodes [occurs_in] "event:e1"
              exact_event Hwf eq_refl) as (m & Hm & Hrisk & _).
  exists m. split; [exact Hm | exact Hrisk].
Defined.

(** ** The ranking in either arithmetic *)

(** X17.  The ranking keeps the entries.  In either arithmetic and whatever the
    scores (a NaN among them or not), the ranking of an index without a
    repeated key names no key twice and has min(topK, size of the index)
    entries; when topK is at least the size of the index, it is a
    rearrangement of the scored entries: no key is lost and each keeps its
    own score. *)
Theorem ranking_keeps_entries {num : Type} `{Number num} (qEmb : list num)
    (current : list (string * list num)) (topK : nat) :
  NoDup current.*1 →
  NoDup (ranked qEmb current topK).*1 ∧
  length (ranked qEmb current topK) = topK `min` length current ∧
  (length current ≤ topK → ranked qEmb current topK ≡ₚ scored qEmb current).
Proof.
  intros Hnd. split; [|split; [apply ranked_length|]].
  - unfold ranked.
    assert (Hkeys : (sort_scored (scored qEmb current)).*1 ≡ₚ current.*1).
    { rewrite sort_scored_Permutation. unfold scored.
      rewrite <-list_fmap_compose. done. }
    rewrite fmap_take.
    apply (sublist_NoDup _ (sort_scored (scored qEmb current)).*1).
    + by rewrite Hkeys.
    + apply sublist_take.
  - intros Hk. unfold ranked. rewrite take_ge.
    + apply sort_scored_Permutation.
    + rewrite sort_scored_length. unfold scored. by rewrite length_fmap.
Qed.

(** X17 in binary64, on an index of two entries, one of them with the zero
    vector. *)
Lemma ranking_keeps_entries_witness :
  NoDup (ranked [1; 0]%float
           [("event:e1", [1; 1]%float); ("paper:p1", [0; 0]%float)] 8).*1 ∧
  length (ranked [1; 0]%float
            [("event:e1", [1; 1]%float); ("paper:p1", [0; 0]%float)] 8)
  = 2%nat.
Proof.
  assert (Hnd : NoDup [("event:e1", [1; 1]%float);
                       ("paper:p1", [0; 0]%float)].*1).
  { apply (bool_decide_unpack _). vm_compute. exact I. }
  destruct (ranking_keeps_entries [1; 0]%float
              [("event:e1", [1; 1]%float); ("paper:p1", [0; 0]%float)] 8 Hnd)
    as (Hn & Hl & _).
  split; [exact Hn | exact Hl].
Defined.
